(** * EasyAuth credential extraction: OCR service

    A shallow embedding of [backend/ocr_service.py] (class [OCRService]) and
    of the part of [backend/models.py] it uses ([ExtractedCredential]).

    Text is a sequence of code points below 256 (Latin-1), which Rocq's
    [ascii] holds; Python's [str.lower], [str.strip] and the [re] classes
    [\s], [\w], [\d] are given their values on that range. *)

From Stdlib Require Import List String Ascii Bool Arith ZArith QArith Lia.
From Stdlib Require Decimal DecimalString.
From Stdlib Require DecimalN Permutation Sorted.
Import ListNotations.
Close Scope Q_scope.
Open Scope nat_scope.

Set Implicit Arguments.

(** ** Characters and Python [str] methods *)

Module Py.

Definition str := list ascii.

Definition code (c : ascii) : nat := nat_of_ascii c.

Definition between (lo hi : nat) (c : ascii) : bool :=
  (lo <=? code c) && (code c <=? hi).

Definition newline : ascii := ascii_of_nat 10.
Definition space : ascii := ascii_of_nat 32.

(** [str.isspace] on one character, also the class [\s] of [re]. *)
Definition isspace (c : ascii) : bool :=
  between 9 13 c || between 28 32 c || (code c =? 133) || (code c =? 160).

(** [str.isdecimal], the class [\d]. *)
Definition isdigit (c : ascii) : bool := between 48 57 c.

(** The class [\w]: [str.isalnum] or an underscore. *)
Definition isword (c : ascii) : bool :=
  between 48 57 c || between 65 90 c || (code c =? 95) || between 97 122 c
  || (code c =? 170) || between 178 179 c || (code c =? 181)
  || between 185 186 c || between 188 190 c || between 192 214 c
  || between 216 246 c || between 248 255 c.

(** [str.isupper] on one character. *)
Definition isupper (c : ascii) : bool :=
  between 65 90 c || between 192 214 c || between 216 222 c.

Definition lower_char (c : ascii) : ascii :=
  if isupper c then ascii_of_nat (code c + 32) else c.

(** Simple upper-case mapping; a character whose upper case lies outside the
    range (181, 223, 255) is left as it is. *)
Definition upper_char (c : ascii) : ascii :=
  if between 97 122 c || between 224 246 c || between 248 254 c
  then ascii_of_nat (code c - 32) else c.

(** [s.lower()] *)
Definition lower (s : str) : str := map lower_char s.

Fixpoint lstrip (s : str) : str :=
  match s with
  | c :: s' => if isspace c then lstrip s' else s
  | [] => []
  end.

Definition rstrip (s : str) : str := rev (lstrip (rev s)).

(** [s.strip()] *)
Definition strip (s : str) : str := rstrip (lstrip s).

(** [s[a:b]] for [0 <= a <= b]. *)
Definition slice (s : str) (a b : nat) : str := firstn (b - a) (skipn a s).

(** Truth value of a string: [if s:]. *)
Definition truthy (s : str) : bool :=
  match s with [] => false | _ :: _ => true end.

(** [int(s)] on a string of decimal digits. *)
Definition digit_val (c : ascii) : Z := Z.of_nat (code c - 48).

Definition int (s : str) : Z :=
  fold_left (fun acc c => (10 * acc + digit_val c)%Z) s 0%Z.

(** [str(n)] for [n >= 0]: the decimal digits, without leading zeros. *)
Definition str_of_int (z : Z) : str :=
  list_ascii_of_string
    (DecimalString.NilEmpty.string_of_uint (N.to_uint (Z.to_N z))).

End Py.

(** A string literal as text. *)
Definition txt (s : string) : Py.str := list_ascii_of_string s.

(** ** Regular expressions: the part of Python's [re] the service uses

    A backtracking matcher with the priorities of [re]: alternatives from
    left to right, a greedy repeat tries one more iteration before it tries
    to stop, a lazy one the other way round; [search] returns the match at
    the leftmost position that has one. *)

Module Re.
Import Py.

Inductive citem : Type :=
| CChar (c : ascii)          (* a character, escaped or not *)
| CRange (lo hi : ascii)     (* lo-hi *)
| CSpace                     (* \s *)
| CWord                      (* \w *)
| CDigit.                    (* \d *)

Inductive regex : Type :=
| Eps
| Lit (c : ascii)
| Any                                   (* .  (no DOTALL) *)
| Cls (neg : bool) (items : list citem) (* [...] and [^...] *)
| Bol                                   (* ^ *)
| Eol                                   (* $ *)
| Seq (r1 r2 : regex)
| Alt (r1 r2 : regex)
| Rep (greedy : bool) (lo : nat) (hi : option nat) (r : regex)
| Grp (n : nat) (r : regex).            (* capturing group number n *)

Record flags : Type := { ignorecase : bool; multiline : bool }.

Definition no_flags : flags := {| ignorecase := false; multiline := false |}.
(** [re.IGNORECASE | re.MULTILINE] *)
Definition IM : flags := {| ignorecase := true; multiline := true |}.
(** [re.IGNORECASE] *)
Definition I : flags := {| ignorecase := true; multiline := false |}.

Definition item_has (it : citem) (x : ascii) : bool :=
  match it with
  | CChar c => Ascii.eqb c x
  | CRange lo hi => between (code lo) (code hi) x
  | CSpace => isspace x
  | CWord => isword x
  | CDigit => isdigit x
  end.

Definition items_have (items : list citem) (x : ascii) : bool :=
  existsb (fun it => item_has it x) items.

Definition lit_matches (fl : flags) (c x : ascii) : bool :=
  if ignorecase fl then Ascii.eqb (lower_char c) (lower_char x)
  else Ascii.eqb c x.

(** With IGNORECASE a set holds a character when it holds its lower-case or
    its upper-case form. *)
Definition cls_matches (fl : flags) (neg : bool) (items : list citem)
    (x : ascii) : bool :=
  xorb neg
    (if ignorecase fl
     then items_have items (lower_char x) || items_have items (upper_char x)
     else items_have items x).

(** Where the matcher stands: the index, the character before it and the
    characters still ahead. *)
Record cursor : Type := { pos : nat; prev : option ascii; rest : str }.

Definition start_of (s : str) : cursor :=
  {| pos := 0; prev := None; rest := s |}.

Definition step (x : ascii) (xs : str) (cu : cursor) : cursor :=
  {| pos := S (pos cu); prev := Some x; rest := xs |}.

Definition at_bol (fl : flags) (cu : cursor) : bool :=
  match prev cu with
  | None => true
  | Some c => multiline fl && Ascii.eqb c newline
  end.

Definition at_eol (fl : flags) (cu : cursor) : bool :=
  match rest cu with
  | [] => true
  | c :: xs =>
      Ascii.eqb c newline
      && (multiline fl || match xs with [] => true | _ => false end)
  end.

(** Group number |-> (start, end); the most recent binding comes first. *)
Definition caps := list (nat * (nat * nat)).

Fixpoint cap (n : nat) (cs : caps) : option (nat * nat) :=
  match cs with
  | [] => None
  | (k, span) :: cs' => if k =? n then Some span else cap n cs'
  end.

(** End position and groups of a successful match. *)
Definition outcome := (nat * caps)%type.
Definition cont := cursor -> caps -> option outcome.

Definition one (ok : ascii -> bool) (k : cont) (cu : cursor) (cs : caps)
    : option outcome :=
  match rest cu with
  | x :: xs => if ok x then k (step x xs cu) cs else None
  | [] => None
  end.

Definition below (n : nat) (hi : option nat) : bool :=
  match hi with None => true | Some h => n <? h end.

(** The loop of a repeat [r{lo,hi}] whose body is run by [body]: [cnt]
    iterations are done, at most [fuel] more are tried.  An iteration that
    consumes nothing is not taken, so the number of characters ahead is fuel
    enough ([ReFacts.rep_loop_fuel_enough]); the test is idle for a body
    that cannot match the empty string ([ReFacts.progress_test_idle]), which
    is the case of every repeat of the service
    ([ReFacts.used_patterns_well_formed]). *)
Fixpoint rep_loop (body : cont -> cont) (greedy : bool) (lo : nat)
    (hi : option nat) (k : cont) (fuel cnt : nat) (cu : cursor) (cs : caps)
    {struct fuel} : option outcome :=
  match fuel with
  | O => if lo <=? cnt then k cu cs else None
  | S f =>
      let again (_ : unit) :=
        if below cnt hi
        then body (fun cu' cs' =>
                     if pos cu <? pos cu'
                     then rep_loop body greedy lo hi k f (S cnt) cu' cs'
                     else None) cu cs
        else None in
      let stop (_ : unit) := if lo <=? cnt then k cu cs else None in
      if greedy
      then match again tt with Some o => Some o | None => stop tt end
      else match stop tt with Some o => Some o | None => again tt end
  end.

(** [exec fl r k cu cs]: match [r] at [cu], then go on with [k]. *)
Fixpoint exec (fl : flags) (r : regex) (k : cont) (cu : cursor) (cs : caps)
    {struct r} : option outcome :=
  match r with
  | Eps => k cu cs
  | Lit c => one (lit_matches fl c) k cu cs
  | Any => one (fun x => negb (Ascii.eqb x newline)) k cu cs
  | Cls neg items => one (cls_matches fl neg items) k cu cs
  | Bol => if at_bol fl cu then k cu cs else None
  | Eol => if at_eol fl cu then k cu cs else None
  | Seq r1 r2 => exec fl r1 (fun cu' cs' => exec fl r2 k cu' cs') cu cs
  | Alt r1 r2 =>
      match exec fl r1 k cu cs with
      | Some o => Some o
      | None => exec fl r2 k cu cs
      end
  | Grp n r1 =>
      exec fl r1 (fun cu' cs' => k cu' ((n, (pos cu, pos cu')) :: cs')) cu cs
  | Rep greedy lo hi r1 =>
      rep_loop (exec fl r1) greedy lo hi k (List.length (rest cu)) 0 cu cs
  end.

Definition accept : cont := fun cu cs => Some (pos cu, cs).

Definition match_at (fl : flags) (r : regex) (cu : cursor) : option outcome :=
  exec fl r accept cu [].

(** A match object: the searched string, the span of the whole match and
    the groups. *)
Record match_obj : Type :=
  { m_string : str; m_start : nat; m_end : nat; m_caps : caps }.

(** [m.group()] *)
Definition group0 (m : match_obj) : str :=
  slice (m_string m) (m_start m) (m_end m).

(** [m.group(n)]; [None] when group [n] took no part in the match. *)
Definition group (m : match_obj) (n : nat) : option str :=
  match cap n (m_caps m) with
  | Some (a, b) => Some (slice (m_string m) a b)
  | None => None
  end.

Fixpoint scan (fl : flags) (r : regex) (s : str) (p : nat)
    (pv : option ascii) (xs : str) {struct xs} : option match_obj :=
  match match_at fl r {| pos := p; prev := pv; rest := xs |} with
  | Some (e, cs) =>
      Some {| m_string := s; m_start := p; m_end := e; m_caps := cs |}
  | None =>
      match xs with
      | [] => None
      | x :: xs' => scan fl r s (S p) (Some x) xs'
      end
  end.

(** [re.search] for a compiled expression. *)
Definition search_re (fl : flags) (r : regex) (s : str) : option match_obj :=
  scan fl r s 0 None s.

(** [re.match] for a compiled expression. *)
Definition match_re (fl : flags) (r : regex) (s : str) : option match_obj :=
  match match_at fl r (start_of s) with
  | Some (e, cs) =>
      Some {| m_string := s; m_start := 0; m_end := e; m_caps := cs |}
  | None => None
  end.

(** The loop of [re.sub]: [skip] characters of the current match are still
    to be dropped. *)
Fixpoint sub_go (fl : flags) (r : regex) (repl : str) (skip p : nat)
    (pv : option ascii) (xs : str) {struct xs} : str :=
  match skip, xs with
  | S n, x :: xs' => sub_go fl r repl n (S p) (Some x) xs'
  | S _, [] => []
  | O, _ =>
      match match_at fl r {| pos := p; prev := pv; rest := xs |}, xs with
      | Some (e, _), x :: xs' =>
          if p <? e then repl ++ sub_go fl r repl (e - p - 1) (S p) (Some x) xs'
          else repl ++ x :: sub_go fl r repl 0 (S p) (Some x) xs'
      | Some _, [] => repl
      | None, x :: xs' => x :: sub_go fl r repl 0 (S p) (Some x) xs'
      | None, [] => []
      end
  end.

(** [re.sub] for a compiled expression and a replacement free of
    back-references. *)
Definition sub_re (fl : flags) (r : regex) (repl : str) (s : str) : str :=
  sub_go fl r repl 0 0 None s.

(** *** Reading a pattern

    The syntax the service's patterns are written in: alternation, groups
    [( )] and [(?: )], sets, the escapes [\s \w \d \n \t] and escaped
    punctuation, [. ^ $] and the quantifiers [* *? + ? {m} {m,n}].  Groups
    are numbered by their opening parenthesis. *)

Definition escape_item (c : ascii) : citem :=
  if Ascii.eqb c "s" then CSpace
  else if Ascii.eqb c "w" then CWord
  else if Ascii.eqb c "d" then CDigit
  else if Ascii.eqb c "n" then CChar newline
  else if Ascii.eqb c "t" then CChar (ascii_of_nat 9)
  else CChar c.

Definition escape_atom (c : ascii) : regex :=
  match escape_item c with
  | CChar x => Lit x
  | it => Cls false [it]
  end.

(** The items of a set, up to the closing bracket. *)
Fixpoint p_items (s : str) (acc : list citem) : option (list citem * str) :=
  match s with
  | [] => None
  | c :: s1 =>
      if Ascii.eqb c "]" then Some (rev acc, s1)
      else if Ascii.eqb c "\" then
        match s1 with
        | e :: s2 => p_items s2 (escape_item e :: acc)
        | [] => None
        end
      else
        match s1 with
        | d :: hi :: s2 =>
            if Ascii.eqb d "-" && negb (Ascii.eqb hi "]")
            then p_items s2 (CRange c hi :: acc)
            else p_items s1 (CChar c :: acc)
        | _ => p_items s1 (CChar c :: acc)
        end
  end.

Definition p_set (s : str) : option (regex * str) :=
  match s with
  | c :: s1 =>
      if Ascii.eqb c "^"
      then match p_items s1 [] with
           | Some (items, s2) => Some (Cls true items, s2)
           | None => None
           end
      else match p_items s [] with
           | Some (items, s2) => Some (Cls false items, s2)
           | None => None
           end
  | [] => None
  end.

Fixpoint p_nat (s : str) (acc : nat) : nat * str :=
  match s with
  | c :: s1 => if isdigit c then p_nat s1 (10 * acc + (code c - 48)) else (acc, s)
  | [] => (acc, s)
  end.

(** An optional quantifier after the atom [a]. *)
Definition p_quant (a : regex) (s : str) : option (regex * str) :=
  match s with
  | c :: s1 =>
      if Ascii.eqb c "*" then
        match s1 with
        | q :: s2 => if Ascii.eqb q "?" then Some (Rep false 0 None a, s2)
                     else Some (Rep true 0 None a, s1)
        | [] => Some (Rep true 0 None a, s1)
        end
      else if Ascii.eqb c "+" then Some (Rep true 1 None a, s1)
      else if Ascii.eqb c "?" then Some (Rep true 0 (Some 1) a, s1)
      else if Ascii.eqb c "{" then
        let (lo, s2) := p_nat s1 0 in
        match s2 with
        | x :: s3 =>
            if Ascii.eqb x "}" then Some (Rep true lo (Some lo) a, s3)
            else if Ascii.eqb x "," then
              let (hi, s4) := p_nat s3 0 in
              match s4 with
              | y :: s5 => if Ascii.eqb y "}" then Some (Rep true lo (Some hi) a, s5)
                           else None
              | [] => None
              end
            else None
        | [] => None
        end
      else Some (a, s)
  | [] => Some (a, s)
  end.

Definition then_ (r1 r2 : regex) : regex :=
  match r2 with Eps => r1 | _ => Seq r1 r2 end.

Definition closes (s : str) : option str :=
  match s with
  | c :: s1 => if Ascii.eqb c ")" then Some s1 else None
  | [] => None
  end.

(** [p_regex fuel s g]: an alternation at the head of [s], the rest of [s]
    and the next free group number. *)
Fixpoint p_regex (fuel : nat) (s : str) (g : nat) {struct fuel}
    : option (regex * str * nat) :=
  match fuel with
  | O => None
  | S fuel' =>
      let p_atom (s : str) (g : nat) : option (regex * str * nat) :=
        match s with
        | [] => None
        | c :: s1 =>
            if Ascii.eqb c "(" then
              match s1 with
              | "?"%char :: ":"%char :: s2 =>
                  match p_regex fuel' s2 g with
                  | Some (r, s3, g') =>
                      match closes s3 with
                      | Some s4 => Some (r, s4, g')
                      | None => None
                      end
                  | None => None
                  end
              | _ =>
                  match p_regex fuel' s1 (S g) with
                  | Some (r, s3, g') =>
                      match closes s3 with
                      | Some s4 => Some (Grp g r, s4, g')
                      | None => None
                      end
                  | None => None
                  end
              end
            else if Ascii.eqb c "[" then
              match p_set s1 with
              | Some (r, s2) => Some (r, s2, g)
              | None => None
              end
            else if Ascii.eqb c "\" then
              match s1 with
              | e :: s2 => Some (escape_atom e, s2, g)
              | [] => None
              end
            else if Ascii.eqb c "." then Some (Any, s1, g)
            else if Ascii.eqb c "^" then Some (Bol, s1, g)
            else if Ascii.eqb c "$" then Some (Eol, s1, g)
            else if Ascii.eqb c "*" || Ascii.eqb c "+" || Ascii.eqb c "?"
                    || Ascii.eqb c "{" || Ascii.eqb c "}" || Ascii.eqb c "]"
            then None
            else Some (Lit c, s1, g)
        end in
      let p_seq :=
        fix p_seq (n : nat) (s : str) (g : nat) {struct n}
            : option (regex * str * nat) :=
          match n with
          | O => None
          | S n' =>
              match s with
              | [] => Some (Eps, s, g)
              | c :: _ =>
                  if Ascii.eqb c "|" || Ascii.eqb c ")" then Some (Eps, s, g)
                  else
                    match p_atom s g with
                    | Some (a, s1, g1) =>
                        match p_quant a s1 with
                        | Some (q, s2) =>
                            match p_seq n' s2 g1 with
                            | Some (r, s3, g3) => Some (then_ q r, s3, g3)
                            | None => None
                            end
                        | None => None
                        end
                    | None => None
                    end
              end
          end in
      match p_seq (S (List.length s)) s g with
      | Some (r1, c :: s1, g1) =>
          if Ascii.eqb c "|" then
            match p_regex fuel' s1 g1 with
            | Some (r2, s2, g2) => Some (Alt r1 r2, s2, g2)
            | None => None
            end
          else Some (r1, c :: s1, g1)
      | other => other
      end
  end.

(** [Some r] when the whole of [pattern] is an expression. *)
Definition parse (pattern : string) : option regex :=
  let s := list_ascii_of_string pattern in
  match p_regex (S (List.length s)) s 1 with
  | Some (r, [], _) => Some r
  | _ => None
  end.

(** [re.compile(pattern)]; a pattern outside the syntax above gives the
    expression that matches nothing. *)
Definition compile (pattern : string) : regex :=
  match parse pattern with
  | Some r => r
  | None => Cls false []
  end.

(** [re.search(pattern, s, flags)] *)
Definition search (pattern : string) (s : str) (fl : flags)
    : option match_obj :=
  search_re fl (compile pattern) s.

(** [re.match(pattern, s, flags)] *)
Definition match_ (pattern : string) (s : str) (fl : flags)
    : option match_obj :=
  match_re fl (compile pattern) s.

(** [re.sub(pattern, repl, s, flags=flags)] *)
Definition sub (pattern : string) (repl : str) (s : str) (fl : flags) : str :=
  sub_re fl (compile pattern) repl s.

End Re.


(** ** Results of code that can raise *)

Inductive exn : Type :=
| AttributeError            (* a method called on [None] *)
| FileNotFoundError         (* a file that is not there is opened *)
| LibraryError (tag : nat). (* an error raised inside an external library *)

Inductive result (A : Type) : Type :=
| Ok (a : A)
| Raise (e : exn).
Arguments Ok {A} a.
Arguments Raise {A} e.

Definition bind {A B : Type} (x : result A) (f : A -> result B) : result B :=
  match x with
  | Ok a => f a
  | Raise e => Raise e
  end.

Notation "x <- c1 ;; c2" := (bind c1 (fun x => c2))
  (at level 61, c1 at next level, right associativity).

(** ** [models.ExtractedCredential] *)

(** The string-valued slots of the model; [raw_text] and [confidence_score]
    are left [None] by the parser and are added by [extract_credentials]. *)
Inductive field : Type :=
| name | roll_number | degree | issue_year | institution | grade
| specialization | certificate_number.

Definition field_eqb (f g : field) : bool :=
  match f, g with
  | name, name | roll_number, roll_number | degree, degree
  | issue_year, issue_year | institution, institution | grade, grade
  | specialization, specialization
  | certificate_number, certificate_number => true
  | _, _ => false
  end.

(** The declared slots, in declaration order. *)
Definition model_fields : list field :=
  [name; roll_number; degree; issue_year; institution; grade;
   specialization; certificate_number].

(** An instance: every slot is [None] or a string. *)
Definition ExtractedCredential := field -> option Py.str.

(** [ExtractedCredential()] *)
Definition new_credential : ExtractedCredential := fun _ => None.

Definition setattr (c : ExtractedCredential) (f : field) (v : Py.str)
    : ExtractedCredential :=
  fun g => if field_eqb g f then Some v else c g.

(** [c.dict(exclude_none=True)]: the slots that are set, in declaration
    order. *)
Definition dict_exclude_none (c : ExtractedCredential)
    : list (field * Py.str) :=
  flat_map (fun f => match c f with Some v => [(f, v)] | None => [] end)
    model_fields.

(** The name of a slot, as the key it has in [c.dict()]. *)
Definition field_name (f : field) : string :=
  match f with
  | name => "name"
  | roll_number => "roll_number"
  | degree => "degree"
  | issue_year => "issue_year"
  | institution => "institution"
  | grade => "grade"
  | specialization => "specialization"
  | certificate_number => "certificate_number"
  end%string.

(** What the values of the result of an extraction are: strings, and the
    confidence. *)
Inductive value : Type :=
| Str (s : Py.str)
| Float (q : Q).

(** A [Dict[str, Any]] of such values, in insertion order. *)
Definition dict := list (string * value).

(** [d[k] = v] *)
Fixpoint setitem (d : dict) (k : string) (v : value) : dict :=
  match d with
  | [] => [(k, v)]
  | (k', v') :: d' =>
      if String.eqb k' k then (k, v) :: d' else (k', v') :: setitem d' k v
  end.

(** [d.get(k)] *)
Fixpoint getitem (d : dict) (k : string) : option value :=
  match d with
  | [] => None
  | (k', v') :: d' => if String.eqb k' k then Some v' else getitem d' k
  end.

(** ** Paths: the part of [pathlib] the service uses

    Paths are POSIX paths; [name] and [suffix] are those of Python 3.8 to
    3.13. *)

Module Pathlib.
Import Py.

Fixpoint str_eqb (s t : str) : bool :=
  match s, t with
  | [], [] => true
  | a :: s', b :: t' => Ascii.eqb a b && str_eqb s' t'
  | _, _ => false
  end.

(** [s.split("/")]; [cur] holds the component being read, backwards. *)
Fixpoint split_slash (s cur : str) : list str :=
  match s with
  | [] => [rev cur]
  | c :: s' =>
      if Ascii.eqb c "/" then rev cur :: split_slash s' []
      else split_slash s' (c :: cur)
  end.

(** The components of a path: empty ones and [.] are dropped. *)
Definition components (s : str) : list str :=
  filter (fun x => negb (str_eqb x [] || str_eqb x ["."%char]))
    (split_slash s []).

(** [Path(s).name]: the last component, empty when there is none. *)
Definition name_of (s : str) : str := last (components s) [].

(** [name.rfind(".")]; [None] stands for -1. *)
Fixpoint rfind_dot (name : str) : option nat :=
  match name with
  | [] => None
  | c :: name' =>
      match rfind_dot name' with
      | Some i => Some (S i)
      | None => if Ascii.eqb c "." then Some 0 else None
      end
  end.

(** [p.suffix] for a path whose name is [name]: the part of the name from
    its last dot on, unless that dot is the first or the last character. *)
Definition suffix_of (name : str) : str :=
  match rfind_dot name with
  | Some i =>
      if (0 <? i) && (i <? List.length name - 1) then skipn i name else []
  | None => []
  end.

End Pathlib.

(** ** [OCRService]: the field parser *)

Module OCRService.
Import Py Re.
Local Open Scope string_scope.

(** [self.patterns]: the lists in the order of the source. *)
Definition patterns (f : field) : list string :=
  match f with
  | name =>
      [ "(?:name|candidate|student)[\s\:]*([a-zA-Z\s\.]+)";
        "this\s+is\s+to\s+certify\s+that\s+([a-zA-Z\s\.]+)";
        "mr\.|ms\.|miss\s+([a-zA-Z\s\.]+)" ]
  | roll_number =>
      [ "(?:roll|registration|student|id)[\s\:]*no[\s\:]*([a-zA-Z0-9\/\-]+)";
        "roll[\s\:]*([a-zA-Z0-9\/\-]+)";
        "reg[\s\:]*no[\s\:]*([a-zA-Z0-9\/\-]+)" ]
  | degree =>
      [ "(?:bachelor|master|diploma|certificate|degree)[\s\:]*(?:of|in|programme)*\s*([a-zA-Z\s\&\(\)]+)";
        "(?:b\.?[a-zA-Z]*|m\.?[a-zA-Z]*|phd|ph\.d)[\s\:]*(?:in)*\s*([a-zA-Z\s\&\(\)]*)";
        "(?:course|program|programme)[\s\:]*([a-zA-Z\s\&\(\)]+)" ]
  | issue_year =>
      [ "(?:year|session|batch)[\s\:]*([0-9]{4})";
        "(?:passed|completed)[\s\:]*(?:in)*\s*([0-9]{4})";
        "([0-9]{4})(?:\s*batch|\s*session)";
        "(?:dated|date)[\s\:]*.{0,20}([0-9]{4})" ]
  | institution =>
      [ "(?:university|college|institute|school)[\s\:]*(.*?)(?:university|college|institute|school)";
        "^([^0-9\n]*(?:university|college|institute|school)[^0-9\n]*)";
        "(?:awarded\s+by|issued\s+by|from)[\s\:]*([a-zA-Z\s\,\&\(\)]+)" ]
  | grade =>
      [ "(?:grade|cgpa|gpa|marks|percentage)[\s\:]*([a-zA-Z0-9\.\s]+)";
        "(?:secured|obtained|scored)[\s\:]*([a-zA-Z0-9\.\s]+)(?:\s*grade|\s*cgpa|\s*gpa|\s*marks|\s*%)" ]
  | certificate_number =>
      [ "(?:certificate|cert|diploma)[\s\:]*no[\s\:]*([a-zA-Z0-9\/\-]+)";
        "(?:serial|certificate)[\s\:]*([a-zA-Z0-9\/\-]+)" ]
  | specialization => []
  end.

(** The keys of [self.patterns], in the order of the dict. *)
Definition pattern_fields : list field :=
  [name; roll_number; degree; issue_year; institution; grade;
   certificate_number].

(** *** [_clean_extracted_value] *)

Definition _clean_extracted_value (value : str) (field_type : field) : str :=
  if negb (truthy value) then []
  else
    let cleaned := sub "\s+" [space] (strip value) no_flags in
    let cleaned := sub "[^\w\s\.\-\/\(\)\&]" [] cleaned no_flags in
    match field_type with
    | name =>
        let cleaned := sub "(?:mr|ms|miss|dr|prof)\.?\s*" [] cleaned I in
        if (50 <? List.length cleaned)%nat then [] else cleaned
    | roll_number =>
        match match_ "^[a-zA-Z0-9\/\-]{2,20}$" cleaned no_flags with
        | None => []
        | Some _ => cleaned
        end
    | issue_year =>
        match search "(19|20)\d{2}" cleaned no_flags with
        | Some year_match =>
            let year := int (group0 year_match) in
            if ((1950 <=? year) && (year <=? 2030))%Z then str_of_int year
            else []
        | None => []
        end
    | _ => cleaned
    end.

(** *** [_post_process_fields] *)

Definition institution_indicators : list string :=
  [ "([^,\n]*university[^,\n]*)";
    "([^,\n]*college[^,\n]*)";
    "([^,\n]*institute[^,\n]*)" ].

(** [not v] for a slot: it is [None] or the empty string. *)
Definition falsy (v : option str) : bool :=
  match v with Some s => negb (truthy s) | None => true end.

(** The loop over [institution_indicators].  A group that took no part in
    the match would reach [_clean_extracted_value] as [None], for which it
    returns the empty string. *)
Fixpoint find_institution (ps : list string) (raw_text : str) : option str :=
  match ps with
  | [] => None
  | pattern :: ps' =>
      match search pattern raw_text I with
      | Some m =>
          let inst_name :=
            match group m 1 with
            | Some g => _clean_extracted_value g institution
            | None => []
            end in
          if (10 <? List.length inst_name)%nat then Some inst_name
          else find_institution ps' raw_text
      | None => find_institution ps' raw_text
      end
  end.

Definition _post_process_fields (credentials : ExtractedCredential)
    (raw_text : str) : result ExtractedCredential :=
  let credentials :=
    if falsy (credentials institution) then
      match find_institution institution_indicators raw_text with
      | Some inst_name => setattr credentials institution inst_name
      | None => credentials
      end
    else credentials in
  match credentials degree with
  | Some deg =>
      if truthy deg && falsy (credentials specialization) then
        match search "(?:in|of)\s+([a-zA-Z\s\&\(\)]+)" deg I with
        | Some spec_match =>
            match group spec_match 1 with
            | None => Raise AttributeError
            | Some g =>
                let credentials :=
                  setattr credentials specialization (strip g) in
                Ok (setattr credentials degree
                      (strip (sub "(?:in|of)\s+[a-zA-Z\s\&\(\)]+" [] deg I)))
            end
        | None => Ok credentials
        end
      else Ok credentials
  | None => Ok credentials
  end.

(** *** [_parse_credentials] *)

(** One turn of the inner loop: [None] when the loop goes on to the next
    pattern, [Some v] when it stores [v] and breaks.  [match.group(1)] is
    [None] when group 1 took no part in the match, and [.strip()] then
    raises. *)
Definition try_pattern (f : field) (text_lower : str) (pattern : string)
    : result (option str) :=
  match search pattern text_lower IM with
  | None => Ok None
  | Some m =>
      match group m 1 with
      | None => Raise AttributeError
      | Some g =>
          let value := strip g in
          let cleaned_value := _clean_extracted_value value f in
          if truthy cleaned_value then Ok (Some cleaned_value) else Ok None
      end
  end.

(** The inner loop, over the patterns of one field. *)
Fixpoint first_accepted (f : field) (text_lower : str) (ps : list string)
    : result (option str) :=
  match ps with
  | [] => Ok None
  | pattern :: ps' =>
      r <- try_pattern f text_lower pattern ;;
      match r with
      | Some v => Ok (Some v)
      | None => first_accepted f text_lower ps'
      end
  end.

(** The outer loop, over the fields. *)
Fixpoint pattern_pass (fs : list field) (text_lower : str)
    (credentials : ExtractedCredential) : result ExtractedCredential :=
  match fs with
  | [] => Ok credentials
  | f :: fs' =>
      r <- first_accepted f text_lower (patterns f) ;;
      pattern_pass fs' text_lower
        (match r with
         | Some v => setattr credentials f v
         | None => credentials
         end)
  end.

Definition _parse_credentials (raw_text : str)
    : result (list (field * str)) :=
  let credentials := new_credential in
  let text_lower := lower raw_text in
  credentials <- pattern_pass pattern_fields text_lower credentials ;;
  credentials <- _post_process_fields credentials raw_text ;;
  Ok (dict_exclude_none credentials).

(** ** [OCRService]: text extraction

    The libraries the service calls (OpenCV, Pillow, NumPy, PyMuPDF, PyPDF2,
    EasyOCR) are parameters: a call that can raise returns a [result].
    [cv2.imread] returns [None] for a file it cannot decode, and it can
    raise as well.  A confidence is a finite float, written as a rational
    number: one that a library returns as the number it is, a literal of
    the source ([0.95], [0.8], [0.0]) as the decimal it is written as.  What
    the sum of two floats and the quotient of a float by an [int] round to
    is left to the parameters [float_add] and [float_div]. *)

Definition bytes := list ascii.

(** A path: the parent directory and the file name. *)
Definition path := (string * string)%type.

Definition path_eqb (p q : path) : bool :=
  String.eqb (fst p) (fst q) && String.eqb (snd p) (snd q).

(** The files on disk. *)
Definition files := path -> option bytes.

Definition write (fs : files) (p : path) (data : bytes) : files :=
  fun q => if path_eqb q p then Some data else fs q.

(** [p.unlink(missing_ok=True)] *)
Definition unlink (fs : files) (p : path) : files :=
  fun q => if path_eqb q p then None else fs q.

Inductive color_code : Type := COLOR_RGB2BGR | COLOR_BGR2GRAY.
Inductive adaptive_method : Type := ADAPTIVE_THRESH_GAUSSIAN_C.
Inductive threshold_type : Type := THRESH_BINARY.

(** A page of a PyMuPDF document: [page.get_text()] and
    [page.get_pixmap(matrix=fitz.Matrix(2, 2)).tobytes("png")]. *)
Record fitz_page : Type :=
  { get_text : result str; get_pixmap_png : result bytes }.

(** One detection of EasyOCR: (bbox, text, confidence). *)
Definition detection := (list (nat * nat) * str * Q)%type.

Record libraries (raster pil_image : Type) : Type :=
  { np_empty : raster;                                  (* np.array([]) *)
    np_array : pil_image -> raster;
    cv2_imread : bytes -> result (option raster);
    Image_open : bytes -> result pil_image;
    cv2_cvtColor : raster -> color_code -> result raster;
    cv2_fastNlMeansDenoising : raster -> result raster;
    cv2_adaptiveThreshold :
      raster -> nat -> adaptive_method -> threshold_type -> nat -> nat ->
      result raster;
    reader_readtext : raster -> result (list detection);
    fitz_open : bytes -> result (list fitz_page);
    (** [PdfReader(file).pages], each page with its [extract_text()] *)
    PdfReader : bytes -> result (list (result str));
    float_add : Q -> Q -> Q;                              (* a + b *)
    float_div : Q -> nat -> Q }.                          (* a / n *)

Section TextExtraction.

Context {raster pil_image : Type} (lib : libraries raster pil_image).

(** [try: body except Exception as e: handler] *)
Definition try_except {A : Type} (body : result A) (handler : exn -> result A)
    : result A :=
  match body with
  | Ok a => Ok a
  | Raise e => handler e
  end.

(** [cv2.imread(p)]; a file that is not there gives [None]. *)
Definition imread (fs : files) (p : path) : result (option raster) :=
  match fs p with
  | Some data => cv2_imread lib data
  | None => Ok None
  end.

Definition open_image (fs : files) (p : path) : result pil_image :=
  match fs p with
  | Some data => Image_open lib data
  | None => Raise FileNotFoundError
  end.

Definition _preprocess_image (fs : files) (image_path : path)
    : result raster :=
  try_except
    (found <- imread fs image_path ;;
     img <- match found with
            | Some img => Ok img
            | None =>
                pil_img <- open_image fs image_path ;;
                cv2_cvtColor lib (np_array lib pil_img) COLOR_RGB2BGR
            end ;;
     gray <- cv2_cvtColor lib img COLOR_BGR2GRAY ;;
     denoised <- cv2_fastNlMeansDenoising lib gray ;;
     processed <- cv2_adaptiveThreshold lib denoised 255
                    ADAPTIVE_THRESH_GAUSSIAN_C THRESH_BINARY 11 2 ;;
     Ok processed)
    (fun _ =>
       found <- imread fs image_path ;;
       match found with
       | Some img => Ok img
       | None => Ok (np_empty lib)
       end).

(** The loop of [_ocr_image] over the detections. *)
Fixpoint collect (results : list detection) (full_text : str)
    (total_confidence : Q) : str * Q :=
  match results with
  | [] => (full_text, total_confidence)
  | (_, text, confidence) :: results' =>
      collect results' (full_text ++ text ++ [space])%list
        (float_add lib total_confidence confidence)
  end.

(** [total / count if count > 0 else 0.0] *)
Definition average (total : Q) (count : nat) : Q :=
  if (0 <? count)%nat then float_div lib total count else 0%Q.

Definition _ocr_image (fs : files) (file_path : path) : result (str * Q) :=
  try_except
    (processed_img <- _preprocess_image fs file_path ;;
     results <- reader_readtext lib processed_img ;;
     let '(full_text, total_confidence) := collect results [] 0%Q in
     Ok (strip full_text, average total_confidence (List.length results)))
    (fun e => Raise e).

Definition _extract_from_image (fs : files) (file_path : path)
    : result (str * Q) :=
  _ocr_image fs file_path.

(** [file_path.parent / f"temp_page_{page_num}.png"] *)
Definition temp_page (file_path : path) (page_num : nat) : path :=
  (fst file_path,
   "temp_page_"
   ++ string_of_list_ascii (str_of_int (Z.of_nat page_num)) ++ ".png").

(** The loop of [_extract_from_pdf] over the pages, from page [page_num]
    on; the files are handed on, also when a page raises. *)
Fixpoint pages_loop (file_path : path) (page_num : nat)
    (doc : list fitz_page) (full_text : str) (total_confidence : Q)
    (page_count : nat) (fs : files) : result (str * Q * nat) * files :=
  match doc with
  | [] => (Ok (full_text, total_confidence, page_count), fs)
  | page :: doc' =>
      match get_text page with
      | Raise e => (Raise e, fs)
      | Ok text =>
          if truthy (strip text) then
            pages_loop file_path (S page_num) doc'
              (full_text ++ text ++ [newline])%list
              (float_add lib total_confidence 0.95%Q) (S page_count) fs
          else
            match get_pixmap_png page with
            | Raise e => (Raise e, fs)
            | Ok img_data =>
                let temp_img_path := temp_page file_path page_num in
                let fs := write fs temp_img_path img_data in
                match _ocr_image fs temp_img_path with
                | Raise e => (Raise e, fs)
                | Ok (page_text, page_confidence) =>
                    let fs := unlink fs temp_img_path in
                    pages_loop file_path (S page_num) doc'
                      (full_text ++ page_text ++ [newline])%list
                      (float_add lib total_confidence page_confidence)
                      (S page_count) fs
                end
            end
      end
  end.

(** The [try] block of [_extract_from_pdf]. *)
Definition pdf_with_fitz (file_path : path) (fs : files)
    : result (str * Q) * files :=
  match fs file_path with
  | None => (Raise FileNotFoundError, fs)
  | Some data =>
      match fitz_open lib data with
      | Raise e => (Raise e, fs)
      | Ok doc =>
          match pages_loop file_path 0 doc [] 0%Q 0 fs with
          | (Raise e, fs') => (Raise e, fs')
          | (Ok (full_text, total_confidence, page_count), fs') =>
              (Ok (strip full_text, average total_confidence page_count), fs')
          end
      end
  end.

(** The loop of [_extract_from_pdf_fallback] over the pages. *)
Fixpoint fallback_loop (pages : list (result str)) (full_text : str)
    : result str :=
  match pages with
  | [] => Ok full_text
  | extract_text :: pages' =>
      text <- extract_text ;;
      fallback_loop pages' (full_text ++ text ++ [newline])%list
  end.

Definition _extract_from_pdf_fallback (file_path : path) (fs : files)
    : result (str * Q) :=
  try_except
    (match fs file_path with
     | None => Raise FileNotFoundError
     | Some data =>
         pages <- PdfReader lib data ;;
         full_text <- fallback_loop pages [] ;;
         Ok (strip full_text, 0.8%Q)
     end)
    (fun e => Raise e).

Definition _extract_from_pdf (file_path : path) (fs : files)
    : result (str * Q) * files :=
  match pdf_with_fitz file_path fs with
  | (Ok r, fs') => (Ok r, fs')
  | (Raise _, fs') => (_extract_from_pdf_fallback file_path fs', fs')
  end.

(** [file_path.suffix] *)
Definition suffix (file_path : path) : str :=
  Pathlib.suffix_of (list_ascii_of_string (snd file_path)).

(** The result of [_parse_credentials] as the dict it is. *)
Definition as_dict (fields : list (field * str)) : dict :=
  map (fun kv => (field_name (fst kv), Str (snd kv))) fields.

(** [extract_credentials]; its handler logs and raises the exception
    again. *)
Definition extract_credentials (file_path : path) (fs : files)
    : result dict * files :=
  let extracted :=
    if Pathlib.str_eqb (lower (suffix file_path)) (list_ascii_of_string ".pdf")
    then _extract_from_pdf file_path fs
    else (_extract_from_image fs file_path, fs) in
  (try_except
     (r <- fst extracted ;;
      let raw_text := fst r in
      let confidence := snd r in
      fields <- _parse_credentials raw_text ;;
      let structured_data := as_dict fields in
      let structured_data := setitem structured_data "raw_text" (Str raw_text) in
      let structured_data :=
        setitem structured_data "confidence_score" (Float confidence) in
      Ok structured_data)
     (fun e => Raise e),
   snd extracted).

End TextExtraction.

End OCRService.

(** ** Text beyond Latin-1

    The parser once more, over an alphabet with one character more:
    U+03D2, GREEK UPSILON WITH HOOK SYMBOL, an upper-case letter (category
    Lu) that [str.lower] leaves as it is, since it has no lower-case form.
    The patterns are those of the service, read by [Re.compile]; on a
    Latin-1 character every test is the one of [Py] and [Re], and on
    Latin-1 text the two parsers agree ([WideFacts.wide_pattern_pass]).  The
    module goes as far as the pattern pass of [_parse_credentials]. *)

Module Wide.
Import Py Re OCRService.
Local Open Scope string_scope.

Inductive char : Type :=
| Latin1 (c : ascii)
| UpsilonHook.               (* U+03D2 *)

Definition str := list char.

(** Latin-1 text as text. *)
Definition wide (s : Py.str) : str := map Latin1 s.

Definition eqb (x y : char) : bool :=
  match x, y with
  | Latin1 a, Latin1 b => Ascii.eqb a b
  | UpsilonHook, UpsilonHook => true
  | _, _ => false
  end.

(** [str.isspace] on one character, also the class [\s] of [re]. *)
Definition isspace (x : char) : bool :=
  match x with Latin1 c => Py.isspace c | UpsilonHook => false end.

(** [str.isdecimal], the class [\d]. *)
Definition isdigit (x : char) : bool :=
  match x with Latin1 c => Py.isdigit c | UpsilonHook => false end.

(** The class [\w]: [str.isalnum] or an underscore. *)
Definition isword (x : char) : bool :=
  match x with Latin1 c => Py.isword c | UpsilonHook => true end.

(** [str.isupper] on one character. *)
Definition isupper (x : char) : bool :=
  match x with Latin1 c => Py.isupper c | UpsilonHook => true end.

Definition lower_char (x : char) : char :=
  match x with Latin1 c => Latin1 (Py.lower_char c) | UpsilonHook => UpsilonHook end.

Definition upper_char (x : char) : char :=
  match x with Latin1 c => Latin1 (Py.upper_char c) | UpsilonHook => UpsilonHook end.

(** [s.lower()] *)
Definition lower (s : str) : str := map lower_char s.

Fixpoint lstrip (s : str) : str :=
  match s with
  | c :: s' => if isspace c then lstrip s' else s
  | [] => []
  end.

Definition rstrip (s : str) : str := rev (lstrip (rev s)).

(** [s.strip()] *)
Definition strip (s : str) : str := rstrip (lstrip s).

(** [s[a:b]] for [0 <= a <= b]. *)
Definition slice (s : str) (a b : nat) : str := firstn (b - a) (skipn a s).

Definition truthy (s : str) : bool :=
  match s with [] => false | _ :: _ => true end.

(** [int(s)] on a string of the digits 0 to 9. *)
Definition digit_val (x : char) : Z :=
  match x with Latin1 c => Py.digit_val c | UpsilonHook => 0%Z end.

Definition int (s : str) : Z :=
  fold_left (fun acc c => (10 * acc + digit_val c)%Z) s 0%Z.

(** [str(n)] for [n >= 0]. *)
Definition str_of_int (z : Z) : str := wide (Py.str_of_int z).

(** *** Matching *)

Definition item_has (it : citem) (x : char) : bool :=
  match it with
  | CChar c => eqb (Latin1 c) x
  | CRange lo hi =>
      match x with
      | Latin1 a => between (code lo) (code hi) a
      | UpsilonHook => false
      end
  | CSpace => isspace x
  | CWord => isword x
  | CDigit => isdigit x
  end.

Definition items_have (items : list citem) (x : char) : bool :=
  existsb (fun it => item_has it x) items.

Definition lit_matches (fl : flags) (c : ascii) (x : char) : bool :=
  if ignorecase fl then eqb (lower_char (Latin1 c)) (lower_char x)
  else eqb (Latin1 c) x.

Definition cls_matches (fl : flags) (neg : bool) (items : list citem)
    (x : char) : bool :=
  xorb neg
    (if ignorecase fl
     then items_have items (lower_char x) || items_have items (upper_char x)
     else items_have items x).

Record cursor : Type := { pos : nat; prev : option char; rest : str }.

Definition start_of (s : str) : cursor :=
  {| pos := 0; prev := None; rest := s |}.

Definition step (x : char) (xs : str) (cu : cursor) : cursor :=
  {| pos := S (pos cu); prev := Some x; rest := xs |}.

Definition at_bol (fl : flags) (cu : cursor) : bool :=
  match prev cu with
  | None => true
  | Some c => multiline fl && eqb c (Latin1 newline)
  end.

Definition at_eol (fl : flags) (cu : cursor) : bool :=
  match rest cu with
  | [] => true
  | c :: xs =>
      eqb c (Latin1 newline)
      && (multiline fl || match xs with [] => true | _ => false end)
  end.

Definition cont := cursor -> caps -> option outcome.

Definition one (ok : char -> bool) (k : cont) (cu : cursor) (cs : caps)
    : option outcome :=
  match rest cu with
  | x :: xs => if ok x then k (step x xs cu) cs else None
  | [] => None
  end.

Fixpoint rep_loop (body : cont -> cont) (greedy : bool) (lo : nat)
    (hi : option nat) (k : cont) (fuel cnt : nat) (cu : cursor) (cs : caps)
    {struct fuel} : option outcome :=
  match fuel with
  | O => if (lo <=? cnt)%nat then k cu cs else None
  | S f =>
      let again (_ : unit) :=
        if below cnt hi
        then body (fun cu' cs' =>
                     if (pos cu <? pos cu')%nat
                     then rep_loop body greedy lo hi k f (S cnt) cu' cs'
                     else None) cu cs
        else None in
      let stop (_ : unit) := if (lo <=? cnt)%nat then k cu cs else None in
      if greedy
      then match again tt with Some o => Some o | None => stop tt end
      else match stop tt with Some o => Some o | None => again tt end
  end.

Fixpoint exec (fl : flags) (r : regex) (k : cont) (cu : cursor) (cs : caps)
    {struct r} : option outcome :=
  match r with
  | Eps => k cu cs
  | Lit c => one (lit_matches fl c) k cu cs
  | Any => one (fun x => negb (eqb x (Latin1 newline))) k cu cs
  | Cls neg items => one (cls_matches fl neg items) k cu cs
  | Bol => if at_bol fl cu then k cu cs else None
  | Eol => if at_eol fl cu then k cu cs else None
  | Seq r1 r2 => exec fl r1 (fun cu' cs' => exec fl r2 k cu' cs') cu cs
  | Alt r1 r2 =>
      match exec fl r1 k cu cs with
      | Some o => Some o
      | None => exec fl r2 k cu cs
      end
  | Grp n r1 =>
      exec fl r1 (fun cu' cs' => k cu' ((n, (pos cu, pos cu')) :: cs')) cu cs
  | Rep greedy lo hi r1 =>
      rep_loop (exec fl r1) greedy lo hi k (List.length (rest cu)) 0 cu cs
  end.

Definition accept : cont := fun cu cs => Some (pos cu, cs).

Definition match_at (fl : flags) (r : regex) (cu : cursor) : option outcome :=
  exec fl r accept cu [].

Record match_obj : Type :=
  { m_string : str; m_start : nat; m_end : nat; m_caps : caps }.

(** [m.group()] *)
Definition group0 (m : match_obj) : str :=
  slice (m_string m) (m_start m) (m_end m).

(** [m.group(n)]; [None] when group [n] took no part in the match. *)
Definition group (m : match_obj) (n : nat) : option str :=
  match cap n (m_caps m) with
  | Some (a, b) => Some (slice (m_string m) a b)
  | None => None
  end.

Fixpoint scan (fl : flags) (r : regex) (s : str) (p : nat)
    (pv : option char) (xs : str) {struct xs} : option match_obj :=
  match match_at fl r {| pos := p; prev := pv; rest := xs |} with
  | Some (e, cs) =>
      Some {| m_string := s; m_start := p; m_end := e; m_caps := cs |}
  | None =>
      match xs with
      | [] => None
      | x :: xs' => scan fl r s (S p) (Some x) xs'
      end
  end.

(** [re.search(pattern, s, flags)] *)
Definition search (pattern : string) (s : str) (fl : flags)
    : option match_obj :=
  scan fl (compile pattern) s 0 None s.

(** [re.match(pattern, s, flags)] *)
Definition match_ (pattern : string) (s : str) (fl : flags)
    : option match_obj :=
  match match_at fl (compile pattern) (start_of s) with
  | Some (e, cs) =>
      Some {| m_string := s; m_start := 0; m_end := e; m_caps := cs |}
  | None => None
  end.

Fixpoint sub_go (fl : flags) (r : regex) (repl : str) (skip p : nat)
    (pv : option char) (xs : str) {struct xs} : str :=
  match skip, xs with
  | S n, x :: xs' => sub_go fl r repl n (S p) (Some x) xs'
  | S _, [] => []
  | O, _ =>
      match match_at fl r {| pos := p; prev := pv; rest := xs |}, xs with
      | Some (e, _), x :: xs' =>
          if (p <? e)%nat
          then (repl ++ sub_go fl r repl (e - p - 1) (S p) (Some x) xs')%list
          else (repl ++ x :: sub_go fl r repl 0 (S p) (Some x) xs')%list
      | Some _, [] => repl
      | None, x :: xs' => x :: sub_go fl r repl 0 (S p) (Some x) xs'
      | None, [] => []
      end
  end.

(** [re.sub(pattern, repl, s, flags=flags)] *)
Definition sub (pattern : string) (repl : str) (s : str) (fl : flags) : str :=
  sub_go fl (compile pattern) repl 0 0 None s.

(** *** The parser *)

Definition ExtractedCredential := field -> option str.

Definition new_credential : ExtractedCredential := fun _ => None.

Definition setattr (c : ExtractedCredential) (f : field) (v : str)
    : ExtractedCredential :=
  fun g => if field_eqb g f then Some v else c g.

Definition _clean_extracted_value (value : str) (field_type : field) : str :=
  if negb (truthy value) then []
  else
    let cleaned := sub "\s+" [Latin1 space] (strip value) no_flags in
    let cleaned := sub "[^\w\s\.\-\/\(\)\&]" [] cleaned no_flags in
    match field_type with
    | name =>
        let cleaned := sub "(?:mr|ms|miss|dr|prof)\.?\s*" [] cleaned I in
        if (50 <? List.length cleaned)%nat then [] else cleaned
    | roll_number =>
        match match_ "^[a-zA-Z0-9\/\-]{2,20}$" cleaned no_flags with
        | None => []
        | Some _ => cleaned
        end
    | issue_year =>
        match search "(19|20)\d{2}" cleaned no_flags with
        | Some year_match =>
            let year := int (group0 year_match) in
            if ((1950 <=? year) && (year <=? 2030))%Z then str_of_int year
            else []
        | None => []
        end
    | _ => cleaned
    end.

Definition try_pattern (f : field) (text_lower : str) (pattern : string)
    : result (option str) :=
  match search pattern text_lower IM with
  | None => Ok None
  | Some m =>
      match group m 1 with
      | None => Raise AttributeError
      | Some g =>
          let value := strip g in
          let cleaned_value := _clean_extracted_value value f in
          if truthy cleaned_value then Ok (Some cleaned_value) else Ok None
      end
  end.

Fixpoint first_accepted (f : field) (text_lower : str) (ps : list string)
    : result (option str) :=
  match ps with
  | [] => Ok None
  | pattern :: ps' =>
      r <- try_pattern f text_lower pattern ;;
      match r with
      | Some v => Ok (Some v)
      | None => first_accepted f text_lower ps'
      end
  end.

Fixpoint pattern_pass (fs : list field) (text_lower : str)
    (credentials : ExtractedCredential) : result ExtractedCredential :=
  match fs with
  | [] => Ok credentials
  | f :: fs' =>
      r <- first_accepted f text_lower (patterns f) ;;
      pattern_pass fs' text_lower
        (match r with
         | Some v => setattr credentials f v
         | None => credentials
         end)
  end.

(** No upper-case letter occurs in [s]. *)
Definition no_upper (s : str) : Prop := Forall (fun c => isupper c = false) s.


End Wide.

(** ** Time stamps

    A [datetime] without time zone, as [datetime.now()] returns it, and its
    [isoformat]. *)

Module Datetime.
Import Py.

Record datetime : Type :=
  { year : nat; month : nat; day : nat;
    hour : nat; minute : nat; second : nat; microsecond : nat }.

(** The format [%0wd]: decimal, filled with zeros to [width] characters. *)
Definition zfill (width n : nat) : str :=
  let digits := str_of_int (Z.of_nat n) in
  (repeat "0"%char (width - List.length digits) ++ digits)%list.

(** [t.isoformat(sep)]; the microseconds are left out when they are 0. *)
Definition isoformat (sep : ascii) (t : datetime) : str :=
  (zfill 4 (year t) ++ ["-"%char] ++ zfill 2 (month t) ++ ["-"%char]
   ++ zfill 2 (day t) ++ [sep]
   ++ zfill 2 (hour t) ++ [":"%char] ++ zfill 2 (minute t) ++ [":"%char]
   ++ zfill 2 (second t)
   ++ (if (microsecond t =? 0)%nat then []
       else "."%char :: zfill 6 (microsecond t)))%list.

End Datetime.

(** ** [models.CredentialExtraction] *)

Module Models.

Record CredentialExtraction : Type :=
  { file_id : string;
    original_filename : string;
    file_path : string;
    extracted_data : dict;
    extraction_timestamp : Datetime.datetime }.

End Models.

(** ** [database.Database]

    The database is its one table, [extractions].  The [json] module is a
    parameter, as the other libraries are; failures of the connection itself
    are not modelled. *)

Module Database.
Import Py.

(** A row of [extractions].  The column [id], which no statement of the
    service reads, is left out; a [datetime] is stored as the text
    [isoformat(" ")], which is what [sqlite3] makes of it. *)
Module Row.
Record t : Type :=
  { file_id : string;
    original_filename : string;
    file_path : string;
    extracted_data_json : str;
    extraction_timestamp : str }.
End Row.

(** The dict the two queries build from a row. *)
Module Entry.
Record t : Type :=
  { file_id : string;
    original_filename : string;
    file_path : string;
    extracted_data : dict;
    extraction_timestamp : str }.
End Entry.

(** [None] until the table is created, then its rows in the order of their
    insertion. *)
Definition database := option (list Row.t).

Record json : Type :=
  { dumps : dict -> str;             (* json.dumps(d, default=str) *)
    loads : str -> result dict }.    (* json.loads(s) *)

(** [sqlite3.OperationalError]: no such table. *)
Definition no_such_table : exn := LibraryError 0.

(** CREATE TABLE IF NOT EXISTS extractions (...) *)
Definition initialize (db : database) : database :=
  match db with
  | None => Some []
  | Some rows => Some rows
  end.

(** WHERE file_id = ? *)
Definition has_file_id (file_id : string) (row : Row.t) : bool :=
  String.eqb (Row.file_id row) file_id.

(** INSERT INTO extractions (...) VALUES (?, ?, ?, ?, ?).  The statement
    fails when there is no table and when [file_id], which is UNIQUE, is
    taken; the handler then returns [False]. *)
Definition save_extraction (js : json) (db : database)
    (extraction : Models.CredentialExtraction) : bool * database :=
  match db with
  | None => (false, db)
  | Some rows =>
      if existsb (has_file_id (Models.file_id extraction)) rows
      then (false, db)
      else
        (true,
         Some (rows ++
               [ {| Row.file_id := Models.file_id extraction;
                    Row.original_filename := Models.original_filename extraction;
                    Row.file_path := Models.file_path extraction;
                    Row.extracted_data_json :=
                      dumps js (Models.extracted_data extraction);
                    Row.extraction_timestamp :=
                      Datetime.isoformat " "
                        (Models.extraction_timestamp extraction) |} ])%list)
  end.

Definition to_entry (js : json) (row : Row.t) : result Entry.t :=
  extracted_data <- loads js (Row.extracted_data_json row) ;;
  Ok {| Entry.file_id := Row.file_id row;
        Entry.original_filename := Row.original_filename row;
        Entry.file_path := Row.file_path row;
        Entry.extracted_data := extracted_data;
        Entry.extraction_timestamp := Row.extraction_timestamp row |}.

(** SELECT ... FROM extractions WHERE file_id = ?, and [fetchone]. *)
Definition get_extraction (js : json) (db : database) (file_id : string)
    : result (option Entry.t) :=
  match db with
  | None => Raise no_such_table
  | Some rows =>
      match find (has_file_id file_id) rows with
      | Some row => entry <- to_entry js row ;; Ok (Some entry)
      | None => Ok None
      end
  end.

(** The order of two texts in SQLite: by code points, a prefix first. *)
Fixpoint text_ltb (s t : str) : bool :=
  match s, t with
  | _, [] => false
  | [], _ :: _ => true
  | a :: s', b :: t' =>
      (code a <? code b)%nat || ((code a =? code b)%nat && text_ltb s' t')
  end.

Fixpoint insert_desc (row : Row.t) (sorted : list Row.t) : list Row.t :=
  match sorted with
  | [] => [row]
  | r :: sorted' =>
      if text_ltb (Row.extraction_timestamp r) (Row.extraction_timestamp row)
      then row :: sorted
      else r :: insert_desc row sorted'
  end.

(** ORDER BY extraction_timestamp DESC.  SQL leaves the order of rows with
    equal time stamps open; here they stay in the order of insertion. *)
Definition order_by_timestamp_desc (rows : list Row.t) : list Row.t :=
  fold_left (fun sorted row => insert_desc row sorted) rows [].

(** The list comprehension over the rows. *)
Fixpoint entries (js : json) (rows : list Row.t) : result (list Entry.t) :=
  match rows with
  | [] => Ok []
  | row :: rows' =>
      entry <- to_entry js row ;;
      rest <- entries js rows' ;;
      Ok (entry :: rest)
  end.

Definition get_all_extractions (js : json) (db : database)
    : result (list Entry.t) :=
  match db with
  | None => Raise no_such_table
  | Some rows => entries js (order_by_timestamp_desc rows)
  end.

(** DELETE FROM extractions WHERE file_id = ?.  The statement fails when
    there is no table; it succeeds when no row has the [file_id]. *)
Definition delete_extraction (db : database) (file_id : string)
    : bool * database :=
  match db with
  | None => (false, db)
  | Some rows =>
      (true, Some (filter (fun row => negb (has_file_id file_id row)) rows))
  end.

End Database.

(** ** [main]: the endpoints

    The identifier [uuid.uuid4()] draws and the time [datetime.now()] reads
    are arguments; the constructor of [JSONResponse], which can raise, is a
    parameter as the other libraries are. *)

Module Main.
Import Py OCRService.
Local Open Scope string_scope.

Record UploadFile : Type :=
  { filename : option string;    (* file.filename *)
    file : bytes }.              (* what file.file holds *)

(** The [detail] of an [HTTPException], without its wording. *)
Inductive detail : Type :=
| No_file_provided
| File_type_not_supported (file_extension : str)
| OCR_extraction_failed (e : exn)
| Extraction_not_found.

(** The content of the [JSONResponse] of [extract_text]. *)
Record content : Type :=
  { status : string;
    file_id : string;
    original_filename : string;
    extracted_data : dict;
    timestamp : str }.

Inductive response (A : Type) : Type :=
| Returns (a : A)
| HTTPException (status_code : nat) (d : detail).
Arguments Returns {A} a.
Arguments HTTPException {A} status_code d.

Definition allowed_extensions : list string :=
  [".pdf"; ".jpg"; ".jpeg"; ".png"; ".tiff"; ".bmp"].

Definition UPLOAD_DIR : string := "../uploads".

(** [Path(filename).suffix.lower()] *)
Definition file_extension_of (filename : string) : str :=
  lower (Pathlib.suffix_of (Pathlib.name_of (list_ascii_of_string filename))).

(** [file_extension in allowed_extensions] *)
Definition allowed (file_extension : str) : bool :=
  existsb (fun e => Pathlib.str_eqb file_extension (list_ascii_of_string e))
    allowed_extensions.

(** [str(file_path)] *)
Definition str_of_path (p : path) : string := fst p ++ "/" ++ snd p.

Section Endpoints.

Context {raster pil_image : Type} (lib : libraries raster pil_image)
  (js : Database.json).

(** [JSONResponse(content=c)]: the constructor renders [c] at once, with
    [allow_nan=False], and raises for what it cannot render, such as a
    float that is not finite. *)
Variable JSONResponse : content -> result unit.

(** [startup] *)
Definition startup (db : Database.database) : Database.database :=
  Database.initialize db.

(** [extract_text], when [uuid.uuid4()] gives [uuid4] and [datetime.now()]
    gives [now]. *)
Definition extract_text (uuid4 : string) (now : Datetime.datetime)
    (file : UploadFile) (fs : files) (db : Database.database)
    : response content * files * Database.database :=
  match filename file with
  | None => (HTTPException 400 No_file_provided, fs, db)
  | Some EmptyString => (HTTPException 400 No_file_provided, fs, db)
  | Some file_name =>
      let file_extension := file_extension_of file_name in
      if negb (allowed file_extension)
      then (HTTPException 400 (File_type_not_supported file_extension), fs, db)
      else
        let file_id := uuid4 in
        let file_path :=
          (UPLOAD_DIR, file_id ++ string_of_list_ascii file_extension) in
        let fs := write fs file_path (Main.file file) in
        (* except Exception as e: *)
        let handler (e : exn) (fs : files) (db : Database.database) :=
          let fs :=
            match fs file_path with
            | Some _ => unlink fs file_path
            | None => fs
            end in
          (HTTPException 500 (OCR_extraction_failed e), fs, db) in
        match extract_credentials lib file_path fs with
        | (Ok extracted_data, fs) =>
            let extraction :=
              {| Models.file_id := file_id;
                 Models.original_filename := file_name;
                 Models.file_path := str_of_path file_path;
                 Models.extracted_data := extracted_data;
                 Models.extraction_timestamp := now |} in
            let db := snd (Database.save_extraction js db extraction) in
            let body :=
              {| status := "success";
                 file_id := file_id;
                 original_filename := file_name;
                 extracted_data := extracted_data;
                 timestamp :=
                   Datetime.isoformat "T"
                     (Models.extraction_timestamp extraction) |} in
            match JSONResponse body with
            | Ok _ => (Returns body, fs, db)
            | Raise e => handler e fs db
            end
        | (Raise e, fs) => handler e fs db
        end
  end.

(** [get_extractions] *)
Definition get_extractions (db : Database.database)
    : result (list Database.Entry.t) :=
  Database.get_all_extractions js db.

(** [get_extraction]; an exception of the query is not handled. *)
Definition get_extraction (db : Database.database) (file_id : string)
    : result (response Database.Entry.t) :=
  extraction <- Database.get_extraction js db file_id ;;
  match extraction with
  | None => Ok (HTTPException 404 Extraction_not_found)
  | Some entry => Ok (Returns entry)
  end.

End Endpoints.

End Main.

(** * Specification side

    The notions the statements below are written with. *)

Module Spec.
Import Py Re OCRService.
Local Open Scope string_scope.

(** No upper-case letter occurs in [s]. *)
Definition no_upper (s : str) : Prop := Forall (fun c => isupper c = false) s.

Definition no_newline (s : str) : Prop := Forall (fun c => c <> newline) s.

(** Every white-space character of [s] is a plain space. *)
Definition only_plain_spaces (s : str) : Prop :=
  Forall (fun c => isspace c = true -> c = space) s.

(** The cursor [n] characters further on. *)
Fixpoint forward (n : nat) (cu : cursor) : cursor :=
  match n with
  | O => cu
  | S n' =>
      match rest cu with
      | x :: xs => forward n' (step x xs cu)
      | [] => cu
      end
  end.

(** [r] can match the empty string. *)
Fixpoint nullable (r : regex) : bool :=
  match r with
  | Eps | Bol | Eol => true
  | Lit _ | Any | Cls _ _ => false
  | Seq r1 r2 => nullable r1 && nullable r2
  | Alt r1 r2 => nullable r1 || nullable r2
  | Rep _ lo _ r1 => (lo =? 0)%nat || nullable r1
  | Grp _ r1 => nullable r1
  end.

(** No repeated expression inside [r] can match the empty string. *)
Fixpoint repeats_consume (r : regex) : bool :=
  match r with
  | Seq r1 r2 | Alt r1 r2 => repeats_consume r1 && repeats_consume r2
  | Rep _ _ _ r1 => negb (nullable r1) && repeats_consume r1
  | Grp _ r1 => repeats_consume r1
  | _ => true
  end.

(** Two continuations that agree from [cu] on, after at least [least]
    characters. *)
Definition agree_from (least : nat) (cu : cursor) (k k' : cont) : Prop :=
  forall n cs, n <= List.length (rest cu) -> least <= n ->
               k (forward n cu) cs = k' (forward n cu) cs.

Definition least_of (r : regex) : nat := if nullable r then 0 else 1.

(** Group [n] is set on every way through [r]. *)
Fixpoint sets_group (n : nat) (r : regex) : bool :=
  match r with
  | Grp m r1 => (m =? n)%nat || sets_group n r1
  | Seq r1 r2 => sets_group n r1 || sets_group n r2
  | Alt r1 r2 => sets_group n r1 && sets_group n r2
  | Rep _ lo _ r1 => (1 <=? lo)%nat && sets_group n r1
  | _ => false
  end.

(** Group [n] is set in what [k] returns, from groups that satisfy [P]. *)
Definition gives_group (n : nat) (P : caps -> Prop) (k : cont) : Prop :=
  forall cu cs o, P cs -> k cu cs = Some o -> cap n (snd o) <> None.

Definition group_set (n : nat) (cs : caps) : Prop := cap n cs <> None.
Definition any_caps (cs : caps) : Prop := True.

(** Every pattern the service hands to [re]. *)
Definition used_patterns : list string :=
  (flat_map patterns pattern_fields
   ++ institution_indicators
   ++ [ "\s+"; "[^\w\s\.\-\/\(\)\&]"; "(?:mr|ms|miss|dr|prof)\.?\s*";
        "^[a-zA-Z0-9\/\-]{2,20}$"; "(19|20)\d{2}";
        "(?:in|of)\s+([a-zA-Z\s\&\(\)]+)";
        "(?:in|of)\s+[a-zA-Z\s\&\(\)]+" ])%list.

(** The compiled forms of the patterns of [_clean_extracted_value]. *)
Definition year_ast : regex :=
  Seq (Grp 1 (Alt (Seq (Lit "1") (Lit "9")) (Seq (Lit "2") (Lit "0"))))
      (Rep true 2 (Some 2) (Cls false [CDigit])).

Definition roll_ast : regex :=
  Seq Bol
    (Seq (Rep true 2 (Some 20)
            (Cls false [CRange "a" "z"; CRange "A" "Z"; CRange "0" "9";
                        CChar "/"; CChar "-"]))
         Eol).

Definition spaces_ast : regex := Rep true 1 None (Cls false [CSpace]).

Definition unwanted_ast : regex :=
  Cls true [CWord; CSpace; CChar "."; CChar "-"; CChar "/"; CChar "(";
            CChar ")"; CChar "&"].

(** Four characters 19dd or 20dd. *)
Definition year_shape (a b c d : ascii) : bool :=
  ((Ascii.eqb a "1" && Ascii.eqb b "9") || (Ascii.eqb a "2" && Ascii.eqb b "0"))
  && isdigit c && isdigit d.

Definition year_shaped (y : str) : bool :=
  match y with
  | [a; b; c; d] => year_shape a b c d
  | _ => false
  end.

(** The year-shaped string at the head of [xs]. *)
Definition year_at (xs : str) : option str :=
  match xs with
  | a :: b :: c :: d :: _ =>
      if year_shape a b c d then Some [a; b; c; d] else None
  | _ => None
  end.

(** The first year-shaped substring, reading from the left. *)
Fixpoint first_year (s : str) : option str :=
  match year_at s with
  | Some y => Some y
  | None => match s with [] => None | _ :: s' => first_year s' end
  end.

(** [y] is a substring of [s]. *)
Definition substring (y s : str) : Prop :=
  exists pre suf, s = (pre ++ y ++ suf)%list.

(** [y] is the leftmost year-shaped substring of [s]. *)
Definition leftmost_year (s y : str) : Prop :=
  exists pre suf,
    s = (pre ++ y ++ suf)%list /\ year_shaped y = true
    /\ forall pre' y' suf',
         s = (pre' ++ y' ++ suf')%list -> year_shaped y' = true ->
         List.length pre <= List.length pre'.

(** A character of [[a-zA-Z0-9/-]]. *)
Definition id_char (c : ascii) : bool :=
  between 97 122 c || between 65 90 c || between 48 57 c
  || Ascii.eqb c "/" || Ascii.eqb c "-".

(** The strings [^[a-zA-Z0-9/-]{2,20}$] stands for. *)
Definition roll_valid (v : str) : Prop :=
  2 <= List.length v <= 20 /\ Forall (fun c => id_char c = true) v.

(** The cleaning every candidate goes through: the two substitutions at
    the head of [_clean_extracted_value]. *)
Definition tidy (value : str) : str :=
  sub "[^\w\s\.\-\/\(\)\&]" []
    (sub "\s+" [space] (strip value) no_flags) no_flags.

(** A character of [[\w\s.\-/()&]]. *)
Definition wanted_char (c : ascii) : bool :=
  isword c || isspace c || Ascii.eqb c "." || Ascii.eqb c "-"
  || Ascii.eqb c "/" || Ascii.eqb c "(" || Ascii.eqb c ")" || Ascii.eqb c "&".

(** A character as the cleaning leaves it: wanted, and a plain space if it
    is white space. *)
Definition kept_char (c : ascii) : Prop :=
  wanted_char c = true /\ (isspace c = true -> c = space).

(** A string that has been through the cleaning. *)
Definition cleaned (v : str) : Prop := Forall kept_char v.

(** The rule of each field beyond the cleaning. *)
Definition rule (f : field) (v : str) : Prop :=
  match f with
  | name => List.length v <= 50
  | roll_number => roll_valid v
  | issue_year =>
      List.length v = 4 /\ Forall (fun c => isdigit c = true) v
      /\ (1950 <= int v <= 2030)%Z
  | _ => True
  end.

(** What a stored value has passed: the cleaning and the rule of its
    field. *)
Definition valid (f : field) (v : str) : Prop := cleaned v /\ rule f v.

(** [d.get(f)] *)
Fixpoint lookup (f : field) (d : list (field * str)) : option str :=
  match d with
  | [] => None
  | (g, v) :: d' => if field_eqb g f then Some v else lookup f d'
  end.

Fixpoint starts_with (p s : str) : bool :=
  match p, s with
  | [], _ => true
  | a :: p', b :: s' => Ascii.eqb a b && starts_with p' s'
  | _ :: _, [] => false
  end.

(** [needle in hay] *)
Fixpoint contains (needle hay : str) : bool :=
  starts_with needle hay
  || match hay with [] => false | _ :: hay' => contains needle hay' end.

Definition certificate_text : str :=
  txt "This is to certify that John Smith has completed Bachelor of Science in Physics in the year 2015 from ABC University".

(** The rule a pattern is passed over by: it does not match, or its
    candidate is cleaned to the empty string. *)
Definition passed_over (f : field) (t : str) (pattern : string) : Prop :=
  search pattern t IM = None
  \/ exists m g,
       search pattern t IM = Some m /\ group m 1 = Some g
       /\ _clean_extracted_value (strip g) f = [].

(** The rule a pattern is accepted by, with the value [v]. *)
Definition accepted_with (f : field) (t : str) (pattern : string) (v : str)
    : Prop :=
  exists m g,
    search pattern t IM = Some m /\ group m 1 = Some g
    /\ v = _clean_extracted_value (strip g) f /\ v <> [].

(** The rule a field gets the value [v] by: one of its patterns is accepted
    with [v], every pattern declared before it being passed over. *)
Definition first_accepted_with (f : field) (t : str) (v : str) : Prop :=
  exists before pattern after,
    patterns f = (before ++ pattern :: after)%list
    /\ Forall (passed_over f t) before
    /\ accepted_with f t pattern v.

(** [sep.join(parts)] *)
Fixpoint join (sep : str) (parts : list str) : str :=
  match parts with
  | [] => []
  | [p] => p
  | p :: parts' => (p ++ sep ++ join sep parts')%list
  end.

(** Every page text followed by a newline, in page order: the
    [full_text] the loops build. *)
Definition page_lines (texts : list str) : str :=
  List.concat (map (fun t => (t ++ [newline])%list) texts).

(** A page with a text layer. *)
Definition text_page (t : str) : fitz_page :=
  {| get_text := Ok t; get_pixmap_png := Ok [] |}.

(** A scanned page: no text layer, a picture. *)
Definition scanned_page (png : bytes) : fitz_page :=
  {| get_text := Ok []; get_pixmap_png := Ok png |}.

Definition document : path := ("uploads", "doc.pdf").
Definition photo : path := ("uploads", "photo.tiff").

Definition disk (p : path) (data : bytes) : files :=
  fun q => if path_eqb q p then Some data else None.

(** Two page texts, as PyMuPDF returns them: with a newline at the end. *)
Definition hello : str := (txt "Hello" ++ [newline])%list.
Definition world : str := (txt "World" ++ [newline])%list.

(** Division without rounding. *)
Definition exact_div (total : Q) (count : nat) : Q :=
  (total / inject_Z (Z.of_nat count))%Q.

(** Four settings of the libraries; rasters and pictures are numbers, 0
    being the empty array, and the arithmetic is exact. *)

(** A born-digital document of two pages. *)
Definition born_digital : libraries nat nat :=
  {| np_empty := 0;
     np_array := fun img => img;
     cv2_imread := fun _ => Ok None;
     Image_open := fun _ => Raise (LibraryError 1);
     cv2_cvtColor := fun img _ => Ok img;
     cv2_fastNlMeansDenoising := fun img => Ok img;
     cv2_adaptiveThreshold := fun img _ _ _ _ _ => Ok img;
     reader_readtext := fun _ => Ok [];
     fitz_open := fun _ => Ok [text_page hello; text_page world];
     PdfReader := fun _ => Ok [Ok hello; Ok world];
     float_add := Qplus;
     float_div := exact_div |}.

(** A file PyMuPDF cannot open and PyPDF2 can. *)
Definition fitz_fails : libraries nat nat :=
  {| np_empty := 0;
     np_array := fun img => img;
     cv2_imread := fun _ => Ok None;
     Image_open := fun _ => Raise (LibraryError 1);
     cv2_cvtColor := fun img _ => Ok img;
     cv2_fastNlMeansDenoising := fun img => Ok img;
     cv2_adaptiveThreshold := fun img _ _ _ _ _ => Ok img;
     reader_readtext := fun _ => Ok [];
     fitz_open := fun _ => Raise (LibraryError 2);
     PdfReader := fun _ => Ok [Ok hello; Ok world];
     float_add := Qplus;
     float_div := exact_div |}.

(** A picture OpenCV cannot decode and Pillow can (as raster 7), on which
    denoising fails. *)
Definition pillow_only : libraries nat nat :=
  {| np_empty := 0;
     np_array := fun img => img;
     cv2_imread := fun _ => Ok None;
     Image_open := fun _ => Ok 7;
     cv2_cvtColor := fun img _ => Ok img;
     cv2_fastNlMeansDenoising := fun _ => Raise (LibraryError 3);
     cv2_adaptiveThreshold := fun img _ _ _ _ _ => Ok img;
     reader_readtext := fun _ => Ok [];
     fitz_open := fun _ => Ok [];
     PdfReader := fun _ => Ok [];
     float_add := Qplus;
     float_div := exact_div |}.

(** A scanned document of one page on which the recognition fails. *)
Definition ocr_fails : libraries nat nat :=
  {| np_empty := 0;
     np_array := fun img => img;
     cv2_imread := fun _ => Ok (Some 1);
     Image_open := fun _ => Ok 1;
     cv2_cvtColor := fun img _ => Ok img;
     cv2_fastNlMeansDenoising := fun img => Ok img;
     cv2_adaptiveThreshold := fun img _ _ _ _ _ => Ok img;
     reader_readtext := fun _ => Raise (LibraryError 4);
     fitz_open := fun _ => Ok [scanned_page (txt "png")];
     PdfReader := fun _ => Ok [Ok []];
     float_add := Qplus;
     float_div := exact_div |}.

(** ** Notions for the properties of the whole service *)

(** A letter of [[a-zA-Z]]. *)
Definition isletter (c : ascii) : bool := between 65 90 c || between 97 122 c.

(** No letter occurs in [s]. *)
Definition no_letter (s : str) : Prop := Forall (fun c => isletter c = false) s.

(** Every way through [r] goes through a literal letter. *)
Fixpoint demands_letter (r : regex) : bool :=
  match r with
  | Lit c => isletter c
  | Seq r1 r2 => demands_letter r1 || demands_letter r2
  | Alt r1 r2 => demands_letter r1 && demands_letter r2
  | Rep _ lo _ r1 => (1 <=? lo)%nat && demands_letter r1
  | Grp _ r1 => demands_letter r1
  | _ => false
  end.

(** What the second step of [_post_process_fields] leaves in slot [f] of
    [c]: the degree is split where [in] or [of] is followed by white
    space. *)
Definition split_degree (c : ExtractedCredential) (f : field) : option str :=
  match c degree with
  | Some deg =>
      if truthy deg && falsy (c specialization) then
        match search "(?:in|of)\s+([a-zA-Z\s\&\(\)]+)" deg I with
        | Some spec_match =>
            match group spec_match 1 with
            | Some g =>
                if field_eqb f degree
                then Some (strip (sub "(?:in|of)\s+[a-zA-Z\s\&\(\)]+" [] deg I))
                else if field_eqb f specialization then Some (strip g)
                else c f
            | None => c f
            end
        | None => c f
        end
      else c f
  | None => c f
  end.

(** The third name pattern, compiled. *)
Definition honorific_ast : regex :=
  Alt (Seq (Lit "m") (Seq (Lit "r") (Lit ".")))
    (Alt (Seq (Lit "m") (Seq (Lit "s") (Lit ".")))
       (Seq (Lit "m")
          (Seq (Lit "i")
             (Seq (Lit "s")
                (Seq (Lit "s")
                   (Seq (Rep true 1 None (Cls false [CSpace]))
                      (Grp 1
                         (Rep true 1 None
                            (Cls false
                               [CRange "a" "z"; CRange "A" "Z"; CSpace;
                                CChar "."]))))))))).

(** A character the cleaning leaves where it is. *)
Definition plain_char (c : ascii) : bool := negb (isspace c) && wanted_char c.

(** The 256 characters. *)
Definition all_chars : list ascii := map ascii_of_nat (seq 0 256).

(** Every character [r] can take satisfies [ok]. *)
Fixpoint takes_only (fl : flags) (ok : ascii -> bool) (r : regex) : bool :=
  match r with
  | Eps | Bol | Eol => true
  | Lit c => forallb (fun x => implb (lit_matches fl c x) (ok x)) all_chars
  | Any => forallb (fun x => implb (negb (Ascii.eqb x newline)) (ok x)) all_chars
  | Cls neg items =>
      forallb (fun x => implb (cls_matches fl neg items x) (ok x)) all_chars
  | Seq r1 r2 | Alt r1 r2 => takes_only fl ok r1 && takes_only fl ok r2
  | Rep _ _ _ r1 | Grp _ r1 => takes_only fl ok r1
  end.

(** Group [n] of [r] can take characters that satisfy [ok] only. *)
Fixpoint group_takes_only (fl : flags) (n : nat) (ok : ascii -> bool)
    (r : regex) : bool :=
  match r with
  | Grp m r1 =>
      if (m =? n)%nat then takes_only fl ok r1
      else group_takes_only fl n ok r1
  | Seq r1 r2 | Alt r1 r2 =>
      group_takes_only fl n ok r1 && group_takes_only fl n ok r2
  | Rep _ _ _ r1 => group_takes_only fl n ok r1
  | _ => true
  end.

(** The cursor is one of the string [s]. *)
Definition cursor_of (s : str) (cu : cursor) : Prop :=
  rest cu = skipn (pos cu) s.

(** Group [n], when it is set, spans characters of [s] that satisfy [ok]. *)
Definition span_ok (s : str) (n : nat) (ok : ascii -> bool) (cs : caps) : Prop :=
  forall a b, cap n cs = Some (a, b) ->
              Forall (fun c => ok c = true) (slice s a b).

(** What a run of [exec] that gave [o] went through: the continuation was
    called [n] characters further on, all of them fit when the expression
    takes no others ([r_takes]), with group [g] in order if it was so
    before and the expression keeps it so ([r_keeps]). *)
Definition went_through (s : str) (g : nat) (ok : ascii -> bool)
    (r_takes r_keeps : bool) (k : cont) (cu : cursor) (cs : caps)
    (o : outcome) : Prop :=
  exists n cs',
    (n <= List.length (rest cu))%nat
    /\ k (forward n cu) cs' = Some o
    /\ (r_takes = true -> Forall (fun c => ok c = true) (firstn n (rest cu)))
    /\ (r_keeps = true -> span_ok s g ok cs -> span_ok s g ok cs').

(** The number of characters [r] takes, when every match of it takes as
    many. *)
Fixpoint width (r : regex) : option nat :=
  match r with
  | Eps | Bol | Eol => Some 0
  | Lit _ | Any | Cls _ _ => Some 1
  | Seq r1 r2 =>
      match width r1, width r2 with
      | Some a, Some b => Some (a + b)%nat
      | _, _ => None
      end
  | Alt r1 r2 =>
      match width r1, width r2 with
      | Some a, Some b => if (a =? b)%nat then Some a else None
      | _, _ => None
      end
  | Rep _ lo (Some hi) r1 =>
      match width r1 with
      | Some a => if (lo =? hi)%nat then Some (a * hi)%nat else None
      | None => None
      end
  | Rep _ _ None _ => None
  | Grp _ r1 => width r1
  end.

(** Group [n] of [r] takes [w] characters whenever it takes part. *)
Fixpoint group_width (n w : nat) (r : regex) : bool :=
  match r with
  | Grp m r1 =>
      if (m =? n)%nat
      then match width r1 with Some a => (a =? w)%nat | None => false end
      else group_width n w r1
  | Seq r1 r2 | Alt r1 r2 => group_width n w r1 && group_width n w r2
  | Rep _ _ _ r1 => group_width n w r1
  | _ => true
  end.

(** Group [n], when it is set, spans [w] characters of [s]. *)
Definition span_wide (s : str) (n w : nat) (cs : caps) : Prop :=
  forall a b, cap n cs = Some (a, b) -> List.length (slice s a b) = w.

(** What a run of [exec] that gave [o] went through, by the count: the
    continuation was called [n] characters further on, [n] being the width
    of the expression when it has one ([r_width]), with group [g] of width
    [w] if it was so before and the expression keeps it so ([r_keeps]). *)
Definition went_wide (s : str) (g w : nat) (r_width : option nat)
    (r_keeps : bool) (k : cont) (cu : cursor) (cs : caps) (o : outcome)
    : Prop :=
  exists n cs',
    (n <= List.length (rest cu))%nat
    /\ k (forward n cu) cs' = Some o
    /\ (forall a, r_width = Some a -> n = a)
    /\ (r_keeps = true -> span_wide s g w cs -> span_wide s g w cs').

Definition text_of (d : detection) : str := snd (fst d).
Definition confidence_of (d : detection) : Q := snd d.

(** What a page contributes to the text of a document: its text layer,
    with confidence 0.95, or, when that is blank, what the recognition makes
    of its picture. *)
Definition page_outcome {raster pil_image : Type}
    (lib : libraries raster pil_image) (page : fitz_page) : result (str * Q) :=
  text <- get_text page ;;
  if truthy (strip text) then Ok (text, 0.95%Q)
  else
    png <- get_pixmap_png page ;;
    _ocr_image lib (disk photo png) photo.

(** A confidence: a number from 0 to 1. *)
Definition unit_interval (q : Q) : Prop := (0 <= q /\ q <= 1)%Q.

(** What the rounding of the arithmetic keeps, [bound k] being the float
    that the count [k] is: a sum of [k] numbers from 0 to 1 lies between 0
    and [bound k], and its quotient by [k] between 0 and 1. *)
Definition rounds_within {raster pil_image : Type}
    (lib : libraries raster pil_image) (bound : nat -> Q) : Prop :=
  (0 <= bound 0%nat)%Q
  /\ (forall total c k,
        (0 <= total)%Q -> (total <= bound k)%Q -> unit_interval c ->
        (0 <= float_add lib total c)%Q
        /\ (float_add lib total c <= bound (S k))%Q)
  /\ (forall total k,
        (0 <= total)%Q -> (total <= bound (S k))%Q ->
        unit_interval (float_div lib total (S k))).

(** The test of [extract_credentials] on the suffix. *)
Definition is_pdf (file_path : path) : bool :=
  Pathlib.str_eqb (lower (suffix file_path)) (txt ".pdf").

(** What [extract_credentials] has as text and confidence. *)
Definition extracted {raster pil_image : Type}
    (lib : libraries raster pil_image) (file_path : path) (fs : files)
    : result (str * Q) :=
  if is_pdf file_path then fst (_extract_from_pdf lib file_path fs)
  else _extract_from_image lib fs file_path.

(** A document of a page with a text layer and a scanned page, and a
    reader that finds two pieces of text in every picture. *)
Definition mixed : libraries nat nat :=
  {| np_empty := 0;
     np_array := fun img => img;
     cv2_imread := fun _ => Ok (Some 1);
     Image_open := fun _ => Ok 1;
     cv2_cvtColor := fun img _ => Ok img;
     cv2_fastNlMeansDenoising := fun img => Ok img;
     cv2_adaptiveThreshold := fun img _ _ _ _ _ => Ok img;
     reader_readtext :=
       fun _ => Ok [([], txt "Roll No:", 0.9%Q); ([], txt "CS/42", 0.5%Q)];
     fitz_open := fun _ => Ok [text_page hello; scanned_page (txt "png")];
     PdfReader := fun _ => Ok [Ok hello; Ok []];
     float_add := Qplus;
     float_div := exact_div |}.

(** What the reader of [mixed] finds, and how sure it is. *)
Definition roll_text : str := txt "Roll No: CS/42".
Definition roll_confidence : Q :=
  average mixed (float_add mixed (float_add mixed 0 0.9) 0.5)%Q 2.

(** The document on disk, next to a file that has the name of the image of
    its second page. *)
Definition with_old_page : files :=
  write (disk document (txt "pdf")) (temp_page document 1) (txt "old").

(** No two rows have the same [file_id]; there is no constraint as long as
    there is no table. *)
Definition unique_ids (db : Database.database) : Prop :=
  match db with
  | Some rows => NoDup (map Database.Row.file_id rows)
  | None => True
  end.

(** The entry the queries build from an extraction that was saved. *)
Definition entry_of (extraction : Models.CredentialExtraction)
    : Database.Entry.t :=
  {| Database.Entry.file_id := Models.file_id extraction;
     Database.Entry.original_filename := Models.original_filename extraction;
     Database.Entry.file_path := Models.file_path extraction;
     Database.Entry.extracted_data := Models.extracted_data extraction;
     Database.Entry.extraction_timestamp :=
       Datetime.isoformat " " (Models.extraction_timestamp extraction) |}.

(** [a] does not come before [b] in the order of the texts of their time
    stamps. *)
Definition row_not_before (a b : Database.Row.t) : Prop :=
  Database.text_ltb (Database.Row.extraction_timestamp a)
    (Database.Row.extraction_timestamp b) = false.

Definition not_before (a b : Database.Entry.t) : Prop :=
  Database.text_ltb (Database.Entry.extraction_timestamp a)
    (Database.Entry.extraction_timestamp b) = false.

(** A stand-in for [json]: a dict is written entry by entry, every text
    with its length in front of it ([3:abc]); a string follows an [s], a
    number an [f], as its numerator and its denominator. *)
Definition framed (s : str) : str :=
  (str_of_int (Z.of_nat (List.length s)) ++ ":"%char :: s)%list.

Definition unframed (s : str) : option (str * str) :=
  let (n, s1) := p_nat s 0 in
  match s1 with
  | ":"%char :: s2 =>
      if (List.length s2 <? n)%nat then None
      else Some (firstn n s2, skipn n s2)
  | _ => None
  end.

Definition plain_dumps (d : dict) : str :=
  flat_map
    (fun kv =>
       (framed (list_ascii_of_string (fst kv))
        ++ match snd kv with
           | Str s => "s"%char :: framed s
           | Float q =>
               "f"%char
               :: framed ((if (Qnum q <? 0)%Z then ["-"%char] else [])
                          ++ str_of_int (Z.abs (Qnum q)))
               ++ framed (str_of_int (Zpos (Qden q)))
           end)%list) d.

Fixpoint plain_loads_from (fuel : nat) (s : str) : option dict :=
  match fuel, s with
  | _, [] => Some []
  | O, _ :: _ => None
  | S fuel', _ :: _ =>
      match unframed s with
      | Some (k, tag :: s1) =>
          if Ascii.eqb tag "s" then
            match unframed s1 with
            | Some (v, s2) =>
                option_map (cons (string_of_list_ascii k, Str v))
                  (plain_loads_from fuel' s2)
            | None => None
            end
          else
            match unframed s1 with
            | Some (num, s2) =>
                match unframed s2 with
                | Some (den, s3) =>
                    let n :=
                      match num with
                      | "-"%char :: digits => (- int digits)%Z
                      | _ => int num
                      end in
                    option_map
                      (cons (string_of_list_ascii k,
                             Float (n # Z.to_pos (int den))))
                      (plain_loads_from fuel' s3)
                | None => None
                end
            | None => None
            end
      | _ => None
      end
  end.

Definition plain_json : Database.json :=
  {| Database.dumps := plain_dumps;
     Database.loads :=
       fun s =>
         match plain_loads_from (List.length s) s with
         | Some d => Ok d
         | None => Raise (LibraryError 5)
         end |}.

Definition noon : Datetime.datetime :=
  {| Datetime.year := 2024; Datetime.month := 5; Datetime.day := 17;
     Datetime.hour := 12; Datetime.minute := 0; Datetime.second := 0;
     Datetime.microsecond := 0 |}.

(** The dict of an extraction that found a roll number. *)
Definition roll_data : dict :=
  (as_dict [(roll_number, txt "cs/42")]
   ++ [("raw_text", Str roll_text);
       ("confidence_score", Float roll_confidence)])%list.

Definition first_extraction : Models.CredentialExtraction :=
  {| Models.file_id := "id-1";
     Models.original_filename := "Scan.JPG";
     Models.file_path := "../uploads/id-1.jpg";
     Models.extracted_data := roll_data;
     Models.extraction_timestamp := noon |}.

Definition first_row : Database.Row.t :=
  {| Database.Row.file_id := "id-1";
     Database.Row.original_filename := "Scan.JPG";
     Database.Row.file_path := "../uploads/id-1.jpg";
     Database.Row.extracted_data_json := plain_dumps roll_data;
     Database.Row.extraction_timestamp := txt "2024-05-17 12:00:00" |}.

(** Where [extract_text] stores an upload. *)
Definition upload_path (uuid4 file_name : string) : path :=
  (Main.UPLOAD_DIR,
   uuid4 ++ string_of_list_ascii (Main.file_extension_of file_name)).

(** An upload of a picture. *)
Definition scan_jpg : Main.UploadFile :=
  {| Main.filename := Some "Scan.JPG"; Main.file := txt "jpg" |}.

(** A disk without files. *)
Definition empty_disk : files := fun _ => None.

(** A [JSONResponse] that renders every answer, and one that renders
    none. *)
Definition renders (c : Main.content) : result unit := Ok tt.


(** The character of a decimal digit. *)
Definition digit_char (q : nat) : ascii := ascii_of_nat (48 + q)%nat.

(** The digit [q] in front of the digits [l]. *)
Definition digit_cons (q : nat) (l : Decimal.uint) : Decimal.uint :=
  match q with
  | 0 => Decimal.D0 l
  | 1 => Decimal.D1 l
  | 2 => Decimal.D2 l
  | 3 => Decimal.D3 l
  | 4 => Decimal.D4 l
  | 5 => Decimal.D5 l
  | 6 => Decimal.D6 l
  | 7 => Decimal.D7 l
  | 8 => Decimal.D8 l
  | _ => Decimal.D9 l
  end.

(** The [width] last decimal digits of [n], the first one first, as a
    number of [Decimal] and as text. *)
Fixpoint fixed_uint (width n : nat) : Decimal.uint :=
  match width with
  | 0 => Decimal.Nil
  | S w => digit_cons (n / 10 ^ w)%nat (fixed_uint w (n mod 10 ^ w)%nat)
  end.

Fixpoint fixed_width (width n : nat) : str :=
  match width with
  | 0 => []
  | S w => digit_char (n / 10 ^ w)%nat :: fixed_width w (n mod 10 ^ w)%nat
  end.

(** The digits of a number of [Decimal] as text. *)
Definition chars (d : Decimal.uint) : str :=
  list_ascii_of_string (DecimalString.NilEmpty.string_of_uint d).

(** The order of two lists of numbers: by the first place in which they
    differ. *)
Fixpoint lex_ltb (a b : list nat) : bool :=
  match a, b with
  | x :: a', y :: b' => (x <? y)%nat || ((x =? y)%nat && lex_ltb a' b')
  | _, _ => false
  end.

(** The fields of a time stamp, the greatest unit first. *)
Definition fields_of (t : Datetime.datetime) : list nat :=
  [Datetime.year t; Datetime.month t; Datetime.day t; Datetime.hour t;
   Datetime.minute t; Datetime.second t; Datetime.microsecond t].

(** [a < b] on two values of [datetime]. *)
Definition earlier (a b : Datetime.datetime) : bool :=
  lex_ltb (fields_of a) (fields_of b).

(** The ranges the constructor of [datetime] checks. *)
Definition in_calendar (t : Datetime.datetime) : Prop :=
  (1 <= Datetime.year t < 10 ^ 4
   /\ 1 <= Datetime.month t <= 12
   /\ 1 <= Datetime.day t <= 31
   /\ Datetime.hour t <= 23
   /\ Datetime.minute t <= 59
   /\ Datetime.second t <= 59
   /\ Datetime.microsecond t < 10 ^ 6)%nat.

(** A quarter of a millisecond past one o'clock. *)
Definition past_one : Datetime.datetime :=
  {| Datetime.year := 2024; Datetime.month := 5; Datetime.day := 17;
     Datetime.hour := 13; Datetime.minute := 0; Datetime.second := 0;
     Datetime.microsecond := 250 |}.

(** A second extraction, of that time, and its row. *)
Definition second_extraction : Models.CredentialExtraction :=
  {| Models.file_id := "id-2";
     Models.original_filename := "doc.pdf";
     Models.file_path := "../uploads/id-2.pdf";
     Models.extracted_data := [("raw_text", Str hello)];
     Models.extraction_timestamp := past_one |}.

Definition second_row : Database.Row.t :=
  {| Database.Row.file_id := "id-2";
     Database.Row.original_filename := "doc.pdf";
     Database.Row.file_path := "../uploads/id-2.pdf";
     Database.Row.extracted_data_json := plain_dumps [("raw_text", Str hello)];
     Database.Row.extraction_timestamp := txt "2024-05-17 13:00:00.000250" |}.

End Spec.

(** * Facts about strings and the matcher *)

Module PyFacts.
Import Py Spec.

Lemma lower_char_not_upper (c : ascii) : isupper (lower_char c) = false.
Proof. destruct c as [[] [] [] [] [] [] [] []]; reflexivity. Qed.

Lemma lower_no_upper (s : str) : no_upper (lower s).
Proof.
  unfold no_upper, lower.
  induction s as [|c s IH]; simpl; constructor; auto using lower_char_not_upper.
Qed.

Section Keep.
Variable P : ascii -> Prop.

Lemma Forall_firstn (n : nat) (s : str) : Forall P s -> Forall P (firstn n s).
Proof.
  intros H. revert n.
  induction H as [|c s Hc Hs IH]; intros [|n]; simpl; auto.
Qed.

Lemma Forall_skipn (n : nat) (s : str) : Forall P s -> Forall P (skipn n s).
Proof.
  intros H. revert n.
  induction H as [|c s Hc Hs IH]; intros [|n]; simpl; auto.
Qed.

Lemma Forall_lstrip (s : str) : Forall P s -> Forall P (lstrip s).
Proof.
  induction 1 as [|c s Hc Hs IH]; simpl; [constructor|].
  destruct (isspace c); auto.
Qed.

Lemma Forall_rstrip (s : str) : Forall P s -> Forall P (rstrip s).
Proof.
  intros H. unfold rstrip. apply Forall_rev, Forall_lstrip, Forall_rev, H.
Qed.

Lemma Forall_strip (s : str) : Forall P s -> Forall P (strip s).
Proof. intros H. apply Forall_rstrip, Forall_lstrip, H. Qed.

Lemma Forall_slice (s : str) (a b : nat) : Forall P s -> Forall P (slice s a b).
Proof.
  intros H. unfold slice. apply Forall_firstn, Forall_skipn, H.
Qed.
End Keep.

Lemma uint_digits (d : Decimal.uint) :
  Forall (fun c => isdigit c = true)
    (list_ascii_of_string (DecimalString.NilEmpty.string_of_uint d)).
Proof.
  induction d; simpl; constructor; auto.
Qed.

Lemma str_of_int_digits (z : Z) : Forall (fun c => isdigit c = true) (str_of_int z).
Proof. apply uint_digits. Qed.


End PyFacts.

Module ReFacts.
Import Py Re Spec.

Section Sub.
Variables (P : ascii -> Prop) (fl : flags) (r : regex) (repl : str).
Hypothesis Hrepl : Forall P repl.

Lemma sub_go_keeps :
  forall xs skip p pv, Forall P xs -> Forall P (sub_go fl r repl skip p pv xs).
Proof.
  induction xs as [|x xs IH]; intros skip p pv H.
  - destruct skip; simpl; auto.
    destruct (match_at fl r _) as [[e cs]|]; auto.
  - inversion H as [|? ? Hx Hxs]; subst.
    destruct skip as [|n]; simpl; auto.
    destruct (match_at fl r _) as [[e cs]|].
    + destruct (p <? e); apply Forall_app; split; auto.
    + constructor; auto.
Qed.

Lemma sub_re_keeps (s : str) : Forall P s -> Forall P (sub_re fl r repl s).
Proof. apply sub_go_keeps. Qed.
End Sub.

Lemma forward_pos (n : nat) : forall cu, pos cu <= pos (forward n cu).
Proof.
  induction n as [|n IH]; intros cu; simpl; auto.
  destruct (rest cu) as [|x xs]; auto.
  specialize (IH (step x xs cu)). simpl in IH. lia.
Qed.

Lemma forward_rest (n : nat) :
  forall cu, n <= List.length (rest cu) -> rest (forward n cu) = skipn n (rest cu).
Proof.
  induction n as [|n IH]; intros cu H; simpl; auto.
  destruct (rest cu) as [|x xs] eqn:E; simpl in H; [lia|].
  rewrite IH; simpl; auto. lia.
Qed.

Section RepOne.
Variables (body : cont -> cont) (ok : ascii -> bool).
Hypothesis Hbody : forall k cu cs, body k cu cs = one ok k cu cs.
Variables (lo : nat) (hi : option nat) (k : cont).

Lemma rep_one_step (f cnt : nat) (cu : cursor) (cs : caps) :
  rep_loop body true lo hi k (S f) cnt cu cs =
  match rest cu with
  | x :: xs =>
      if below cnt hi && ok x then
        match rep_loop body true lo hi k f (S cnt) (step x xs cu) cs with
        | Some o => Some o
        | None => if lo <=? cnt then k cu cs else None
        end
      else if lo <=? cnt then k cu cs else None
  | [] => if lo <=? cnt then k cu cs else None
  end.
Proof.
  simpl. rewrite Hbody. unfold one.
  destruct (rest cu) as [|x xs]; destruct (below cnt hi); simpl; auto.
  destruct (ok x); auto.
  rewrite (proj2 (Nat.ltb_lt _ _) (Nat.lt_succ_diag_r _)). reflexivity.
Qed.

Lemma rep_at_bound (g : bool) (f h : nat) (cu : cursor) (cs : caps) :
  hi = Some h ->
  rep_loop body g lo hi k f h cu cs = if lo <=? h then k cu cs else None.
Proof.
  intros ->. destruct f as [|f]; simpl; auto.
  rewrite Nat.ltb_irrefl. destruct g; destruct (lo <=? h); auto.
  destruct (k cu cs); auto.
Qed.

Lemma rep_one_sound (g : bool) :
  forall fuel cnt cu cs o,
    rep_loop body g lo hi k fuel cnt cu cs = Some o ->
    exists n,
      n <= List.length (rest cu)
      /\ Forall (fun c => ok c = true) (firstn n (rest cu))
      /\ lo <= cnt + n
      /\ (forall h, hi = Some h -> cnt <= h -> cnt + n <= h)
      /\ k (forward n cu) cs = Some o.
Proof.
  assert (Stop : forall cnt cu cs o,
             (if lo <=? cnt then k cu cs else None) = Some o ->
             exists n,
               n <= List.length (rest cu)
               /\ Forall (fun c => ok c = true) (firstn n (rest cu))
               /\ lo <= cnt + n
               /\ (forall h, hi = Some h -> cnt <= h -> cnt + n <= h)
               /\ k (forward n cu) cs = Some o).
  { intros cnt cu cs o H. destruct (lo <=? cnt) eqn:E; [|discriminate].
    apply Nat.leb_le in E. exists 0. simpl.
    repeat split; auto; try lia. }
  induction fuel as [|f IH]; intros cnt cu cs o H; simpl in H; auto.
  assert (Again : forall o',
             (if below cnt hi
              then body (fun cu' cs' =>
                           if pos cu <? pos cu'
                           then rep_loop body g lo hi k f (S cnt) cu' cs'
                           else None) cu cs
              else None) = Some o' ->
             exists n,
               n <= List.length (rest cu)
               /\ Forall (fun c => ok c = true) (firstn n (rest cu))
               /\ lo <= cnt + n
               /\ (forall h, hi = Some h -> cnt <= h -> cnt + n <= h)
               /\ k (forward n cu) cs = Some o').
  { intros o' A. destruct (below cnt hi) eqn:B; [|discriminate].
    rewrite Hbody in A. unfold one in A.
    destruct (rest cu) as [|x xs] eqn:R; [discriminate|].
    destruct (ok x) eqn:X; [|discriminate].
    destruct (pos cu <? pos (step x xs cu)); [|discriminate].
    apply IH in A. destruct A as (n & Hn & Hok & Hlo & Hhi & Hk).
    exists (S n). simpl in *. rewrite R.
    repeat split; auto; try lia.
    intros h -> Hc. simpl in B. apply Nat.ltb_lt in B.
    specialize (Hhi h eq_refl). lia. }
  destruct g.
  - destruct (if below cnt hi then _ else None) as [o'|] eqn:A.
    + inversion H; subst. apply Again. reflexivity.
    + apply Stop, H.
  - destruct (if lo <=? cnt then k cu cs else None) as [o'|] eqn:S0.
    + inversion H; subst. apply Stop, S0.
    + apply Again, H.
Qed.

Lemma rep_can_stop (g : bool) (fuel cnt : nat) (cu : cursor) (cs : caps) (o : outcome) :
  lo <= cnt -> k cu cs = Some o ->
  exists o', rep_loop body g lo hi k fuel cnt cu cs = Some o'.
Proof.
  intros Hlo Hk. apply Nat.leb_le in Hlo.
  destruct fuel as [|f]; simpl; rewrite Hlo, Hk; eauto.
  destruct g; eauto.
  destruct (if below cnt hi then _ else None); eauto.
Qed.

End RepOne.

(** *** What the matcher looks at, and its fuel *)

Section Forward.
Variable fl : flags.

Lemma forward_forward (n m : nat) :
  forall cu, n <= List.length (rest cu) ->
             forward m (forward n cu) = forward (n + m) cu.
Proof.
  induction n as [|n IH]; intros cu H; simpl; auto.
  destruct (rest cu) as [|x xs] eqn:E; simpl in H; [lia|].
  apply IH. simpl. lia.
Qed.

Lemma forward_pos_exact (n : nat) :
  forall cu, n <= List.length (rest cu) -> pos (forward n cu) = pos cu + n.
Proof.
  induction n as [|n IH]; intros cu H; simpl; [lia|].
  destruct (rest cu) as [|x xs] eqn:E; simpl in H; [lia|].
  rewrite IH; simpl; lia.
Qed.

Lemma forward_length (n : nat) (cu : cursor) :
  n <= List.length (rest cu) ->
  List.length (rest (forward n cu)) = List.length (rest cu) - n.
Proof.
  intros H. rewrite forward_rest by exact H. apply length_skipn.
Qed.

(** The loop of a repeat looks at its continuation from the cursor on only,
    given a body that does so. *)
Lemma rep_loop_ext (body : cont -> cont) (least : nat) (g : bool) (lo : nat)
    (hi : option nat) (k k' : cont) :
  (forall k1 k2 cu cs, agree_from least cu k1 k2 -> body k1 cu cs = body k2 cu cs) ->
  forall fuel cnt cu cs,
    agree_from (if cnt <? lo then 1 else 0) cu k k' ->
    rep_loop body g lo hi k fuel cnt cu cs = rep_loop body g lo hi k' fuel cnt cu cs.
Proof.
  intros Hbody. induction fuel as [|f IH]; intros cnt cu cs A.
  - simpl. destruct (lo <=? cnt) eqn:E; auto.
    apply Nat.leb_le in E. apply (A 0 cs); [lia|].
    destruct (cnt <? lo) eqn:L; [apply Nat.ltb_lt in L|]; lia.
  - assert (Stop : (if lo <=? cnt then k cu cs else None)
                   = (if lo <=? cnt then k' cu cs else None)).
    { destruct (lo <=? cnt) eqn:E; auto.
      apply Nat.leb_le in E. apply (A 0 cs); [lia|].
      destruct (cnt <? lo) eqn:L; [apply Nat.ltb_lt in L|]; lia. }
    assert (Again :
              body (fun cu' cs' =>
                      if pos cu <? pos cu'
                      then rep_loop body g lo hi k f (S cnt) cu' cs' else None)
                cu cs
              = body (fun cu' cs' =>
                        if pos cu <? pos cu'
                        then rep_loop body g lo hi k' f (S cnt) cu' cs' else None)
                  cu cs).
    { apply Hbody. intros n cs' Hn _. cbv beta.
      rewrite forward_pos_exact by exact Hn.
      destruct (pos cu <? pos cu + n) eqn:P; auto.
      apply Nat.ltb_lt in P. apply IH.
      intros m cs'' Hm Hl. rewrite forward_forward by exact Hn.
      rewrite forward_length in Hm by exact Hn.
      apply A; [lia|]. destruct (cnt <? lo); lia. }
    simpl. rewrite Stop, Again. reflexivity.
Qed.

(** [exec] looks at its continuation from the cursor on only, and not at
    the cursor itself when [r] cannot match the empty string. *)
Lemma exec_ext (r : regex) :
  forall k k' cu cs,
    agree_from (least_of r) cu k k' -> exec fl r k cu cs = exec fl r k' cu cs.
Proof.
  assert (One : forall ok k k' cu cs,
             agree_from 1 cu k k' -> one ok k cu cs = one ok k' cu cs).
  { intros ok k k' cu cs A. unfold one.
    destruct (rest cu) as [|x xs] eqn:E; auto. destruct (ok x); auto.
    specialize (A 1 cs). simpl in A. rewrite E in A. apply A; simpl; lia. }
  assert (Here : forall k k' cu cs, agree_from 0 cu k k' -> k cu cs = k' cu cs).
  { intros k k' cu cs A. apply (A 0 cs); lia. }
  induction r as [|c| |neg items| | |r1 IH1 r2 IH2|r1 IH1 r2 IH2
                  |g lo hi r1 IH1|n r1 IH1];
    intros k k' cu cs A; cbn [exec]; unfold least_of in *; cbn [nullable] in *.
  - apply Here, A.
  - apply One, A.
  - apply One, A.
  - apply One, A.
  - rewrite (Here _ _ _ _ A). reflexivity.
  - rewrite (Here _ _ _ _ A). reflexivity.
  - apply IH1. intros n1 cs1 Hn1 L1. apply IH2.
    intros n2 cs2 Hn2 L2. rewrite forward_forward by exact Hn1.
    rewrite forward_length in Hn2 by exact Hn1.
    apply A; [lia|].
    destruct (nullable r1), (nullable r2); simpl in *; lia.
  - rewrite (IH1 k k'), (IH2 k k'); auto.
    + intros n cs' Hn L. apply A; auto.
      destruct (nullable r1), (nullable r2); simpl in *; lia.
    + intros n cs' Hn L. apply A; auto.
      destruct (nullable r1), (nullable r2); simpl in *; lia.
  - apply rep_loop_ext with (least := if nullable r1 then 0 else 1).
    + intros k1 k2 cu0 cs0 A0. apply IH1, A0.
    + intros n cs' Hn L. apply A; auto.
      simpl in L. destruct lo; simpl in *; [lia|].
      destruct (nullable r1); simpl; lia.
  - apply IH1. intros m cs' Hm L. cbv beta. apply A; auto.
Qed.

(** With a continuation that always fails, [exec] fails. *)
Lemma exec_fails (r : regex) :
  forall k cu cs, (forall cu' cs', k cu' cs' = None) -> exec fl r k cu cs = None.
Proof.
  induction r as [|c| |neg items| | |r1 IH1 r2 IH2|r1 IH1 r2 IH2
                  |g lo hi r1 IH1|n r1 IH1];
    intros k cu cs H; cbn [exec]; unfold one.
  - apply H.
  - destruct (rest cu) as [|x xs]; auto. destruct (lit_matches fl c x); auto.
  - destruct (rest cu) as [|x xs]; auto. destruct (negb _); auto.
  - destruct (rest cu) as [|x xs]; auto.
    destruct (cls_matches fl neg items x); auto.
  - destruct (at_bol fl cu); auto.
  - destruct (at_eol fl cu); auto.
  - apply IH1. intros cu' cs'. apply IH2, H.
  - rewrite IH1, IH2; auto.
  - assert (Loop : forall fuel cnt cu0 cs0,
               rep_loop (exec fl r1) g lo hi k fuel cnt cu0 cs0 = None).
    { induction fuel as [|f IHf]; intros cnt cu0 cs0; simpl.
      - rewrite H. destruct (lo <=? cnt); reflexivity.
      - rewrite H, IH1.
        + destruct g, (lo <=? cnt), (below cnt hi); reflexivity.
        + intros cu' cs'. rewrite IHf.
          destruct (pos cu0 <? pos cu'); reflexivity. }
    apply Loop.
  - apply IH1. intros cu' cs'. apply H.
Qed.

(** For an expression that cannot match the empty string the test for
    progress in the loop of a repeat lets every continuation through. *)
Lemma progress_test_idle (r : regex) (k : cont) (cu : cursor) (cs : caps) :
  nullable r = false ->
  exec fl r (fun cu' cs' => if pos cu <? pos cu' then k cu' cs' else None) cu cs
  = exec fl r k cu cs.
Proof.
  intros N. apply exec_ext. unfold least_of. rewrite N.
  intros n cs' Hn L. cbv beta. rewrite forward_pos_exact by exact Hn.
  rewrite (proj2 (Nat.ltb_lt _ _)) by lia. reflexivity.
Qed.

Lemma rep_loop_S (body : cont -> cont) (g : bool) (lo : nat) (hi : option nat)
    (k : cont) (f cnt : nat) (cu : cursor) (cs : caps) :
  rep_loop body g lo hi k (S f) cnt cu cs =
  if g
  then match (if below cnt hi
              then body (fun cu' cs' =>
                           if pos cu <? pos cu'
                           then rep_loop body g lo hi k f (S cnt) cu' cs'
                           else None) cu cs
              else None)
       with
       | Some o => Some o
       | None => if lo <=? cnt then k cu cs else None
       end
  else match (if lo <=? cnt then k cu cs else None) with
       | Some o => Some o
       | None =>
           if below cnt hi
           then body (fun cu' cs' =>
                        if pos cu <? pos cu'
                        then rep_loop body g lo hi k f (S cnt) cu' cs'
                        else None) cu cs
           else None
       end.
Proof. reflexivity. Qed.

(** One unit of fuel more than the characters ahead changes nothing. *)
Lemma rep_loop_fuel_step (r : regex) (g : bool) (lo : nat) (hi : option nat)
    (k : cont) :
  forall fuel cnt cu cs,
    List.length (rest cu) <= fuel ->
    rep_loop (exec fl r) g lo hi k (S fuel) cnt cu cs
    = rep_loop (exec fl r) g lo hi k fuel cnt cu cs.
Proof.
  induction fuel as [|f IH]; intros cnt cu cs H.
  - assert (A : exec fl r
                  (fun cu' cs' =>
                     if pos cu <? pos cu'
                     then rep_loop (exec fl r) g lo hi k 0 (S cnt) cu' cs'
                     else None) cu cs = None).
    { rewrite exec_ext with (k' := fun _ _ => None).
      - apply exec_fails. reflexivity.
      - intros n cs' Hn _. assert (n = 0) by lia. subst n. simpl.
        rewrite Nat.ltb_irrefl. reflexivity. }
    rewrite rep_loop_S, A. cbn [rep_loop].
    destruct g, (below cnt hi), (lo <=? cnt); try reflexivity;
      destruct (k cu cs); reflexivity.
  - assert (A : exec fl r
                  (fun cu' cs' =>
                     if pos cu <? pos cu'
                     then rep_loop (exec fl r) g lo hi k (S f) (S cnt) cu' cs'
                     else None) cu cs
                = exec fl r
                    (fun cu' cs' =>
                       if pos cu <? pos cu'
                       then rep_loop (exec fl r) g lo hi k f (S cnt) cu' cs'
                       else None) cu cs).
    { apply exec_ext. intros n cs' Hn _. cbv beta.
      rewrite forward_pos_exact by exact Hn.
      destruct (pos cu <? pos cu + n) eqn:P; auto.
      apply Nat.ltb_lt in P. apply IH.
      rewrite forward_length by exact Hn. lia. }
    rewrite rep_loop_S, A, <- rep_loop_S. reflexivity.
Qed.

(** The fuel [exec] hands to the loop of a repeat, the number of characters
    ahead, is enough: any more gives the same outcome. *)
Lemma rep_loop_fuel_enough (r : regex) (g : bool) (lo : nat) (hi : option nat)
    (k : cont) (extra cnt : nat) (cu : cursor) (cs : caps) :
  rep_loop (exec fl r) g lo hi k (List.length (rest cu) + extra) cnt cu cs
  = rep_loop (exec fl r) g lo hi k (List.length (rest cu)) cnt cu cs.
Proof.
  induction extra as [|extra IH].
  - rewrite Nat.add_0_r. reflexivity.
  - rewrite Nat.add_succ_r, rep_loop_fuel_step by lia. exact IH.
Qed.

End Forward.

(** Every pattern of the service is in the syntax read by [parse], and none
    of its repeated expressions can match the empty string. *)
Lemma used_patterns_well_formed :
  Forall (fun p => parse p <> None /\ repeats_consume (compile p) = true)
    used_patterns.
Proof.
  unfold used_patterns, OCRService.institution_indicators.
  cbn [flat_map OCRService.pattern_fields OCRService.patterns app].
  repeat (constructor; [split; [discriminate | reflexivity]|]).
  constructor.
Qed.

(** *** Which groups a match has *)

Section Groups.
Variables (fl : flags) (n : nat).

Lemma gives_weaken (P : caps -> Prop) (k : cont) :
  gives_group n any_caps k -> gives_group n P k.
Proof. intros H cu cs o _ E. eapply H; [exact Logic.I | exact E]. Qed.

Lemma rep_loop_gives (P : caps -> Prop) (body : cont -> cont) (g : bool)
    (lo : nat) (hi : option nat) (k : cont) :
  (forall k', gives_group n P k' -> gives_group n P (body k')) ->
  gives_group n P k ->
  forall fuel cnt,
    gives_group n P (fun cu cs => rep_loop body g lo hi k fuel cnt cu cs).
Proof.
  intros Hbody Hk. induction fuel as [|f IH]; intros cnt cu cs o H E.
  - simpl in E. destruct (lo <=? cnt); [|discriminate E]. eapply Hk; eauto.
  - rewrite rep_loop_S in E.
    assert (Again : forall o',
               (if below cnt hi
                then body (fun cu' cs' =>
                             if pos cu <? pos cu'
                             then rep_loop body g lo hi k f (S cnt) cu' cs'
                             else None) cu cs
                else None) = Some o' -> cap n (snd o') <> None).
    { intros o' A. destruct (below cnt hi); [|discriminate A].
      eapply Hbody; [|exact H|exact A].
      intros cu' cs' o'' H' E'. destruct (pos cu <? pos cu'); [|discriminate E'].
      eapply IH; eauto. }
    assert (Stop : forall o',
               (if lo <=? cnt then k cu cs else None) = Some o' ->
               cap n (snd o') <> None).
    { intros o' S0. destruct (lo <=? cnt); [|discriminate S0]. eapply Hk; eauto. }
    destruct g.
    + destruct (if below cnt hi then _ else None) as [o'|] eqn:A.
      * inversion E; subst. apply Again. reflexivity.
      * apply Stop, E.
    + destruct (if lo <=? cnt then k cu cs else None) as [o'|] eqn:S0.
      * inversion E; subst. apply Stop. reflexivity.
      * apply Again, E.
Qed.

(** Going through [r] first does not undo it, whether the continuation
    needs the group set on entry ([P] is [group_set n]) or not. *)
Lemma exec_gives (P : caps -> Prop) :
  (forall cs m span, P cs -> P ((m, span) :: cs)) ->
  forall r k, gives_group n P k -> gives_group n P (exec fl r k).
Proof.
  intros Hpush.
  induction r as [|c| |neg items| | |r1 IH1 r2 IH2|r1 IH1 r2 IH2
                  |g lo hi r1 IH1|m r1 IH1];
    intros k Hk cu cs o H E; cbn [exec] in E; unfold one in E.
  - eapply Hk; eauto.
  - destruct (rest cu) as [|x xs]; [discriminate E|].
    destruct (lit_matches fl c x); [|discriminate E]. eapply Hk; eauto.
  - destruct (rest cu) as [|x xs]; [discriminate E|].
    destruct (negb _); [|discriminate E]. eapply Hk; eauto.
  - destruct (rest cu) as [|x xs]; [discriminate E|].
    destruct (cls_matches fl neg items x); [|discriminate E]. eapply Hk; eauto.
  - destruct (at_bol fl cu); [|discriminate E]. eapply Hk; eauto.
  - destruct (at_eol fl cu); [|discriminate E]. eapply Hk; eauto.
  - eapply (IH1 (fun cu' cs' => exec fl r2 k cu' cs')); [|exact H|exact E].
    intros cu' cs' o' H' E'. eapply IH2; eauto.
  - destruct (exec fl r1 k cu cs) as [o'|] eqn:A.
    + inversion E; subst. eapply IH1; eauto.
    + eapply IH2; eauto.
  - eapply (@rep_loop_gives P (exec fl r1) g lo hi k); eauto.
  - eapply (IH1 (fun cu' cs' => k cu' ((m, (pos cu, pos cu')) :: cs')));
      [|exact H|exact E].
    intros cu' cs' o' H' E'. eapply Hk; [|exact E']. apply Hpush, H'.
Qed.

Lemma push_any (cs : caps) (m : nat) (span : nat * nat) :
  any_caps cs -> any_caps ((m, span) :: cs).
Proof. auto. Qed.

Lemma push_set (cs : caps) (m : nat) (span : nat * nat) :
  group_set n cs -> group_set n ((m, span) :: cs).
Proof.
  unfold group_set. simpl. intros H. destruct (m =? n); [discriminate | exact H].
Qed.

(** An expression that sets group [n] on every way through hands it set to
    a continuation that keeps it. *)
Lemma exec_sets (r : regex) :
  sets_group n r = true ->
  forall k, gives_group n (group_set n) k -> gives_group n any_caps (exec fl r k).
Proof.
  induction r as [|c| |neg items| | |r1 IH1 r2 IH2|r1 IH1 r2 IH2
                  |g lo hi r1 IH1|m r1 IH1];
    intros S k Hk; cbn [sets_group] in S; try discriminate S.
  - apply orb_prop in S. destruct S as [S|S].
    + intros cu cs o H E. cbn [exec] in E.
      eapply (IH1 S (fun cu' cs' => exec fl r2 k cu' cs')); [|exact H|exact E].
      apply (exec_gives push_set), Hk.
    + intros cu cs o H E. cbn [exec] in E.
      eapply (exec_gives push_any r1 (k := fun cu' cs' => exec fl r2 k cu' cs'));
        [|exact H|exact E].
      apply IH2; assumption.
  - apply andb_prop in S. destruct S as [S1 S2].
    intros cu cs o H E. cbn [exec] in E.
    destruct (exec fl r1 k cu cs) as [o'|] eqn:A.
    + inversion E; subst. eapply IH1; eauto.
    + eapply IH2; eauto.
  - apply andb_prop in S. destruct S as [L S]. apply Nat.leb_le in L.
    intros cu cs o H E. cbn [exec] in E.
    destruct (List.length (rest cu)) as [|f]; simpl in E.
    + destruct lo; [lia | discriminate E].
    + assert (N : (lo <=? 0) = false) by (apply Nat.leb_gt; lia).
      rewrite N in E.
      assert (A : exists o',
                 exec fl r1
                   (fun cu' cs' =>
                      if pos cu <? pos cu'
                      then rep_loop (exec fl r1) g lo hi k f 1 cu' cs'
                      else None) cu cs = Some o' /\ o' = o).
      { destruct g, (below 0 hi);
          try discriminate E;
          destruct (exec fl r1 _ cu cs) as [o'|]; try discriminate E;
          inversion E; subst; eauto. }
      destruct A as (o' & A & ->).
      eapply (IH1 S); [|exact H|exact A].
      intros cu' cs' o'' H' E'. destruct (pos cu <? pos cu'); [|discriminate E'].
      eapply (@rep_loop_gives (group_set n) (exec fl r1) g lo hi k); eauto.
      intros k' Hk'. apply (exec_gives push_set), Hk'.
  - apply orb_prop in S. destruct S as [S|S].
    + apply Nat.eqb_eq in S. subst m.
      intros cu cs o H E. cbn [exec] in E.
      eapply (exec_gives push_any r1
                (k := fun cu' cs' => k cu' ((n, (pos cu, pos cu')) :: cs')));
        [|exact H|exact E].
      intros cu' cs' o' _ E'. eapply Hk; [|exact E'].
      unfold group_set. simpl. rewrite Nat.eqb_refl. discriminate.
    + intros cu cs o H E. cbn [exec] in E.
      eapply (IH1 S (fun cu' cs' => k cu' ((m, (pos cu, pos cu')) :: cs')));
        [|exact H|exact E].
      intros cu' cs' o' H' E'. eapply Hk; [|exact E']. apply push_set, H'.
Qed.

End Groups.

(** A match of a pattern that sets group 1 on every way has [group(1)]. *)
Lemma search_has_group (pattern : string) (s : str) (fl : flags) (m : match_obj) :
  sets_group 1 (compile pattern) = true ->
  search pattern s fl = Some m -> group m 1 <> None.
Proof.
  intros S. unfold search, search_re.
  assert (G : gives_group 1 any_caps (exec fl (compile pattern) accept)).
  { apply exec_sets; [exact S|].
    intros cu cs o H E. inversion E; subst. exact H. }
  assert (Sc : forall xs p pv, scan fl (compile pattern) s p pv xs = Some m ->
                               cap 1 (m_caps m) <> None).
  { induction xs as [|x xs IH]; intros p pv; simpl;
      destruct (match_at fl (compile pattern) _) as [[e cs]|] eqn:M; intros H;
      try discriminate H.
    - inversion H; subst. apply (G _ _ (e, cs) Logic.I M).
    - inversion H; subst. apply (G _ _ (e, cs) Logic.I M).
    - eapply IH, H. }
  intros H. apply Sc in H. unfold group.
  destruct (cap 1 (m_caps m)) as [[a b]|]; [discriminate | contradiction].
Qed.

Local Open Scope string_scope.

Lemma year_compiled : compile "(19|20)\d{2}" = year_ast.
Proof. reflexivity. Qed.

Lemma digit_class (x : ascii) : cls_matches no_flags false [CDigit] x = isdigit x.
Proof. unfold cls_matches, items_have; simpl. destruct (isdigit x); reflexivity. Qed.

Lemma two_digits (p : nat) (pv : option ascii) (xs : str) (cs : caps) :
  rep_loop (exec no_flags (Cls false [CDigit])) true 2 (Some 2) accept
    (List.length xs) 0 {| pos := p; prev := pv; rest := xs |} cs =
  match xs with
  | c :: d :: _ => if isdigit c && isdigit d then Some (2 + p, cs) else None
  | _ => None
  end.
Proof.
  assert (D : forall k cu cs,
             exec no_flags (Cls false [CDigit]) k cu cs = one isdigit k cu cs).
  { intros k cu0 cs0. simpl. unfold one. destruct (rest cu0); auto.
    rewrite digit_class. reflexivity. }
  destruct xs as [|c [|d tl]]; simpl List.length.
  - reflexivity.
  - rewrite (@rep_one_step _ _ D). simpl.
    destruct (isdigit c); reflexivity.
  - rewrite (@rep_one_step _ _ D). cbn [rest]. simpl below. cbn [andb].
    destruct (isdigit c); [|reflexivity].
    rewrite (@rep_one_step _ _ D). cbn [rest step]. simpl below. cbn [andb].
    destruct (isdigit d); [|reflexivity].
    rewrite rep_at_bound with (h := 2) by reflexivity. simpl.
    reflexivity.
Qed.

Lemma one_cons (ok : ascii -> bool) (k : cont) (p : nat) (pv : option ascii)
    (x : ascii) (xs : str) (cs : caps) :
  one ok k {| pos := p; prev := pv; rest := x :: xs |} cs =
  if ok x then k {| pos := S p; prev := Some x; rest := xs |} cs else None.
Proof. reflexivity. Qed.

Lemma one_nil (ok : ascii -> bool) (k : cont) (p : nat) (pv : option ascii)
    (cs : caps) :
  one ok k {| pos := p; prev := pv; rest := [] |} cs = None.
Proof. reflexivity. Qed.

Lemma match_at_year (p : nat) (pv : option ascii) (xs : str) :
  match_at no_flags year_ast {| pos := p; prev := pv; rest := xs |} =
  match year_at xs with
  | Some _ => Some (4 + p, [(1, (p, 2 + p))])
  | None => None
  end.
Proof.
  unfold match_at, year_ast.
  set (digit := Cls false [CDigit]). cbn [exec]. subst digit.
  unfold lit_matches. cbn [ignorecase no_flags].
  destruct xs as [|a [|b xs]]; cbn [year_at].
  - reflexivity.
  - rewrite !one_cons, !one_nil.
    destruct (Ascii.eqb "1" a), (Ascii.eqb "2" a); reflexivity.
  - rewrite !one_cons. cbn [rest pos]. rewrite !two_digits.
    unfold year_shape. rewrite (Ascii.eqb_sym a), (Ascii.eqb_sym b).
    rewrite (Ascii.eqb_sym a "2"), (Ascii.eqb_sym b "0").
    destruct xs as [|c [|d tl]].
    + destruct (Ascii.eqb "1" a), (Ascii.eqb "9" b), (Ascii.eqb "2" a), (Ascii.eqb "0" b); reflexivity.
    + destruct (Ascii.eqb "1" a), (Ascii.eqb "9" b), (Ascii.eqb "2" a), (Ascii.eqb "0" b); reflexivity.
    + destruct (Ascii.eqb "1" a), (Ascii.eqb "9" b), (Ascii.eqb "2" a),
        (Ascii.eqb "0" b), (isdigit c), (isdigit d); cbn [andb orb];
        reflexivity.
Qed.

Lemma skipn_cons_S (p : nat) (s xs : str) (x : ascii) :
  skipn p s = x :: xs -> skipn (S p) s = xs.
Proof.
  revert s. induction p as [|p IH]; intros s H.
  - simpl in H. subst s. reflexivity.
  - destruct s as [|c s]; [discriminate|]. simpl in H. apply IH in H. exact H.
Qed.

Lemma year_at_firstn (xs y : str) : year_at xs = Some y -> firstn 4 xs = y.
Proof.
  destruct xs as [|a [|b [|c [|d tl]]]]; simpl; try discriminate.
  destruct (year_shape a b c d); [|discriminate]. intros H. inversion H. reflexivity.
Qed.

Lemma scan_year :
  forall xs s p pv, skipn p s = xs ->
    match first_year xs with
    | Some y => exists m, scan no_flags year_ast s p pv xs = Some m /\ group0 m = y
    | None => scan no_flags year_ast s p pv xs = None
    end.
Proof.
  induction xs as [|x xs IH]; intros s p pv E.
  - simpl. reflexivity.
  - cbn [scan first_year]. rewrite match_at_year.
    destruct (year_at (x :: xs)) as [y|] eqn:Y.
    + eexists. split; [reflexivity|].
      unfold group0, slice. cbn [m_string m_start m_end].
      replace (4 + p - p) with 4 by lia. rewrite E. apply year_at_firstn, Y.
    + apply (IH s (S p) (Some x)). apply skipn_cons_S with (x := x), E.
Qed.

Lemma search_year (s : str) :
  match first_year s with
  | Some y => exists m, search "(19|20)\d{2}" s no_flags = Some m /\ group0 m = y
  | None => search "(19|20)\d{2}" s no_flags = None
  end.
Proof.
  unfold search. rewrite year_compiled. unfold search_re.
  apply scan_year. reflexivity.
Qed.

Lemma year_shaped_at (y suf : str) :
  year_shaped y = true -> year_at (y ++ suf)%list = Some y.
Proof.
  destruct y as [|a [|b [|c [|d [|e tl]]]]]; simpl; try discriminate.
  intros ->. reflexivity.
Qed.

Lemma year_at_shaped (xs y : str) :
  year_at xs = Some y -> year_shaped y = true /\ exists suf, xs = (y ++ suf)%list.
Proof.
  destruct xs as [|a [|b [|c [|d tl]]]]; simpl; try discriminate.
  destruct (year_shape a b c d) eqn:E; [|discriminate].
  intros H. inversion H; subst. simpl. split; eauto.
Qed.

Lemma first_year_found (s y : str) : first_year s = Some y -> leftmost_year s y.
Proof.
  revert y. induction s as [|x s IH]; intros y H.
  - discriminate.
  - cbn [first_year] in H. destruct (year_at (x :: s)) as [y0|] eqn:Y.
    + inversion H; subst y0. apply year_at_shaped in Y. destruct Y as (Sh & suf & E).
      exists [], suf. simpl. repeat split; auto. intros; lia.
    + apply IH in H. destruct H as (pre & suf & E & Sh & Min).
      exists (x :: pre), suf. subst s. repeat split; auto.
      intros [|x' pre'] y' suf' E' Sh'.
      * simpl in E'. rewrite E' in Y. rewrite (@year_shaped_at y' suf' Sh') in Y. discriminate.
      * simpl in E'. inversion E' as [[Ex Es]]. simpl.
        specialize (Min pre' y' suf' Es Sh'). lia.
Qed.

Lemma first_year_none (s : str) :
  first_year s = None ->
  forall pre y suf, s = (pre ++ y ++ suf)%list -> year_shaped y = false.
Proof.
  induction s as [|x s IH]; intros H pre y suf E.
  - destruct pre; [|discriminate]. simpl in E.
    destruct y; [reflexivity|discriminate].
  - cbn [first_year] in H. destruct (year_at (x :: s)) as [y0|] eqn:Y; [discriminate|].
    destruct pre as [|x' pre].
    + simpl in E. destruct (year_shaped y) eqn:Sh; auto.
      rewrite E, (@year_shaped_at y suf Sh) in Y. discriminate.
    + simpl in E. inversion E as [[Ex Es]]. apply (IH H pre y suf Es).
Qed.

Lemma year_shaped_length (y : str) : year_shaped y = true -> List.length y = 4.
Proof.
  destruct y as [|a [|b [|c [|d [|e tl]]]]]; simpl; try discriminate. reflexivity.
Qed.

Lemma app_same_length (A : Type) (p1 p2 r1 r2 : list A) :
  (p1 ++ r1 = p2 ++ r2)%list -> List.length p1 = List.length p2 -> p1 = p2 /\ r1 = r2.
Proof.
  revert p2. induction p1 as [|a p1 IH]; intros [|b p2] E L; simpl in *; try discriminate; auto.
  inversion E; subst. destruct (IH p2) as [-> ->]; auto.
Qed.

Lemma leftmost_year_first (s y : str) : leftmost_year s y -> first_year s = Some y.
Proof.
  intros (pre & suf & E & Sh & Min).
  destruct (first_year s) as [y0|] eqn:F.
  - apply first_year_found in F. destruct F as (pre0 & suf0 & E0 & Sh0 & Min0).
    assert (L : List.length pre = List.length pre0).
    { apply Nat.le_antisymm; [eapply Min | eapply Min0]; eauto. }
    rewrite E in E0. destruct (@app_same_length _ _ _ _ _ E0 L) as [_ E1].
    destruct (@app_same_length _ _ _ _ _ E1) as [-> _]; auto.
    rewrite (@year_shaped_length _ Sh), (@year_shaped_length _ Sh0). reflexivity.
  - rewrite (@first_year_none _ F _ _ _ E) in Sh. discriminate.
Qed.

Lemma isdigit_cases (c : ascii) :
  isdigit c = true ->
  In c ["0"; "1"; "2"; "3"; "4"; "5"; "6"; "7"; "8"; "9"]%char.
Proof.
  destruct c as [[] [] [] [] [] [] [] []]; vm_compute; intros H;
    solve [discriminate | intuition congruence].
Qed.

Lemma year_canonical (y : str) : year_shaped y = true -> str_of_int (int y) = y.
Proof.
  destruct y as [|a [|b [|c [|d [|e tl]]]]]; simpl; try discriminate.
  unfold year_shape. intros H.
  apply andb_prop in H. destruct H as [H Hd].
  apply andb_prop in H. destruct H as [H Hc].
  apply isdigit_cases in Hc, Hd.
  apply orb_prop in H.
  destruct H as [H|H]; apply andb_prop in H; destruct H as [Ha Hb];
    apply Ascii.eqb_eq in Ha, Hb; subst a b;
    simpl in Hc, Hd;
    repeat (destruct Hc as [Hc|Hc]; [subst c|]); try contradiction;
    repeat (destruct Hd as [Hd|Hd]; [subst d|]); try contradiction;
    vm_compute; reflexivity.
Qed.

(** *** The roll-number pattern *)

Lemma roll_compiled : compile "^[a-zA-Z0-9\/\-]{2,20}$" = roll_ast.
Proof. reflexivity. Qed.

Lemma id_class (x : ascii) :
  cls_matches no_flags false
    [CRange "a" "z"; CRange "A" "Z"; CRange "0" "9"; CChar "/"; CChar "-"] x
  = id_char x.
Proof. destruct x as [[] [] [] [] [] [] [] []]; reflexivity. Qed.

Lemma match_roll (s : str) (m : match_obj) :
  match_ "^[a-zA-Z0-9\/\-]{2,20}$" s no_flags = Some m ->
  no_newline s -> roll_valid s.
Proof.
  unfold match_. rewrite roll_compiled. unfold match_re, match_at, roll_ast.
  set (idc := Cls false _). cbn [exec]. cbn [at_bol start_of prev].
  destruct (rep_loop _ _ _ _ _ _ _ _ _) as [[e cs]|] eqn:R; [|discriminate].
  intros _ NL.
  assert (D : forall k cu cs, exec no_flags idc k cu cs = one id_char k cu cs).
  { intros k cu cs0. subst idc. simpl. unfold one. destruct (rest cu); auto.
    rewrite id_class. reflexivity. }
  apply (@rep_one_sound _ _ D) in R.
  destruct R as (n & Hn & Hok & Hlo & Hhi & Hk).
  specialize (Hhi 20 eq_refl (Nat.le_0_l _)). simpl in Hlo, Hhi, Hn, Hok.
  cbv beta in Hk.
  destruct (at_eol no_flags (forward n (start_of s))) eqn:Eol;
    [|discriminate Hk].
  unfold at_eol in Eol. rewrite forward_rest in Eol by exact Hn. simpl rest in Eol.
  cbn [multiline no_flags orb] in Eol.
  assert (T : skipn n s = []).
  { destruct (skipn n s) as [|c tl] eqn:Sk; auto.
    apply andb_prop in Eol. destruct Eol as [Ec _]. apply Ascii.eqb_eq in Ec.
    assert (F : Forall (fun c => c <> newline) (skipn n s)).
    { clear -NL. revert n. induction NL; intros [|n]; simpl; auto. }
    rewrite Sk in F. inversion F; subst. congruence. }
  assert (E : firstn n s = s).
  { rewrite <- (firstn_skipn n s) at 2. rewrite T, app_nil_r. reflexivity. }
  assert (Ln : List.length s = n).
  { rewrite <- E at 1. rewrite length_firstn. lia. }
  rewrite E in Hok. split; [lia | exact Hok].
Qed.

(** *** Collapsing white space *)

Lemma spaces_compiled : compile "\s+" = spaces_ast.
Proof. reflexivity. Qed.

Section Emitted.
Variables (P : ascii -> Prop) (fl : flags) (r : regex) (repl : str).
Hypothesis Hrepl : Forall P repl.
Hypothesis Hkept :
  forall p pv x xs,
    P x \/ exists e cs,
             match_at fl r {| pos := p; prev := pv; rest := x :: xs |} = Some (e, cs)
             /\ p < e.

Lemma sub_go_emits : forall xs skip p pv, Forall P (sub_go fl r repl skip p pv xs).
Proof.
  induction xs as [|x xs IH]; intros skip p pv.
  - destruct skip; simpl; auto.
    destruct (match_at fl r _) as [[e cs]|]; auto.
  - destruct skip as [|n]; simpl; auto.
    destruct (match_at fl r _) as [[e cs]|] eqn:M.
    + destruct (p <? e)%nat eqn:Lt; apply Forall_app; split; auto.
      constructor; auto.
      destruct (Hkept p pv x xs) as [Hx|(e' & cs' & M' & Lt')]; auto.
      rewrite M in M'. inversion M'; subst. apply Nat.ltb_ge in Lt. lia.
    + constructor; auto.
      destruct (Hkept p pv x xs) as [Hx|(e' & cs' & M' & Lt')]; auto.
      rewrite M in M'. discriminate.
Qed.
End Emitted.

Lemma space_class (x : ascii) : cls_matches no_flags false [CSpace] x = isspace x.
Proof. unfold cls_matches, items_have; simpl. destruct (isspace x); reflexivity. Qed.

Lemma spaces_collapsed (s : str) :
  only_plain_spaces (sub "\s+" [space] s no_flags).
Proof.
  unfold sub, sub_re. rewrite spaces_compiled. apply sub_go_emits.
  - constructor; auto.
  - intros p pv x xs. destruct (isspace x) eqn:X; [right|left; discriminate].
    unfold match_at, spaces_ast. cbn [exec].
    assert (D : forall k cu cs,
               exec no_flags (Cls false [CSpace]) k cu cs = one isspace k cu cs).
    { intros k cu cs0. simpl. unfold one. destruct (rest cu); auto.
      rewrite space_class. reflexivity. }
    cbn [rest List.length]. rewrite (@rep_one_step _ _ D). cbn [rest].
    rewrite X. simpl below. cbn [andb].
    destruct (@rep_can_stop (exec no_flags (Cls false [CSpace])) 1 None accept true
                (List.length xs) 1 (step x xs {| pos := p; prev := pv; rest := x :: xs |})
                [] _ (le_n 1) eq_refl) as [[e cs] R].
    rewrite R. exists e, cs. split; auto.
    apply (@rep_one_sound _ _ D) in R.
    destruct R as (n & _ & _ & _ & _ & Hk).
    unfold accept in Hk. inversion Hk; subst.
    pose proof (forward_pos n (step x xs {| pos := p; prev := pv; rest := x :: xs |})) as Fp.
    simpl in Fp. lia.
Qed.

Lemma plain_spaces_no_newline (s : str) : only_plain_spaces s -> no_newline s.
Proof.
  unfold only_plain_spaces, no_newline. intros H.
  induction H as [|c s Hc Hs IH]; constructor; auto.
  intros ->. specialize (Hc eq_refl). discriminate.
Qed.

End ReFacts.

(** * Facts about the parser *)

Module ParserFacts.
Import Py Re OCRService Spec PyFacts ReFacts.
Local Open Scope string_scope.

Lemma field_eqb_eq (f g : field) : field_eqb f g = true <-> f = g.
Proof. destruct f, g; simpl; split; congruence. Qed.

Lemma field_eqb_refl (f : field) : field_eqb f f = true.
Proof. destruct f; reflexivity. Qed.

Lemma setattr_same (c : ExtractedCredential) (f : field) (v : str) :
  setattr c f v f = Some v.
Proof. unfold setattr. rewrite field_eqb_refl. reflexivity. Qed.

Lemma setattr_other (c : ExtractedCredential) (f g : field) (v : str) :
  g <> f -> setattr c f v g = c g.
Proof.
  intros N. unfold setattr. destruct (field_eqb g f) eqn:E; auto.
  apply field_eqb_eq in E. contradiction.
Qed.

Lemma in_dict (c : ExtractedCredential) (f : field) (v : str) :
  In (f, v) (dict_exclude_none c) <-> c f = Some v.
Proof.
  unfold dict_exclude_none. rewrite in_flat_map. split.
  - intros (g & _ & H). destruct (c g) as [w|] eqn:E; simpl in H; [|contradiction].
    destruct H as [H|[]]. inversion H; subst. exact E.
  - intros H. exists f. split.
    + destruct f; simpl; auto 10.
    + rewrite H. left. reflexivity.
Qed.

(** *** Cleaning *)

Lemma clean_unfold (value : str) (f : field) :
  _clean_extracted_value value f =
  if negb (truthy value) then []
  else
    match f with
    | name =>
        let cleaned := sub "(?:mr|ms|miss|dr|prof)\.?\s*" [] (tidy value) I in
        if (50 <? List.length cleaned)%nat then [] else cleaned
    | roll_number =>
        match match_ "^[a-zA-Z0-9\/\-]{2,20}$" (tidy value) no_flags with
        | None => []
        | Some _ => tidy value
        end
    | issue_year =>
        match search "(19|20)\d{2}" (tidy value) no_flags with
        | Some year_match =>
            let year := int (group0 year_match) in
            if ((1950 <=? year) && (year <=? 2030))%Z then str_of_int year
            else []
        | None => []
        end
    | _ => tidy value
    end.
Proof. reflexivity. Qed.

Lemma tidy_plain_spaces (value : str) : only_plain_spaces (tidy value).
Proof.
  unfold tidy. unfold sub at 1. apply sub_re_keeps; [constructor|].
  apply spaces_collapsed.
Qed.

Section CleanKeeps.
Variable P : ascii -> Prop.
Hypothesis Pspace : P space.
Hypothesis Pdigit : forall c, isdigit c = true -> P c.


End CleanKeeps.

(** What the year rule returns, by the first year-shaped substring. *)
Lemma clean_year (value : str) :
  _clean_extracted_value value issue_year =
  match first_year (tidy value) with
  | Some y => if ((1950 <=? int y) && (int y <=? 2030))%Z then y else []
  | None => []
  end.
Proof.
  rewrite clean_unfold. destruct value as [|c value].
  - reflexivity.
  - cbn [truthy negb]. pose proof (search_year (tidy (c :: value))) as S.
    destruct (first_year (tidy (c :: value))) as [y|] eqn:F.
    + destruct S as (m & -> & G). cbv zeta. rewrite G.
      destruct (_ && _)%bool; auto.
      apply year_canonical. apply first_year_found in F.
      destruct F as (_ & _ & _ & Sh & _). exact Sh.
    + rewrite S. reflexivity.
Qed.

Lemma year_shaped_digits (y : str) :
  year_shaped y = true -> Forall (fun c => isdigit c = true) y.
Proof.
  intros Sh. rewrite <- (@year_canonical y Sh). apply str_of_int_digits.
Qed.

Lemma clean_rule (value : str) (f : field) :
  truthy (_clean_extracted_value value f) = true ->
  rule f (_clean_extracted_value value f).
Proof.
  destruct f; try (intros; exact Logic.I).
  - rewrite clean_unfold. destruct (negb (truthy value)); [discriminate|].
    cbv zeta. destruct (50 <? _)%nat eqn:E; [discriminate|].
    intros _. apply Nat.ltb_ge in E. exact E.
  - rewrite clean_unfold. destruct (negb (truthy value)); [discriminate|].
    destruct (match_ _ _ _) as [m|] eqn:M; [|discriminate].
    intros _. apply (@match_roll _ _ M).
    apply plain_spaces_no_newline, tidy_plain_spaces.
  - rewrite clean_year.
    destruct (first_year (tidy value)) as [y|] eqn:F; [|discriminate].
    destruct (_ && _)%bool eqn:R; [|discriminate].
    intros _. apply first_year_found in F. destruct F as (_ & _ & _ & Sh & _).
    apply andb_prop in R. destruct R as [R1 R2].
    apply Z.leb_le in R1, R2.
    repeat split; auto using year_shaped_length, year_shaped_digits.
Qed.

Lemma unwanted_compiled : compile "[^\w\s\.\-\/\(\)\&]" = unwanted_ast.
Proof. reflexivity. Qed.

Lemma unwanted_class (x : ascii) :
  cls_matches no_flags true
    [CWord; CSpace; CChar "."; CChar "-"; CChar "/"; CChar "("; CChar ")";
     CChar "&"] x
  = negb (wanted_char x).
Proof. destruct x as [[] [] [] [] [] [] [] []]; reflexivity. Qed.

Lemma unwanted_removed (s : str) :
  Forall (fun c => wanted_char c = true)
    (sub "[^\w\s\.\-\/\(\)\&]" [] s no_flags).
Proof.
  unfold sub, sub_re. rewrite unwanted_compiled. apply sub_go_emits.
  - constructor.
  - intros p pv x xs. destruct (wanted_char x) eqn:W; [left; reflexivity|right].
    exists (S p), []. split; [|lia].
    unfold match_at, unwanted_ast. cbn [exec]. rewrite one_cons, unwanted_class, W.
    reflexivity.
Qed.

Lemma tidy_cleaned (value : str) : cleaned (tidy value).
Proof.
  pose proof (tidy_plain_spaces value) as S.
  assert (W : Forall (fun c => wanted_char c = true) (tidy value))
    by apply unwanted_removed.
  unfold cleaned, only_plain_spaces in *.
  induction S as [|c s Hc Hs IH]; constructor.
  - inversion W; subst. split; assumption.
  - inversion W; subst. apply IH. assumption.
Qed.

Lemma digit_kept (c : ascii) : isdigit c = true -> kept_char c.
Proof.
  destruct c as [[] [] [] [] [] [] [] []]; vm_compute; intros H;
    try discriminate H; (split; [reflexivity|discriminate]).
Qed.

Lemma clean_cleaned (value : str) (f : field) :
  cleaned (_clean_extracted_value value f).
Proof.
  rewrite clean_unfold. destruct (negb (truthy value)); [constructor|].
  pose proof (tidy_cleaned value) as T.
  destruct f; auto.
  - cbv zeta. destruct (50 <? _)%nat; [constructor|].
    unfold sub. apply sub_re_keeps; [constructor | exact T].
  - destruct (match_ _ _ _); [exact T | constructor].
  - destruct (search _ _ _); [|constructor].
    cbv zeta. destruct (_ && _)%bool; [|constructor].
    eapply Forall_impl; [|apply str_of_int_digits]. exact digit_kept.
Qed.

Lemma digit_not_space (c : ascii) : isdigit c = true -> isspace c = false.
Proof. destruct c as [[] [] [] [] [] [] [] []]; vm_compute; congruence. Qed.

Lemma digit_wanted (c : ascii) : isdigit c = true -> wanted_char c = true.
Proof. intros H. apply (digit_kept c H). Qed.

Section Kept.
Variable ok : ascii -> bool.

(** A substitution leaves a string alone in which the expression matches
    nowhere. *)
Lemma sub_go_untouched (fl : flags) (r : regex) (repl : str) :
  (forall p pv x xs, ok x = true ->
                     match_at fl r {| pos := p; prev := pv; rest := x :: xs |} = None) ->
  (forall p pv, match_at fl r {| pos := p; prev := pv; rest := [] |} = None) ->
  forall xs p pv,
    Forall (fun c => ok c = true) xs -> sub_go fl r repl 0 p pv xs = xs.
Proof.
  intros Hc Hn. induction xs as [|x xs IH]; intros p pv H; simpl.
  - rewrite Hn. reflexivity.
  - inversion H; subst. rewrite Hc by assumption. rewrite IH; auto.
Qed.
End Kept.

Lemma strip_digits (s : str) :
  Forall (fun c => isdigit c = true) s -> strip s = s.
Proof.
  assert (L : forall t, Forall (fun c => isdigit c = true) t -> lstrip t = t).
  { intros t H. destruct H as [|c t Hc Ht]; simpl; auto.
    rewrite (digit_not_space c Hc). reflexivity. }
  intros H. unfold strip, rstrip. rewrite (L s H).
  rewrite L by (apply Forall_rev, H). apply rev_involutive.
Qed.

Lemma tidy_digits (s : str) :
  Forall (fun c => isdigit c = true) s -> tidy s = s.
Proof.
  intros H. unfold tidy, sub, sub_re.
  rewrite (strip_digits H), spaces_compiled, unwanted_compiled.
  rewrite (@sub_go_untouched isdigit no_flags spaces_ast [space]); auto.
  - rewrite (@sub_go_untouched isdigit no_flags unwanted_ast []); auto.
    intros p pv x xs Hx. unfold match_at, unwanted_ast. cbn [exec].
    rewrite one_cons, unwanted_class, (digit_wanted x Hx). reflexivity.
  - intros p pv x xs Hx. unfold match_at, spaces_ast. cbn [exec].
    assert (D : forall k cu cs,
               exec no_flags (Cls false [CSpace]) k cu cs = one isspace k cu cs).
    { intros k cu cs0. simpl. unfold one. destruct (rest cu); auto.
      rewrite space_class. reflexivity. }
    cbn [rest List.length]. rewrite (@rep_one_step _ _ D). cbn [rest].
    rewrite (digit_not_space x Hx). reflexivity.
Qed.

(** *** The loops of [_parse_credentials] *)

Lemma try_pattern_some (f : field) (t : str) (pattern : string) (v : str) :
  try_pattern f t pattern = Ok (Some v) <->
  exists m g,
    search pattern t IM = Some m /\ group m 1 = Some g
    /\ v = _clean_extracted_value (strip g) f /\ v <> [].
Proof.
  unfold try_pattern. split.
  - destruct (search pattern t IM) as [m|]; [|discriminate].
    destruct (group m 1) as [g|] eqn:G; [|discriminate].
    cbv zeta. destruct (_clean_extracted_value (strip g) f) as [|c w] eqn:E; simpl.
    + discriminate.
    + intros H. inversion H; subst. exists m, g. repeat split; auto. discriminate.
  - intros (m & g & -> & -> & -> & N). cbv zeta.
    destruct (_clean_extracted_value (strip g) f); [contradiction|reflexivity].
Qed.

Lemma try_pattern_none (f : field) (t : str) (pattern : string) :
  try_pattern f t pattern = Ok None <->
  search pattern t IM = None
  \/ exists m g,
       search pattern t IM = Some m /\ group m 1 = Some g
       /\ _clean_extracted_value (strip g) f = [].
Proof.
  unfold try_pattern. split.
  - destruct (search pattern t IM) as [m|]; [|auto].
    destruct (group m 1) as [g|] eqn:G; [|discriminate].
    cbv zeta. destruct (_clean_extracted_value (strip g) f) as [|c w] eqn:E; simpl.
    + intros _. right. exists m, g. auto.
    + discriminate.
  - intros [->|(m & g & -> & -> & E)]; auto.
    cbv zeta. rewrite E. reflexivity.
Qed.

Lemma first_accepted_spec (f : field) (t : str) (ps : list string) (v : str) :
  first_accepted f t ps = Ok (Some v) <->
  exists before pattern after,
    ps = (before ++ pattern :: after)%list
    /\ Forall (fun q => try_pattern f t q = Ok None) before
    /\ try_pattern f t pattern = Ok (Some v).
Proof.
  induction ps as [|p ps IH]; simpl.
  - split; [discriminate|]. intros ([|? ?] & ? & ? & E & _); discriminate.
  - destruct (try_pattern f t p) as [[w|]|e] eqn:T; simpl.
    + split.
      * intros H. inversion H; subst. exists [], p, ps. auto.
      * intros ([|q before] & pattern & after & E & B & A); simpl in E;
          inversion E; subst.
        -- rewrite T in A. exact A.
        -- inversion B; subst. congruence.
    + rewrite IH. split.
      * intros (before & pattern & after & -> & B & A).
        exists (p :: before), pattern, after. auto.
      * intros ([|q before] & pattern & after & E & B & A); simpl in E;
          inversion E; subst.
        -- congruence.
        -- inversion B; subst. exists before, pattern, after. auto.
    + split; [discriminate|].
      intros ([|q before] & pattern & after & E & B & A); simpl in E;
        inversion E; subst.
      * congruence.
      * inversion B; subst. congruence.
Qed.

Lemma first_accepted_cleaned (f : field) (t : str) (ps : list string) (v : str) :
  first_accepted f t ps = Ok (Some v) ->
  exists pattern m g,
    In pattern ps /\ search pattern t IM = Some m /\ group m 1 = Some g
    /\ v = _clean_extracted_value (strip g) f /\ v <> [].
Proof.
  intros H. apply first_accepted_spec in H.
  destruct H as (before & pattern & after & -> & _ & A).
  apply try_pattern_some in A. destruct A as (m & g & A).
  exists pattern, m, g. split; [|exact A].
  apply in_or_app. right. left. reflexivity.
Qed.

(** What the outer loop leaves in each slot. *)
Lemma pattern_pass_slots (t : str) :
  forall fs c0 c,
    pattern_pass fs t c0 = Ok c ->
    NoDup fs ->
    forall f,
      (In f fs ->
       exists r, first_accepted f t (patterns f) = Ok r
                 /\ c f = match r with Some v => Some v | None => c0 f end)
      /\ (~ In f fs -> c f = c0 f).
Proof.
  induction fs as [|g fs IH]; intros c0 c H ND f.
  - simpl in H. inversion H; subst. split; [intros []|reflexivity].
  - simpl in H. destruct (first_accepted g t (patterns g)) as [r|e] eqn:A;
      [|discriminate]. simpl in H.
    inversion ND as [|? ? Ng ND']; subst.
    destruct (IH _ _ H ND' f) as [In_fs Out_fs]. split.
    + intros [<-|Hin].
      * exists r. split; auto. rewrite (Out_fs Ng).
        destruct r; [apply setattr_same|reflexivity].
      * destruct (In_fs Hin) as (r' & A' & C'). exists r'. split; auto.
        rewrite C'. destruct r' as [w|]; auto.
        destruct r as [w|]; auto. apply setattr_other.
        intros ->. contradiction.
    + intros N. rewrite Out_fs by (intros ?; apply N; right; assumption).
      destruct r as [w|]; auto. apply setattr_other.
      intros ->. apply N. left. reflexivity.
Qed.

Lemma pattern_fields_nodup : NoDup pattern_fields.
Proof.
  unfold pattern_fields.
  repeat (constructor; [simpl; intuition discriminate|]). constructor.
Qed.

Lemma pattern_pass_result (t : str) (c : ExtractedCredential) (f : field) :
  pattern_pass pattern_fields t new_credential = Ok c ->
  first_accepted f t (patterns f) = Ok (c f).
Proof.
  intros H.
  destruct (pattern_pass_slots _ _ H pattern_fields_nodup f) as [Hin Hout].
  destruct f; try (destruct Hin as (r & A & C); [simpl; auto 10|];
                   rewrite A, C; destruct r; reflexivity).
  simpl. rewrite Hout; [reflexivity|]. simpl. intuition discriminate.
Qed.

(** *** Where the parts of a match come from *)

Lemma scan_string (fl : flags) (r : regex) (s : str) :
  forall xs p pv m, scan fl r s p pv xs = Some m -> m_string m = s.
Proof.
  induction xs as [|x xs IH]; intros p pv m; simpl;
    destruct (match_at fl r _) as [[e cs]|]; intros H;
    try (inversion H; subst; reflexivity); try discriminate.
  eapply IH, H.
Qed.

Lemma group_slice (pattern : string) (s : str) (fl : flags) (m : match_obj)
    (n : nat) (g : str) :
  search pattern s fl = Some m -> group m n = Some g ->
  exists a b, g = slice s a b.
Proof.
  intros S G. apply scan_string in S. unfold group in G.
  destruct (cap n (m_caps m)) as [[a b]|]; [|discriminate].
  inversion G; subst. exists a, b. reflexivity.
Qed.



(** *** [_post_process_fields] *)

Lemma post_process_keeps (c c' : ExtractedCredential) (raw : str) (f : field) :
  _post_process_fields c raw = Ok c' ->
  f <> institution -> f <> specialization -> f <> degree -> c' f = c f.
Proof.
  unfold _post_process_fields. intros H Ni Ns Nd.
  set (c1 := if falsy (c institution) then _ else c) in H.
  assert (E1 : c1 f = c f).
  { subst c1. destruct (falsy (c institution)); auto.
    destruct (find_institution _ _); auto. apply setattr_other, Ni. }
  destruct (c1 degree) as [deg|]; [|inversion H; subst; exact E1].
  destruct (truthy deg && falsy (c1 specialization))%bool;
    [|inversion H; subst; exact E1].
  destruct (search _ deg I) as [m|]; [|inversion H; subst; exact E1].
  destruct (group m 1) as [g|]; [|discriminate].
  inversion H; subst. rewrite !setattr_other; auto.
Qed.

Lemma post_process_institution (c c' : ExtractedCredential) (raw v : str) :
  _post_process_fields c raw = Ok c' -> c' institution = Some v ->
  c institution = Some v
  \/ (falsy (c institution) = true
      /\ find_institution institution_indicators raw = Some v).
Proof.
  unfold _post_process_fields. intros H V.
  set (c1 := if falsy (c institution) then _ else c) in H.
  assert (E1 : c' institution = c1 institution).
  { destruct (c1 degree) as [deg|]; [|inversion H; subst; reflexivity].
    destruct (truthy deg && falsy (c1 specialization))%bool;
      [|inversion H; subst; reflexivity].
    destruct (search _ deg I) as [m|]; [|inversion H; subst; reflexivity].
    destruct (group m 1) as [g|]; [|discriminate].
    inversion H; subst. rewrite !setattr_other; auto; discriminate. }
  rewrite E1 in V. subst c1.
  destruct (falsy (c institution)) eqn:F; [|left; exact V].
  destruct (find_institution _ _) as [w|]; [|left; exact V].
  rewrite setattr_same in V. inversion V; subst. right. split; reflexivity.
Qed.

Lemma find_institution_cleaned (ps : list string) (raw v : str) :
  find_institution ps raw = Some v -> cleaned v.
Proof.
  induction ps as [|p ps IH]; simpl; [discriminate|].
  destruct (search p raw I) as [m|]; auto.
  destruct (group m 1) as [g|].
  - destruct (10 <? _)%nat; auto. intros H. inversion H; subst.
    apply clean_cleaned.
  - simpl. exact IH.
Qed.

Lemma post_process_chars (P : ascii -> Prop) (c c' : ExtractedCredential)
    (raw : str) :
  (forall f v, f <> institution -> c f = Some v -> Forall P v) ->
  _post_process_fields c raw = Ok c' ->
  forall f v, f <> institution -> c' f = Some v -> Forall P v.
Proof.
  unfold _post_process_fields. intros Hc H.
  set (c1 := if falsy (c institution) then _ else c) in H.
  assert (H1 : forall f v, f <> institution -> c1 f = Some v -> Forall P v).
  { intros f v Nf. subst c1. destruct (falsy (c institution)); [|apply Hc, Nf].
    destruct (find_institution _ _); [|apply Hc, Nf].
    rewrite setattr_other by exact Nf. apply Hc, Nf. }
  clearbody c1.
  destruct (c1 degree) as [deg|] eqn:D; [|inversion H; subst; exact H1].
  destruct (truthy deg && falsy (c1 specialization))%bool;
    [|inversion H; subst; exact H1].
  destruct (search _ deg I) as [m|] eqn:S; [|inversion H; subst; exact H1].
  destruct (group m 1) as [g|] eqn:G; [|discriminate].
  inversion H; subst. intros f v Nf V.
  assert (Dg : Forall P deg) by (apply (H1 degree); [discriminate | exact D]).
  unfold setattr in V. destruct (field_eqb f degree) eqn:Fd.
  - inversion V; subst. apply Forall_strip. unfold sub.
    apply sub_re_keeps; [constructor | exact Dg].
  - destruct (field_eqb f specialization) eqn:Fs.
    + inversion V; subst. destruct (group_slice _ _ _ _ S G) as (a & b & ->).
      apply Forall_strip, Forall_slice, Dg.
    + apply (H1 f); assumption.
Qed.

Lemma parse_stages (text : str) (d : list (field * str)) :
  _parse_credentials text = Ok d ->
  exists c1 c2,
    pattern_pass pattern_fields (lower text) new_credential = Ok c1
    /\ _post_process_fields c1 text = Ok c2
    /\ d = dict_exclude_none c2.
Proof.
  unfold _parse_credentials. cbv zeta.
  destruct (pattern_pass _ _ _) as [c1|]; [|discriminate]. simpl.
  destruct (_post_process_fields c1 text) as [c2|] eqn:P2; [|discriminate].
  simpl. intros H. inversion H; subst. exists c1, c2. auto.
Qed.

(** *** Where the parser can raise *)

Lemma try_pattern_raises (f : field) (t : str) (pattern : string) (e : exn) :
  try_pattern f t pattern = Raise e <->
  e = AttributeError
  /\ exists m, search pattern t IM = Some m /\ group m 1 = None.
Proof.
  unfold try_pattern. split.
  - destruct (search pattern t IM) as [m|]; [|discriminate].
    destruct (group m 1) as [g|] eqn:G.
    + cbv zeta. destruct (truthy _); discriminate.
    + intros H. inversion H; subst. split; [reflexivity|]. exists m. auto.
  - intros (-> & m & -> & ->). reflexivity.
Qed.

Lemma try_pattern_with_group (f : field) (t : str) (pattern : string) :
  sets_group 1 (compile pattern) = true ->
  exists r, try_pattern f t pattern = Ok r.
Proof.
  intros S. unfold try_pattern.
  destruct (search pattern t IM) as [m|] eqn:M; [|eauto].
  pose proof (@search_has_group pattern t IM m S M) as G.
  destruct (group m 1) as [g|]; [|contradiction].
  cbv zeta. destruct (truthy _); eauto.
Qed.

Lemma first_accepted_with_group (f : field) (t : str) (ps : list string) :
  Forall (fun p => sets_group 1 (compile p) = true) ps ->
  exists r, first_accepted f t ps = Ok r.
Proof.
  induction 1 as [|p ps Hp Hps IH]; simpl; [eauto|].
  destruct (@try_pattern_with_group f t p Hp) as ([v|] & ->); simpl; eauto.
Qed.

Lemma pattern_pass_after_name (t : str) :
  forall c, exists c',
    pattern_pass
      [roll_number; degree; issue_year; institution; grade; certificate_number]
      t c = Ok c'.
Proof.
  assert (Step : forall f fs,
             Forall (fun p => sets_group 1 (compile p) = true) (patterns f) ->
             (forall c, exists c', pattern_pass fs t c = Ok c') ->
             forall c, exists c', pattern_pass (f :: fs) t c = Ok c').
  { intros f fs Hf Hfs c. simpl.
    destruct (@first_accepted_with_group f t (patterns f) Hf) as (r & ->).
    simpl. apply Hfs. }
  repeat (apply Step; [repeat constructor|]).
  intros c. exists c. reflexivity.
Qed.

Lemma post_process_returns (c : ExtractedCredential) (raw : str) :
  exists c', _post_process_fields c raw = Ok c'.
Proof.
  unfold _post_process_fields.
  set (c1 := if falsy (c institution) then _ else c).
  destruct (c1 degree) as [deg|]; [|eauto].
  destruct (truthy deg && falsy (c1 specialization))%bool; [|eauto].
  destruct (search _ deg I) as [m|] eqn:M; [|eauto].
  assert (G : group m 1 <> None).
  { apply (@search_has_group "(?:in|of)\s+([a-zA-Z\s\&\(\)]+)" deg I m);
      [reflexivity | exact M]. }
  destruct (group m 1) as [g|]; [eauto | contradiction].
Qed.

End ParserFacts.

(** ** The parser over the wider alphabet *)

Module WideFacts.
Import Py Re OCRService.

(** *** On Latin-1 text the two parsers agree *)

Definition wide_cursor (cu : cursor) : Wide.cursor :=
  {| Wide.pos := pos cu; Wide.prev := option_map Wide.Latin1 (prev cu);
     Wide.rest := Wide.wide (rest cu) |}.

Definition wide_match (m : match_obj) : Wide.match_obj :=
  {| Wide.m_string := Wide.wide (m_string m); Wide.m_start := m_start m;
     Wide.m_end := m_end m; Wide.m_caps := m_caps m |}.

Definition wide_result (r : result (option Py.str))
    : result (option Wide.str) :=
  match r with
  | Ok v => Ok (option_map Wide.wide v)
  | Raise e => Raise e
  end.

Definition wide_credential (c : ExtractedCredential)
    : Wide.ExtractedCredential :=
  fun f => option_map Wide.wide (c f).


Lemma wide_lstrip (s : Py.str) :
  Wide.lstrip (Wide.wide s) = Wide.wide (lstrip s).
Proof.
  induction s as [|c s IH]; simpl; [reflexivity|].
  destruct (isspace c); [exact IH | reflexivity].
Qed.

Lemma wide_strip (s : Py.str) : Wide.strip (Wide.wide s) = Wide.wide (strip s).
Proof.
  unfold Wide.strip, Wide.rstrip, strip, rstrip, Wide.wide.
  fold (Wide.wide s). rewrite wide_lstrip. unfold Wide.wide.
  rewrite <- map_rev. fold (Wide.wide (rev (lstrip s))).
  rewrite wide_lstrip. unfold Wide.wide. rewrite map_rev. reflexivity.
Qed.

Lemma wide_slice (s : Py.str) (a b : nat) :
  Wide.slice (Wide.wide s) a b = Wide.wide (slice s a b).
Proof.
  unfold Wide.slice, slice, Wide.wide. rewrite skipn_map, firstn_map.
  reflexivity.
Qed.

Lemma wide_truthy (s : Py.str) : Wide.truthy (Wide.wide s) = truthy s.
Proof. destruct s; reflexivity. Qed.

Lemma wide_int (s : Py.str) : Wide.int (Wide.wide s) = int s.
Proof.
  unfold Wide.int, int. generalize 0%Z.
  induction s as [|c s IH]; intros z; simpl; [reflexivity|]. apply IH.
Qed.

Lemma wide_one (ok : ascii -> bool) (okw : Wide.char -> bool) (k : cont)
    (kw : Wide.cont) (cu : cursor) (cs : caps) :
  (forall x, okw (Wide.Latin1 x) = ok x) ->
  (forall cu' cs', kw (wide_cursor cu') cs' = k cu' cs') ->
  Wide.one okw kw (wide_cursor cu) cs = one ok k cu cs.
Proof.
  intros O K. unfold Wide.one, one. simpl.
  destruct (rest cu) as [|x xs]; simpl; [reflexivity|].
  rewrite O. destruct (ok x); [|reflexivity].
  apply (K (step x xs cu)).
Qed.

Lemma wide_rep_loop (body : cont -> cont) (bodyw : Wide.cont -> Wide.cont)
    (gr : bool) (lo : nat) (hi : option nat) (k : cont) (kw : Wide.cont) :
  (forall k' kw' cu cs,
     (forall cu' cs', kw' (wide_cursor cu') cs' = k' cu' cs') ->
     bodyw kw' (wide_cursor cu) cs = body k' cu cs) ->
  (forall cu' cs', kw (wide_cursor cu') cs' = k cu' cs') ->
  forall fuel cnt cu cs,
    Wide.rep_loop bodyw gr lo hi kw fuel cnt (wide_cursor cu) cs
    = rep_loop body gr lo hi k fuel cnt cu cs.
Proof.
  intros B K. induction fuel as [|f IH]; intros cnt cu cs; simpl.
  - rewrite K. reflexivity.
  - rewrite K.
    rewrite (B (fun cu' cs' =>
                  if pos cu <? pos cu'
                  then rep_loop body gr lo hi k f (S cnt) cu' cs'
                  else None)); [reflexivity|].
    intros cu' cs'. simpl. rewrite IH. reflexivity.
Qed.

Lemma wide_exec (fl : flags) (r : regex) :
  forall k kw cu cs,
    (forall cu' cs', kw (wide_cursor cu') cs' = k cu' cs') ->
    Wide.exec fl r kw (wide_cursor cu) cs = exec fl r k cu cs.
Proof.
  induction r as [|c| |neg items| | |r1 IH1 r2 IH2|r1 IH1 r2 IH2
                  |gr lo hi r1 IH1|m r1 IH1];
    intros k kw cu cs K; cbn [Wide.exec exec].
  - apply K.
  - apply wide_one; [|exact K]. intros x. unfold Wide.lit_matches, lit_matches.
    destruct (ignorecase fl); reflexivity.
  - apply wide_one; [|exact K]. reflexivity.
  - apply wide_one; [|exact K]. intros x.
    assert (Iw : forall y, Wide.items_have items (Wide.Latin1 y)
                           = items_have items y).
    { intros y. unfold Wide.items_have, items_have.
      induction items as [|it items IH]; simpl; [reflexivity|].
      rewrite IH. destruct it; reflexivity. }
    unfold Wide.cls_matches, cls_matches. simpl.
    rewrite !Iw. reflexivity.
  - rewrite K. unfold Wide.at_bol, at_bol. simpl.
    destruct (prev cu); reflexivity.
  - rewrite K. unfold Wide.at_eol, at_eol. simpl.
    destruct (rest cu) as [|x [|y xs]]; reflexivity.
  - apply IH1. intros cu' cs'. apply IH2, K.
  - rewrite (IH1 k kw cu cs K), (IH2 k kw cu cs K). reflexivity.
  - replace (List.length (Wide.rest (wide_cursor cu)))
      with (List.length (rest cu))
      by (simpl; unfold Wide.wide; rewrite length_map; reflexivity).
    apply wide_rep_loop; [|exact K].
    intros k' kw' cu' cs' K'. apply IH1, K'.
  - apply IH1. intros cu' cs'. simpl. apply K.
Qed.

Lemma wide_match_at (fl : flags) (r : regex) (cu : cursor) :
  Wide.match_at fl r (wide_cursor cu) = match_at fl r cu.
Proof. apply wide_exec. reflexivity. Qed.

Lemma wide_search (pattern : string) (s : Py.str) (fl : flags) :
  Wide.search pattern (Wide.wide s) fl
  = option_map wide_match (search pattern s fl).
Proof.
  unfold Wide.search, search, search_re.
  assert (Sc : forall xs p pv,
             Wide.scan fl (compile pattern) (Wide.wide s) p
               (option_map Wide.Latin1 pv) (Wide.wide xs)
             = option_map wide_match (scan fl (compile pattern) s p pv xs)).
  { induction xs as [|x xs IH]; intros p pv; simpl.
    - rewrite <- (wide_match_at fl (compile pattern)
                    {| pos := p; prev := pv; rest := [] |}).
      unfold wide_cursor. simpl.
      destruct (Wide.match_at _ _ _) as [[e cs]|]; reflexivity.
    - rewrite <- (wide_match_at fl (compile pattern)
                    {| pos := p; prev := pv; rest := x :: xs |}).
      unfold wide_cursor. simpl.
      destruct (Wide.match_at _ _ _) as [[e cs]|]; [reflexivity|].
      apply (IH (S p) (Some x)). }
  apply (Sc s 0 None).
Qed.

Lemma wide_match_ (pattern : string) (s : Py.str) (fl : flags) :
  Wide.match_ pattern (Wide.wide s) fl
  = option_map wide_match (match_ pattern s fl).
Proof.
  unfold Wide.match_, match_, match_re.
  rewrite <- (wide_match_at fl (compile pattern) (start_of s)).
  unfold wide_cursor, Wide.start_of. simpl.
  destruct (Wide.match_at _ _ _) as [[e cs]|]; reflexivity.
Qed.

Lemma wide_group (m : match_obj) (n : nat) :
  Wide.group (wide_match m) n = option_map Wide.wide (group m n).
Proof.
  unfold Wide.group, group. simpl.
  destruct (cap n (m_caps m)) as [[a b]|]; simpl; [|reflexivity].
  rewrite wide_slice. reflexivity.
Qed.

Lemma wide_group0 (m : match_obj) :
  Wide.group0 (wide_match m) = Wide.wide (group0 m).
Proof. unfold Wide.group0, group0. simpl. apply wide_slice. Qed.

Lemma wide_sub (pattern : string) (repl s : Py.str) (fl : flags) :
  Wide.sub pattern (Wide.wide repl) (Wide.wide s) fl
  = Wide.wide (sub pattern repl s fl).
Proof.
  unfold Wide.sub, sub, sub_re.
  assert (G : forall xs skip p pv,
             Wide.sub_go fl (compile pattern) (Wide.wide repl) skip p
               (option_map Wide.Latin1 pv) (Wide.wide xs)
             = Wide.wide (sub_go fl (compile pattern) repl skip p pv xs)).
  { induction xs as [|x xs IH]; intros skip p pv.
    - destruct skip; simpl; [|reflexivity].
      rewrite <- (wide_match_at fl (compile pattern)
                    {| pos := p; prev := pv; rest := [] |}).
      unfold wide_cursor. simpl.
      destruct (Wide.match_at _ _ _) as [[e cs]|]; reflexivity.
    - destruct skip; simpl; [|apply (IH skip (S p) (Some x))].
      rewrite <- (wide_match_at fl (compile pattern)
                    {| pos := p; prev := pv; rest := x :: xs |}).
      unfold wide_cursor. simpl.
      destruct (Wide.match_at _ _ _) as [[e cs]|].
      + destruct (p <? e); unfold Wide.wide; rewrite map_app; simpl;
          f_equal; try f_equal; apply (IH _ (S p) (Some x)).
      + unfold Wide.wide. simpl. f_equal. apply (IH 0 (S p) (Some x)). }
  apply (G s 0 0 None).
Qed.

Lemma wide_clean (value : Py.str) (f : field) :
  Wide._clean_extracted_value (Wide.wide value) f
  = Wide.wide (_clean_extracted_value value f).
Proof.
  unfold Wide._clean_extracted_value, _clean_extracted_value.
  rewrite wide_truthy. destruct (truthy value); simpl; [|reflexivity].
  rewrite wide_strip.
  change [Wide.Latin1 space] with (Wide.wide [space]).
  change (@nil Wide.char) with (Wide.wide []).
  rewrite !wide_sub.
  destruct f; try reflexivity.
  - unfold Wide.wide at 1. rewrite length_map.
    destruct (50 <? _); reflexivity.
  - rewrite wide_match_. destruct (match_ _ _ _); reflexivity.
  - rewrite wide_search. destruct (search _ _ _) as [m|]; simpl; [|reflexivity].
    rewrite wide_group0, wide_int. destruct (_ && _)%bool; reflexivity.
Qed.

Lemma wide_try_pattern (f : field) (t : Py.str) (pattern : string) :
  Wide.try_pattern f (Wide.wide t) pattern
  = wide_result (try_pattern f t pattern).
Proof.
  unfold Wide.try_pattern, try_pattern. rewrite wide_search.
  destruct (search pattern t IM) as [m|]; simpl; [|reflexivity].
  rewrite wide_group. destruct (group m 1) as [g|]; simpl; [|reflexivity].
  rewrite wide_strip, wide_clean, wide_truthy.
  destruct (truthy _); reflexivity.
Qed.

Lemma wide_first_accepted (f : field) (t : Py.str) (ps : list string) :
  Wide.first_accepted f (Wide.wide t) ps
  = wide_result (first_accepted f t ps).
Proof.
  induction ps as [|p ps IH]; simpl; [reflexivity|].
  rewrite wide_try_pattern.
  destruct (try_pattern f t p) as [[v|]|e]; simpl; auto.
Qed.

Lemma wide_pattern_pass (fs : list field) (t : Py.str)
    (c : ExtractedCredential) (cw : Wide.ExtractedCredential) :
  (forall f, cw f = wide_credential c f) ->
  match pattern_pass fs t c with
  | Ok c' =>
      exists cw', Wide.pattern_pass fs (Wide.wide t) cw = Ok cw'
                  /\ forall f, cw' f = wide_credential c' f
  | Raise e => Wide.pattern_pass fs (Wide.wide t) cw = Raise e
  end.
Proof.
  revert c cw. induction fs as [|g fs IH]; intros c cw E; simpl.
  - exists cw. split; [reflexivity | exact E].
  - rewrite wide_first_accepted.
    destruct (first_accepted g t (patterns g)) as [r|e]; simpl; [|reflexivity].
    apply IH. intros f. destruct r as [v|]; simpl; [|apply E].
    unfold Wide.setattr, wide_credential, setattr.
    destruct (field_eqb f g); [reflexivity | apply E].
Qed.

End WideFacts.

(** * The field parser *)

Module ParserTheorems.
Import Py Re OCRService Spec PyFacts ReFacts ParserFacts.
Local Open Scope string_scope.

(** C1, as amended: for the certificate sentence the parser returns no
    name, degree "science", issue_year "2015", institution "abc university"
    and specialization "physics in the year" (the clause "in physics in the
    year" is taken out of the degree).  The text is matched in lower case;
    the candidate for the name runs up to the year and is dropped for being
    longer than 50 characters. *)
Theorem parse_certificate_text :
  _parse_credentials certificate_text =
  Ok [ (degree, txt "science");
       (issue_year, txt "2015");
       (institution, txt "abc university");
       (specialization, txt "physics in the year") ].
Proof. vm_compute. reflexivity. Qed.

(** The field map expected of the certificate sentence (name "John Smith",
    a degree containing "Bachelor of Science", specialization "Physics",
    issue_year "2015", an institution containing "ABC University") is not
    what the parser returns. *)
Lemma parse_certificate_text_not_as_expected :
  ~ exists d,
      _parse_credentials certificate_text = Ok d
      /\ lookup name d = Some (txt "John Smith")
      /\ (exists v, lookup degree d = Some v
                    /\ contains (txt "Bachelor of Science") v = true)
      /\ lookup specialization d = Some (txt "Physics")
      /\ lookup issue_year d = Some (txt "2015")
      /\ (exists v, lookup institution d = Some v
                    /\ contains (txt "ABC University") v = true).
Proof.
  intros (d & H & Hname & _).
  vm_compute in H. inversion H; subst d.
  discriminate Hname.
Qed.

(** C2, at the failing input: on "mr. smith" the first two name patterns
    do not match and the third, [mr\.|ms\.|miss\s+(...)], matches "mr."
    through an alternative without group 1; [match.group(1)] is [None] and
    [.strip()] raises [AttributeError]. *)
Theorem honorific_raises :
  _parse_credentials (txt "mr. smith") = Raise AttributeError.
Proof. vm_compute. reflexivity. Qed.

(** The parser raises exactly when the third name pattern is reached and
    matches without its group: through "mr." or "ms.". *)
Lemma parse_raises_iff (text : str) (e : exn) :
  _parse_credentials text = Raise e <->
  e = AttributeError
  /\ passed_over name (lower text)
       "(?:name|candidate|student)[\s\:]*([a-zA-Z\s\.]+)"
  /\ passed_over name (lower text)
       "this\s+is\s+to\s+certify\s+that\s+([a-zA-Z\s\.]+)"
  /\ exists m,
       search "mr\.|ms\.|miss\s+([a-zA-Z\s\.]+)" (lower text) IM = Some m
       /\ group m 1 = None.
Proof.
  unfold _parse_credentials. cbv zeta.
  set (t := lower text).
  assert (Rest : exists others,
             pattern_fields = name :: others
             /\ forall c, exists d,
                  (credentials <- pattern_pass others t c ;;
                   credentials <- _post_process_fields credentials text ;;
                   Ok (dict_exclude_none credentials)) = Ok d).
  { eexists. split; [reflexivity|].
    intros c. destruct (pattern_pass_after_name t c) as (c' & ->). simpl.
    destruct (post_process_returns c' text) as (c'' & ->). simpl. eauto. }
  destruct Rest as (others & -> & Rest).
  cbn [pattern_pass patterns first_accepted].
  destruct (@try_pattern_with_group name t
              "(?:name|candidate|student)[\s\:]*([a-zA-Z\s\.]+)" eq_refl)
    as (r1 & T1).
  destruct (@try_pattern_with_group name t
              "this\s+is\s+to\s+certify\s+that\s+([a-zA-Z\s\.]+)" eq_refl)
    as (r2 & T2).
  rewrite T1. cbn [bind].
  destruct r1 as [v1|].
  - cbn [bind]. destruct (Rest (setattr new_credential name v1)) as (d & ->).
    split; [discriminate|]. intros (_ & P1 & _).
    apply try_pattern_none in P1. fold t in P1. congruence.
  - rewrite T2. cbn [bind]. destruct r2 as [v2|].
    + cbn [bind]. destruct (Rest (setattr new_credential name v2)) as (d & ->).
      split; [discriminate|]. intros (_ & _ & P2 & _).
      apply try_pattern_none in P2. fold t in P2. congruence.
    + destruct (try_pattern name t "mr\.|ms\.|miss\s+([a-zA-Z\s\.]+)")
        as [[v3|]|e3] eqn:T3; cbn [bind].
      * destruct (Rest (setattr new_credential name v3)) as (d & ->).
        split; [discriminate|]. intros (_ & _ & _ & m & Sm & Gm).
        assert (X : try_pattern name t "mr\.|ms\.|miss\s+([a-zA-Z\s\.]+)"
                    = Raise AttributeError)
          by (apply try_pattern_raises; eauto).
        congruence.
      * destruct (Rest new_credential) as (d & ->).
        split; [discriminate|]. intros (_ & _ & _ & m & Sm & Gm).
        assert (X : try_pattern name t "mr\.|ms\.|miss\s+([a-zA-Z\s\.]+)"
                    = Raise AttributeError)
          by (apply try_pattern_raises; eauto).
        congruence.
      * apply try_pattern_raises in T3. destruct T3 as (-> & m & Sm & Gm).
        split.
        -- intros H. inversion H; subst.
           repeat split; try (apply try_pattern_none; assumption). eauto.
        -- intros (-> & _). reflexivity.
Qed.

(** The loop over the patterns of a field: what the pattern pass leaves in
    the slot is the outcome of the loop on the lower-cased text; the loop
    accepts [v] exactly when some pattern, all patterns before it being
    passed over, is accepted with [v]; and the patterns after the accepted
    one have no say: any other tail gives the same value. *)
Lemma pattern_loop_first_match (text : str) (f : field) :
  (forall c,
     pattern_pass pattern_fields (lower text) new_credential = Ok c ->
     first_accepted f (lower text) (patterns f) = Ok (c f))
  /\ (forall v,
        first_accepted f (lower text) (patterns f) = Ok (Some v) <->
        exists before pattern after,
          patterns f = (before ++ pattern :: after)%list
          /\ Forall (passed_over f (lower text)) before
          /\ accepted_with f (lower text) pattern v)
  /\ (forall before pattern after later v,
        Forall (passed_over f (lower text)) before ->
        accepted_with f (lower text) pattern v ->
        first_accepted f (lower text) (before ++ pattern :: after)
        = Ok (Some v)
        /\ first_accepted f (lower text) (before ++ pattern :: later)
           = Ok (Some v)).
Proof.
  assert (PO : forall before,
             Forall (passed_over f (lower text)) before <->
             Forall (fun q => try_pattern f (lower text) q = Ok None) before).
  { intros before. split; intros H; eapply Forall_impl; try exact H;
      intros q Hq; apply try_pattern_none; exact Hq. }
  repeat split.
  - intros c H. apply pattern_pass_result, H.
  - intros H. apply first_accepted_spec in H.
    destruct H as (before & pattern & after & E & B & A).
    exists before, pattern, after. repeat split; auto.
    + apply PO, B.
    + apply try_pattern_some, A.
  - intros (before & pattern & after & E & B & A).
    apply first_accepted_spec. exists before, pattern, after.
    repeat split; auto.
    + apply PO, B.
    + apply try_pattern_some, A.
  - apply first_accepted_spec. exists before, pattern, after.
    repeat split; auto; [apply PO | apply try_pattern_some]; assumption.
  - apply first_accepted_spec. exists before, pattern, later.
    repeat split; auto; [apply PO | apply try_pattern_some]; assumption.
Qed.


(** On any candidate, the year rule accepts exactly when the leftmost
    substring of the shape 19dd or 20dd of the cleaned candidate has a value
    in [1950, 2030], and it then returns that substring; a later substring
    is not looked at. *)
Lemma issue_year_leftmost :
  (forall value y,
     (_clean_extracted_value value issue_year = y /\ y <> []) <->
     (leftmost_year (tidy value) y /\ (1950 <= int y <= 2030)%Z))
  /\ _clean_extracted_value (txt "1899") issue_year = []
  /\ _clean_extracted_value (txt "2021") issue_year = txt "2021".
Proof.
  split; [|split; reflexivity].
  intros value y. rewrite clean_year. split.
  - intros [E N].
    destruct (first_year (tidy value)) as [y0|] eqn:F; [|congruence].
    destruct (_ && _)%bool eqn:R; [|congruence]. subst y0.
    apply andb_prop in R. destruct R as [R1 R2]. apply Z.leb_le in R1, R2.
    split; [apply first_year_found, F | lia].
  - intros [Lm [R1 R2]]. rewrite (@leftmost_year_first _ _ Lm).
    apply Z.leb_le in R1, R2. rewrite R1, R2. split; [reflexivity|].
    destruct Lm as (_ & _ & _ & Sh & _). intros ->. discriminate.
Qed.

(** The candidate "1940 2015", which no year pattern captures, contains
    "2015", of the right shape and in range, and is rejected all the same:
    the search stops at "1940". *)
Lemma issue_year_later_year_ignored :
  ~ (_clean_extracted_value (txt "1940 2015") issue_year <> [] <->
     exists y,
       substring y (tidy (txt "1940 2015")) /\ year_shaped y = true
       /\ (1950 <= int y <= 2030)%Z).
Proof.
  intros [_ H]. apply H; [|reflexivity].
  exists (txt "2015"). split.
  - exists (txt "1940 "), []. reflexivity.
  - split; [reflexivity|]. vm_compute. split; discriminate.
Qed.

(** On a candidate of four digits, which is what the year patterns
    capture, the rule accepts exactly the years in range. *)
Lemma issue_year_four_digits (value : str) :
  List.length value = 4 -> Forall (fun c => isdigit c = true) value ->
  (_clean_extracted_value value issue_year <> [] <->
   exists y,
     substring y (tidy value) /\ year_shaped y = true
     /\ (1950 <= int y <= 2030)%Z).
Proof.
  intros L D. rewrite clean_year, (tidy_digits D).
  destruct value as [|a [|b [|c [|d [|e tl]]]]]; try discriminate L. clear L.
  cbn [first_year year_at].
  split.
  - destruct (year_shape a b c d) eqn:Sh.
    + destruct (_ && _)%bool eqn:R; [|congruence]. intros _.
      apply andb_prop in R. destruct R as [R1 R2]. apply Z.leb_le in R1, R2.
      exists [a; b; c; d]. split; [exists [], []; reflexivity|].
      split; [exact Sh | lia].
    + assert (F : first_year [b; c; d] = None) by reflexivity.
      cbn [first_year year_at] in *. congruence.
  - intros (y & (pre & suf & E) & Sh & R1 & R2).
    assert (Ey : y = [a; b; c; d]).
    { pose proof (year_shaped_length _ Sh) as Ly.
      assert (Lt : List.length (pre ++ y ++ suf) = 4) by (rewrite <- E; reflexivity).
      rewrite !length_app, Ly in Lt.
      destruct pre; [|simpl in Lt; lia]. destruct suf; [|simpl in Lt; lia].
      simpl in E. rewrite app_nil_r in E. congruence. }
    subst y. simpl in Sh. rewrite Sh.
    apply Z.leb_le in R1, R2. rewrite R1, R2. discriminate.
Qed.

(** C9: every value of the field map the parser returns, the institution
    and the specialization set by the post-processing among them, has been
    through the cleaning (only characters of [[\w\s.\-/()&]], white space
    being plain spaces) and satisfies the rule of its field: a name has at
    most 50 characters, a roll number is 2 to 20 characters of
    [[a-zA-Z0-9/-]], an issue year is four digits with a value in
    [1950, 2030]. *)
Theorem stored_values_valid (text : str) (d : list (field * str)) (f : field)
    (v : str) :
  _parse_credentials text = Ok d -> In (f, v) d -> valid f v.
Proof.
  intros H Hin. apply parse_stages in H. destruct H as (c1 & c2 & P1 & P2 & ->).
  apply in_dict in Hin.
  assert (A : forall g w, c1 g = Some w ->
                          exists x, w = _clean_extracted_value x g /\ w <> []).
  { intros g w W. pose proof (pattern_pass_result _ g P1) as R. rewrite W in R.
    apply first_accepted_cleaned in R.
    destruct R as (_ & _ & x & _ & _ & _ & E & N). eauto. }
  split.
  - assert (K : f <> institution -> cleaned v).
    { intros Nf. eapply post_process_chars; [|exact P2|exact Nf|exact Hin].
      intros g w _ W. destruct (A g w W) as (x & -> & _). apply clean_cleaned. }
    destruct f; try (apply K; discriminate).
    destruct (post_process_institution _ _ P2 Hin) as [E|[_ Fi]].
    + destruct (A _ _ E) as (x & -> & _). apply clean_cleaned.
    + apply (find_institution_cleaned _ _ Fi).
  - assert (K : f <> institution -> f <> specialization -> f <> degree ->
                rule f v).
    { intros Ni Ns Nd. rewrite (post_process_keeps _ _ P2 Ni Ns Nd) in Hin.
      destruct (A _ _ Hin) as (x & -> & N). apply clean_rule.
      destruct (_clean_extracted_value x f); [contradiction|reflexivity]. }
    destruct f; try exact Logic.I; apply K; discriminate.
Qed.

Lemma stored_values_valid_witness :
  valid roll_number (txt "cs/2015/042").
Proof.
  apply (@stored_values_valid (txt "Roll No: CS/2015/042")
           [(roll_number, txt "cs/2015/042")] roll_number
           (txt "cs/2015/042")).
  - vm_compute. reflexivity.
  - left. reflexivity.
Defined.



End ParserTheorems.

(** * Text extraction *)

Module ExtractionTheorems.
Import Py Re OCRService Spec PyFacts.
Local Open Scope string_scope.

Section Any.
Context {raster pil_image : Type} (lib : libraries raster pil_image).

(** *** [_preprocess_image] *)

(** The one exception [_preprocess_image] lets through is that of
    [cv2.imread], which is raised in the [try] block and again in the
    handler. *)
Lemma preprocess_raises (fs : files) (image_path : path) (e : exn) :
  _preprocess_image lib fs image_path = Raise e <->
  imread lib fs image_path = Raise e.
Proof.
  unfold _preprocess_image, try_except.
  destruct (imread lib fs image_path) as [found|e0]; cbn [bind].
  - split; [|discriminate].
    destruct (bind _ _) as [img|e1]; [discriminate|].
    destruct found; discriminate.
  - split; intros H; inversion H; reflexivity.
Qed.

Lemma preprocess_returns (fs : files) (image_path : path)
    (found : option raster) :
  imread lib fs image_path = Ok found ->
  exists img, _preprocess_image lib fs image_path = Ok img.
Proof.
  intros C. destruct (_preprocess_image lib fs image_path) as [img|e] eqn:P;
    [eauto|].
  apply preprocess_raises in P. congruence.
Qed.

Lemma preprocess_undecodable (fs : files) (image_path : path) (e : exn) :
  imread lib fs image_path = Ok None ->
  open_image lib fs image_path = Raise e ->
  _preprocess_image lib fs image_path = Ok (np_empty lib).
Proof.
  intros C P. unfold _preprocess_image. rewrite C. cbn [bind].
  rewrite P. reflexivity.
Qed.

Lemma preprocess_keeps_cv2_image (fs : files) (image_path : path)
    (img out : raster) :
  imread lib fs image_path = Ok (Some img) ->
  _preprocess_image lib fs image_path = Ok out ->
  out = img
  \/ exists gray denoised,
       cv2_cvtColor lib img COLOR_BGR2GRAY = Ok gray
       /\ cv2_fastNlMeansDenoising lib gray = Ok denoised
       /\ cv2_adaptiveThreshold lib denoised 255 ADAPTIVE_THRESH_GAUSSIAN_C
            THRESH_BINARY 11 2 = Ok out.
Proof.
  intros C. unfold _preprocess_image. rewrite C. cbn [bind].
  destruct (cv2_cvtColor lib img COLOR_BGR2GRAY) as [gray|] eqn:G;
    cbn [bind try_except];
    [|intros H; inversion H; subst; left; reflexivity].
  destruct (cv2_fastNlMeansDenoising lib gray) as [denoised|] eqn:Dn;
    cbn [bind try_except];
    [|intros H; inversion H; subst; left; reflexivity].
  destruct (cv2_adaptiveThreshold lib denoised 255 _ _ 11 2) as [p|] eqn:T;
    cbn [bind try_except]; intros H; inversion H; subst;
    [|left; reflexivity].
  right. exists gray, denoised. auto.
Qed.

(** With a file OpenCV cannot decode the outcome is the empty array unless
    every step succeeds, whatever Pillow made of the file. *)
Lemma preprocess_without_cv2 (fs : files) (image_path : path) (out : raster) :
  imread lib fs image_path = Ok None ->
  _preprocess_image lib fs image_path = Ok out ->
  out = np_empty lib
  \/ exists pil_img img gray denoised,
       open_image lib fs image_path = Ok pil_img
       /\ cv2_cvtColor lib (np_array lib pil_img) COLOR_RGB2BGR = Ok img
       /\ cv2_cvtColor lib img COLOR_BGR2GRAY = Ok gray
       /\ cv2_fastNlMeansDenoising lib gray = Ok denoised
       /\ cv2_adaptiveThreshold lib denoised 255 ADAPTIVE_THRESH_GAUSSIAN_C
            THRESH_BINARY 11 2 = Ok out.
Proof.
  intros C. unfold _preprocess_image. rewrite C. cbn [bind].
  destruct (open_image lib fs image_path) as [pil_img|] eqn:O;
    cbn [bind try_except];
    [|intros H; inversion H; subst; left; reflexivity].
  destruct (cv2_cvtColor lib (np_array lib pil_img) COLOR_RGB2BGR)
    as [img|] eqn:B; cbn [bind try_except];
    [|intros H; inversion H; subst; left; reflexivity].
  destruct (cv2_cvtColor lib img COLOR_BGR2GRAY) as [gray|] eqn:G;
    cbn [bind try_except];
    [|intros H; inversion H; subst; left; reflexivity].
  destruct (cv2_fastNlMeansDenoising lib gray) as [denoised|] eqn:Dn;
    cbn [bind try_except];
    [|intros H; inversion H; subst; left; reflexivity].
  destruct (cv2_adaptiveThreshold lib denoised 255 _ _ 11 2) as [p|] eqn:T;
    cbn [bind try_except]; intros H; inversion H; subst;
    [|left; reflexivity].
  right. exists pil_img, img, gray, denoised. auto.
Qed.

(** *** [_extract_from_pdf] *)

(** A scanned page whose recognition succeeds: the page image is written,
    read and removed. *)
Lemma scanned_page_cleaned_up (file_path : path) (page_num : nat)
    (page : fitz_page) (doc : list fitz_page) (full_text : str) (total : Q)
    (count : nat) (fs : files) (text : str) (png : bytes) (page_text : str)
    (page_confidence : Q) :
  get_text page = Ok text -> truthy (strip text) = false ->
  get_pixmap_png page = Ok png ->
  _ocr_image lib (write fs (temp_page file_path page_num) png)
    (temp_page file_path page_num) = Ok (page_text, page_confidence) ->
  pages_loop lib file_path page_num (page :: doc) full_text total count fs
  = pages_loop lib file_path (S page_num) doc
      (full_text ++ page_text ++ [newline])%list
      (float_add lib total page_confidence) (S count)
      (unlink (write fs (temp_page file_path page_num) png)
         (temp_page file_path page_num)).
Proof.
  intros T B P O. simpl. rewrite T, B, P, O. reflexivity.
Qed.

(** A scanned page whose recognition raises: the loop is left with the
    page image on disk. *)
Lemma scanned_page_left_behind (file_path : path) (page_num : nat)
    (page : fitz_page) (doc : list fitz_page) (full_text : str) (total : Q)
    (count : nat) (fs : files) (text : str) (png : bytes) (e : exn) :
  get_text page = Ok text -> truthy (strip text) = false ->
  get_pixmap_png page = Ok png ->
  _ocr_image lib (write fs (temp_page file_path page_num) png)
    (temp_page file_path page_num) = Raise e ->
  pages_loop lib file_path page_num (page :: doc) full_text total count fs
  = (Raise e, write fs (temp_page file_path page_num) png).
Proof.
  intros T B P O. simpl. rewrite T, B, P, O. reflexivity.
Qed.

Lemma pages_loop_text_layer (file_path : path) :
  forall texts pages page_num full_text total count fs,
    map get_text pages = map Ok texts ->
    Forall (fun t => truthy (strip t) = true) texts ->
    pages_loop lib file_path page_num pages full_text total count fs =
    (Ok ((full_text ++ page_lines texts)%list,
         fold_left (float_add lib) (map (fun _ => 0.95%Q) texts) total,
         count + List.length texts), fs).
Proof.
  induction texts as [|t texts IH]; intros pages page_num full_text total count fs E F.
  - destruct pages; [|discriminate]. simpl.
    rewrite app_nil_r, Nat.add_0_r. reflexivity.
  - destruct pages as [|page pages]; [discriminate|]. simpl in E.
    inversion E as [[Et Ep]]. inversion F as [|? ? Ft Fs]; subst.
    simpl. rewrite Et, Ft. rewrite (IH pages); auto.
    unfold page_lines. simpl. rewrite <- !app_assoc.
    replace (count + S (List.length texts)) with (S count + List.length texts) by lia.
    reflexivity.
Qed.


Lemma fallback_loop_spec (pages : list (result str)) :
  forall full_text t,
    fallback_loop pages full_text = Ok t <->
    exists texts, pages = map Ok texts /\ t = (full_text ++ page_lines texts)%list.
Proof.
  induction pages as [|page pages IH]; intros full_text t; simpl.
  - split.
    + intros H. inversion H; subst. exists []. rewrite app_nil_r. auto.
    + intros ([|? ?] & E & ->); [|discriminate]. rewrite app_nil_r. reflexivity.
  - destruct page as [text|e]; simpl.
    + rewrite IH. split.
      * intros (texts & -> & ->). exists (text :: texts).
        unfold page_lines. simpl. rewrite <- !app_assoc. auto.
      * intros ([|t0 texts] & E & ->); [discriminate|].
        inversion E; subst. exists texts.
        unfold page_lines. simpl. rewrite <- !app_assoc. auto.
    + split; [discriminate|].
      intros ([|t0 texts] & E & _); discriminate.
Qed.

(** C3, as amended: for a document that opens and whose every page has a
    text layer that is not blank, [_extract_from_pdf] returns the page
    texts, each followed by a newline, concatenated in page order and
    stripped of leading and trailing white space; the confidence is what
    the code computes from one 0.95 per page, added up in page order and
    divided by the number of pages, whatever the additions and the division
    round to; a document without pages gives the empty text and 0; no file
    is touched. *)
Theorem pdf_text_layer (file_path : path) (fs : files) (data : bytes)
    (pages : list fitz_page) (texts : list str) :
  fs file_path = Some data ->
  fitz_open lib data = Ok pages ->
  map get_text pages = map Ok texts ->
  Forall (fun t => truthy (strip t) = true) texts ->
  _extract_from_pdf lib file_path fs
  = (Ok (strip (page_lines texts),
         average lib
           (fold_left (float_add lib) (map (fun _ => 0.95%Q) texts) 0%Q)
           (List.length texts)), fs)
  /\ (texts = [] -> _extract_from_pdf lib file_path fs = (Ok ([], 0%Q), fs)).
Proof.
  intros F O E T.
  assert (R : _extract_from_pdf lib file_path fs
              = (Ok (strip (page_lines texts),
                     average lib
                       (fold_left (float_add lib)
                          (map (fun _ => 0.95%Q) texts) 0%Q)
                       (List.length texts)), fs)).
  { unfold _extract_from_pdf, pdf_with_fitz. rewrite F, O.
    rewrite (@pages_loop_text_layer file_path texts pages 0 [] 0%Q 0 fs E T).
    reflexivity. }
  split; [exact R|]. intros ->. rewrite R. reflexivity.
Qed.

(** C4: when the attempt with PyMuPDF raises, the result of
    [_extract_from_pdf] is that of one call of the fallback, on the files
    the attempt left; the fallback returns the page texts of PyPDF2, each
    followed by a newline, concatenated and stripped, with confidence 0.8,
    and what it raises is raised by [_extract_from_pdf]. *)
Theorem pdf_fallback_once (file_path : path) (fs fs' : files) (e : exn) :
  pdf_with_fitz lib file_path fs = (Raise e, fs') ->
  _extract_from_pdf lib file_path fs
  = (_extract_from_pdf_fallback lib file_path fs', fs')
  /\ (forall r,
        _extract_from_pdf_fallback lib file_path fs' = Ok r <->
        exists data texts,
          fs' file_path = Some data
          /\ PdfReader lib data = Ok (map Ok texts)
          /\ r = (strip (page_lines texts), 0.8%Q))
  /\ (forall e',
        _extract_from_pdf_fallback lib file_path fs' = Raise e' ->
        fst (_extract_from_pdf lib file_path fs) = Raise e').
Proof.
  intros H.
  assert (E : _extract_from_pdf lib file_path fs
              = (_extract_from_pdf_fallback lib file_path fs', fs')).
  { unfold _extract_from_pdf. rewrite H. reflexivity. }
  split; [exact E|]. split.
  - intros r. unfold _extract_from_pdf_fallback, try_except.
    destruct (fs' file_path) as [data|] eqn:D0.
    + destruct (PdfReader lib data) as [pages|e0] eqn:P0; simpl.
      * destruct (fallback_loop pages []) as [t|e1] eqn:L; simpl.
        -- apply fallback_loop_spec in L. destruct L as (texts & -> & ->).
           split.
           ++ intros R. inversion R; subst. exists data, texts. auto.
           ++ intros (data' & texts' & D & P & ->). inversion D; subst data'.
              rewrite P0 in P. inversion P as [P'].
              apply (f_equal (map (fun x : result str =>
                                     match x with Ok t => t | Raise _ => [] end)))
                in P'.
              rewrite !map_map, !map_id in P'. subst. reflexivity.
        -- split; [discriminate|].
           intros (data' & texts' & D & P & ->). inversion D; subst data'.
           rewrite P0 in P. inversion P; subst pages.
           assert (X : fallback_loop (map Ok texts') []
                       = Ok ([] ++ page_lines texts')%list).
           { apply fallback_loop_spec. exists texts'. auto. }
           congruence.
      * split; [discriminate|].
        intros (data' & texts' & D & P & _). inversion D; subst data'.
        congruence.
    + split; [discriminate|]. intros (data' & texts' & D & _). discriminate.
  - intros e' R. rewrite E, R. reflexivity.
Qed.

End Any.

Lemma pdf_text_layer_witness :
  _extract_from_pdf born_digital document (disk document [])
  = (Ok (strip (page_lines [hello; world]),
         average born_digital
           (fold_left (float_add born_digital)
              (map (fun _ => 0.95%Q) [hello; world]) 0%Q)
           (List.length [hello; world])), disk document [])
  /\ ([hello; world] = [] ->
      _extract_from_pdf born_digital document (disk document [])
      = (Ok ([], 0%Q), disk document [])).
Proof.
  apply (@pdf_text_layer nat nat born_digital document (disk document []) []
           [text_page hello; text_page world] [hello; world]).
  - reflexivity.
  - reflexivity.
  - reflexivity.
  - repeat constructor.
Defined.

(** The text returned for the two pages "Hello" and "World", both with a
    text layer, is neither the page texts joined by newlines nor the page
    texts each followed by a newline: the white space at the end is
    gone. *)
Lemma pdf_text_not_literal :
  Forall (fun t => truthy (strip t) = true) [hello; world]
  /\ ~ (exists conf,
          fst (_extract_from_pdf born_digital document (disk document []))
          = Ok (join [newline] [hello; world], conf))
  /\ ~ (exists conf,
          fst (_extract_from_pdf born_digital document (disk document []))
          = Ok (page_lines [hello; world], conf)).
Proof.
  split; [repeat constructor|].
  split; intros (conf & H); vm_compute in H; discriminate H.
Qed.

Lemma pdf_fallback_once_witness :
  _extract_from_pdf fitz_fails document (disk document [])
  = (_extract_from_pdf_fallback fitz_fails document (disk document []),
     disk document [])
  /\ (forall r,
        _extract_from_pdf_fallback fitz_fails document (disk document [])
        = Ok r <->
        exists data texts,
          disk document [] document = Some data
          /\ PdfReader fitz_fails data = Ok (map Ok texts)
          /\ r = (strip (page_lines texts), 0.8%Q))
  /\ (forall e',
        _extract_from_pdf_fallback fitz_fails document (disk document [])
        = Raise e' ->
        fst (_extract_from_pdf fitz_fails document (disk document []))
        = Raise e').
Proof.
  apply (@pdf_fallback_once nat nat fitz_fails document (disk document [])
           (disk document []) (LibraryError 2)).
  reflexivity.
Defined.

(** C5, at the failing input: OpenCV cannot decode the picture, Pillow
    decodes it as raster 7, denoising fails; the empty array is returned,
    not the decoded picture. *)
Theorem preprocess_drops_pillow_image :
  (pil_img <- open_image pillow_only (disk photo (txt "tiff")) photo ;;
   cv2_cvtColor pillow_only (np_array pillow_only pil_img) COLOR_RGB2BGR)
  = Ok 7
  /\ cv2_fastNlMeansDenoising pillow_only 7 = Raise (LibraryError 3)
  /\ _preprocess_image pillow_only (disk photo (txt "tiff")) photo
     = Ok (np_empty pillow_only)
  /\ np_empty pillow_only <> 7.
Proof. repeat split; try reflexivity. discriminate. Qed.

(** C6, at the failing input: a scanned page on which the recognition
    raises; the page image written for it is still on disk when
    [_extract_from_pdf] returns. *)
Theorem temp_page_left_behind :
  pdf_with_fitz ocr_fails document (disk document (txt "pdf"))
  = (Raise (LibraryError 4),
     write (disk document (txt "pdf")) (temp_page document 0) (txt "png"))
  /\ snd (_extract_from_pdf ocr_fails document (disk document (txt "pdf")))
       (temp_page document 0) = Some (txt "png").
Proof. split; reflexivity. Qed.

End ExtractionTheorems.

(** * Properties of the whole service

    What follows goes beyond the field parser and the extraction of the
    text of one file: the parser on whole classes of texts,
    [extract_credentials], the endpoints of [main] and the database. *)

(** ** Facts about strings *)

Module StringFacts.
Import Py Spec.

Lemma substring_trans (a b c : str) :
  substring a b -> substring b c -> substring a c.
Proof.
  intros (p1 & s1 & ->) (p2 & s2 & ->).
  exists (p2 ++ p1)%list, (s1 ++ s2)%list. rewrite <- !app_assoc. reflexivity.
Qed.

Lemma lstrip_suffix (s : str) : exists pre, s = (pre ++ lstrip s)%list.
Proof.
  induction s as [|c s (pre & E)]; simpl.
  - exists []. reflexivity.
  - destruct (isspace c).
    + exists (c :: pre). simpl. congruence.
    + exists []. reflexivity.
Qed.

Lemma rstrip_prefix (s : str) : exists suf, s = (rstrip s ++ suf)%list.
Proof.
  unfold rstrip. destruct (lstrip_suffix (rev s)) as (pre & E).
  exists (rev pre). rewrite <- rev_app_distr, <- E, rev_involutive. reflexivity.
Qed.

Lemma strip_substring (s : str) : substring (strip s) s.
Proof.
  unfold strip. destruct (lstrip_suffix s) as (pre & E).
  destruct (rstrip_prefix (lstrip s)) as (suf & E').
  exists pre, suf. rewrite <- E', <- E. reflexivity.
Qed.

Lemma slice_substring (s : str) (a b : nat) : substring (slice s a b) s.
Proof.
  unfold slice. exists (firstn a s), (skipn (b - a) (skipn a s)).
  rewrite firstn_skipn, firstn_skipn. reflexivity.
Qed.

Lemma lstrip_idem (s : str) : lstrip (lstrip s) = lstrip s.
Proof.
  induction s as [|c s IH]; simpl; auto.
  destruct (isspace c) eqn:E; auto. simpl. rewrite E. reflexivity.
Qed.

Lemma lstrip_snoc (s : str) (x : ascii) :
  isspace x = false -> lstrip (s ++ [x]) = (lstrip s ++ [x])%list.
Proof.
  intros X. induction s as [|c s IH]; simpl.
  - rewrite X. reflexivity.
  - destruct (isspace c); auto.
Qed.

Lemma rstrip_cons (x : ascii) (s : str) :
  isspace x = false -> rstrip (x :: s) = x :: rstrip s.
Proof.
  intros X. unfold rstrip. simpl. rewrite (@lstrip_snoc _ _ X).
  rewrite rev_app_distr. reflexivity.
Qed.

Lemma rstrip_idem (s : str) : rstrip (rstrip s) = rstrip s.
Proof. unfold rstrip. rewrite rev_involutive, lstrip_idem. reflexivity. Qed.

Lemma lstrip_head (s : str) :
  match lstrip s with c :: _ => isspace c = false | [] => True end.
Proof.
  induction s as [|c s IH]; simpl; auto.
  destruct (isspace c) eqn:E; auto.
Qed.

(** [strip] changes nothing the second time. *)
Lemma strip_idem (s : str) : strip (strip s) = strip s.
Proof.
  unfold strip. pose proof (lstrip_head s) as H.
  destruct (lstrip s) as [|c l]; [reflexivity|].
  rewrite (@rstrip_cons _ _ H). simpl. rewrite H.
  rewrite <- (@rstrip_cons _ _ H), rstrip_idem. reflexivity.
Qed.

Lemma rstrip_app_space (s : str) (x : ascii) :
  isspace x = true -> rstrip (s ++ [x]) = rstrip s.
Proof.
  intros X. unfold rstrip. rewrite rev_app_distr. simpl. rewrite X. reflexivity.
Qed.

Lemma strip_app_space (s : str) (x : ascii) :
  isspace x = true -> strip (s ++ [x]) = strip s.
Proof.
  intros X. unfold strip. induction s as [|c s IH]; simpl.
  - rewrite X. reflexivity.
  - destruct (isspace c) eqn:E; auto.
    change (c :: (s ++ [x])%list) with ((c :: s) ++ [x])%list.
    apply rstrip_app_space, X.
Qed.

Lemma strip_plain (s : str) :
  Forall (fun c => plain_char c = true) s -> strip s = s.
Proof.
  assert (L : forall t, Forall (fun c => plain_char c = true) t -> lstrip t = t).
  { intros t H. destruct H as [|c t Hc Ht]; simpl; auto.
    unfold plain_char in Hc. apply andb_prop in Hc. destruct Hc as [Hc _].
    destruct (isspace c); [discriminate|reflexivity]. }
  intros H. unfold strip, rstrip. rewrite (L s H).
  rewrite L by (apply Forall_rev, H). apply rev_involutive.
Qed.

Lemma list_of_append (a b : string) :
  list_ascii_of_string (a ++ b)
  = (list_ascii_of_string a ++ list_ascii_of_string b)%list.
Proof. induction a as [|c a IH]; simpl; congruence. Qed.

Lemma append_inv_tail (a b c : string) : (a ++ c = b ++ c)%string -> a = b.
Proof.
  intros E. apply (f_equal list_ascii_of_string) in E.
  rewrite !list_of_append in E. apply app_inv_tail in E.
  rewrite <- (string_of_list_ascii_of_string a),
    <- (string_of_list_ascii_of_string b), E. reflexivity.
Qed.

Lemma str_of_int_inj (n m : nat) :
  str_of_int (Z.of_nat n) = str_of_int (Z.of_nat m) -> n = m.
Proof.
  unfold str_of_int. intros E.
  apply (f_equal string_of_list_ascii) in E.
  rewrite !string_of_list_ascii_of_string in E.
  apply (f_equal DecimalString.NilEmpty.uint_of_string) in E.
  rewrite !DecimalString.NilEmpty.usu in E. inversion E as [E'].
  apply (f_equal N.of_uint) in E'. rewrite !DecimalN.Unsigned.of_to in E'.
  apply Z2N.inj in E'; lia.
Qed.

Lemma last_app_nonempty (a b : str) (d : ascii) :
  b <> [] -> last (a ++ b) d = last b d.
Proof.
  intros N. induction a as [|c a IH]; simpl; auto.
  destruct (a ++ b)%list eqn:E; auto.
  destruct a; simpl in E; [contradiction|discriminate].
Qed.

Lemma last_lower (s : str) (d : ascii) :
  last (lower s) (lower_char d) = lower_char (last s d).
Proof.
  induction s as [|c s IH]; simpl; auto.
  destruct s; simpl in *; auto.
Qed.

Lemma firstn_add (A : Type) (n m : nat) (l : list A) :
  firstn (n + m) l = (firstn n l ++ firstn m (skipn n l))%list.
Proof.
  revert l. induction n as [|n IH]; intros [|a l]; simpl; auto.
  - rewrite firstn_nil. reflexivity.
  - rewrite IH. reflexivity.
Qed.

End StringFacts.

(** ** More facts about the matcher *)

Module MatcherFacts.
Import Py Re OCRService Spec PyFacts ReFacts ParserFacts StringFacts.

(** *** Expressions that need a letter *)

Lemma lower_char_letter (c : ascii) : isletter (lower_char c) = isletter c.
Proof. destruct c as [[] [] [] [] [] [] [] []]; reflexivity. Qed.

Lemma lower_no_letter (s : str) : no_letter s -> no_letter (lower s).
Proof.
  unfold no_letter, lower. intros H.
  induction H as [|c s Hc Hs IH]; simpl; constructor; auto.
  rewrite lower_char_letter. exact Hc.
Qed.

Lemma lit_needs_letter (fl : flags) (c x : ascii) :
  isletter c = true -> isletter x = false -> lit_matches fl c x = false.
Proof.
  intros Hc Hx. unfold lit_matches. destruct (ignorecase fl).
  - destruct (Ascii.eqb (lower_char c) (lower_char x)) eqn:E; auto.
    apply Ascii.eqb_eq in E.
    rewrite <- (lower_char_letter c), E, lower_char_letter in Hc. congruence.
  - destruct (Ascii.eqb c x) eqn:E; auto.
    apply Ascii.eqb_eq in E. congruence.
Qed.

(** An expression that demands a letter matches nowhere in a text without
    letters. *)
Lemma exec_needs_letter (fl : flags) (r : regex) :
  demands_letter r = true ->
  forall k cu cs, no_letter (rest cu) -> exec fl r k cu cs = None.
Proof.
  induction r as [|c| |neg items| | |r1 IH1 r2 IH2|r1 IH1 r2 IH2
                  |g lo hi r1 IH1|n r1 IH1];
    intros D k cu cs N; cbn [demands_letter] in D; try discriminate D;
    cbn [exec].
  - unfold one. destruct (rest cu) as [|x xs]; auto.
    inversion N; subst. rewrite lit_needs_letter; auto.
  - apply orb_prop in D. destruct D as [D|D].
    + apply IH1; assumption.
    + rewrite exec_ext with (k' := fun _ _ => None).
      * apply exec_fails. reflexivity.
      * intros n cs' Hn _. apply IH2; auto.
        rewrite forward_rest by exact Hn. apply Forall_skipn, N.
  - apply andb_prop in D. destruct D as [D1 D2].
    rewrite IH1, IH2; auto.
  - apply andb_prop in D. destruct D as [L D]. apply Nat.leb_le in L.
    assert (Z : (lo <=? 0) = false) by (apply Nat.leb_gt; lia).
    destruct (List.length (rest cu)) as [|f].
    + simpl. rewrite Z. reflexivity.
    + rewrite rep_loop_S, Z, IH1 by assumption.
      destruct g, (below 0 hi); reflexivity.
  - apply IH1; assumption.
Qed.

Lemma search_needs_letter (pattern : string) (s : str) (fl : flags) :
  demands_letter (compile pattern) = true -> no_letter s ->
  search pattern s fl = None.
Proof.
  intros D N. unfold search, search_re.
  assert (Sc : forall xs p pv, no_letter xs ->
                               scan fl (compile pattern) s p pv xs = None).
  { induction xs as [|x xs IH]; intros p pv Nx; simpl; unfold match_at;
      rewrite (@exec_needs_letter fl _ D) by exact Nx; auto.
    inversion Nx; subst. apply IH. assumption. }
  apply Sc, N.
Qed.

(** *** A repeat that takes everything *)

Section RepAll.
Variables (body : cont -> cont) (ok : ascii -> bool).
Hypothesis Hbody : forall k cu cs, body k cu cs = one ok k cu cs.
Variables (lo h : nat) (k : cont).

(** A greedy repeat of a one-character expression takes all the characters
    ahead when they all fit and the bounds allow it. *)
Lemma rep_one_all :
  forall fuel cnt cu cs o,
    List.length (rest cu) <= fuel ->
    Forall (fun c => ok c = true) (rest cu) ->
    cnt + List.length (rest cu) <= h ->
    lo <= cnt + List.length (rest cu) ->
    k (forward (List.length (rest cu)) cu) cs = Some o ->
    rep_loop body true lo (Some h) k fuel cnt cu cs = Some o.
Proof.
  induction fuel as [|f IH]; intros cnt cu cs o Hf Hok Hh Hlo Hk.
  - destruct (rest cu) as [|x xs] eqn:R; [|simpl in Hf; lia].
    simpl in *. rewrite Nat.add_0_r in Hlo.
    rewrite (proj2 (Nat.leb_le _ _) Hlo). exact Hk.
  - rewrite (@rep_one_step _ _ Hbody).
    destruct (rest cu) as [|x xs] eqn:R.
    + simpl in *. rewrite Nat.add_0_r in Hlo.
      rewrite (proj2 (Nat.leb_le _ _) Hlo). exact Hk.
    + inversion Hok as [|? ? Hx Hxs]; subst. simpl in Hf, Hh, Hlo.
      assert (B : below cnt (Some h) = true).
      { simpl. apply Nat.ltb_lt. lia. }
      rewrite B, Hx. cbn [andb].
      rewrite (IH (S cnt) (step x xs cu) cs o); auto; simpl; try lia.
      simpl in Hk. rewrite R in Hk. exact Hk.
Qed.
End RepAll.

Lemma roll_matches (s : str) :
  roll_valid s ->
  exists m, match_ "^[a-zA-Z0-9\/\-]{2,20}$" s no_flags = Some m.
Proof.
  intros [[L2 L20] Hid]. unfold match_. rewrite roll_compiled.
  unfold match_re, match_at, roll_ast.
  set (idc := Cls false _). cbn [exec]. cbn [at_bol start_of prev].
  assert (D : forall k cu cs, exec no_flags idc k cu cs = one id_char k cu cs).
  { intros k cu cs0. subst idc. simpl. unfold one. destruct (rest cu); auto.
    rewrite id_class. reflexivity. }
  rewrite (@rep_one_all _ _ D 2 20 _ _ 0 _ [] (List.length s, [])); cbn [rest];
    auto; try (simpl; lia).
  - eexists. reflexivity.
  - unfold at_eol. rewrite forward_rest by (simpl; lia). cbn [rest].
    rewrite skipn_all. unfold accept.
    rewrite forward_pos_exact by (simpl; lia). reflexivity.
Qed.

(** The cleaning leaves a string alone that holds no white space and no
    character it removes. *)
Lemma tidy_plain (s : str) :
  Forall (fun c => plain_char c = true) s -> tidy s = s.
Proof.
  intros H. unfold tidy, sub, sub_re.
  rewrite (strip_plain H), spaces_compiled, unwanted_compiled.
  rewrite (@sub_go_untouched plain_char no_flags spaces_ast [space]); auto.
  - rewrite (@sub_go_untouched plain_char no_flags unwanted_ast []); auto.
    intros p pv x xs Hx. unfold match_at, unwanted_ast. cbn [exec].
    unfold plain_char in Hx. apply andb_prop in Hx. destruct Hx as [_ Hx].
    rewrite one_cons, unwanted_class, Hx. reflexivity.
  - intros p pv x xs Hx. unfold match_at, spaces_ast. cbn [exec].
    assert (D : forall k cu cs,
               exec no_flags (Cls false [CSpace]) k cu cs = one isspace k cu cs).
    { intros k cu cs0. simpl. unfold one. destruct (rest cu); auto.
      rewrite space_class. reflexivity. }
    cbn [rest List.length]. rewrite (@rep_one_step _ _ D). cbn [rest].
    unfold plain_char in Hx. apply andb_prop in Hx. destruct Hx as [Hx _].
    destruct (isspace x); [discriminate Hx|]. rewrite andb_false_r. reflexivity.
Qed.

Lemma id_char_plain (c : ascii) : id_char c = true -> plain_char c = true.
Proof. destruct c as [[] [] [] [] [] [] [] []]; vm_compute; congruence. Qed.

(** *** Where a search stops *)

Lemma scan_found (fl : flags) (r : regex) (s : str) (m : match_obj) :
  forall xs p pv,
    scan fl r s p pv xs = Some m ->
    exists n cu,
      rest cu = skipn n xs
      /\ match_at fl r cu = Some (m_end m, m_caps m).
Proof.
  induction xs as [|x xs IH]; intros p pv; simpl;
    destruct (match_at fl r _) as [[e cs]|] eqn:M; intros H;
    try discriminate H.
  - inversion H; subst. exists 0. eexists. split; [|exact M]. reflexivity.
  - inversion H; subst. exists 0. eexists. split; [|exact M]. reflexivity.
  - apply IH in H. destruct H as (n & cu & R & M'). exists (S n), cu. auto.
Qed.

Lemma contains_skipn (needle : str) :
  forall hay n, starts_with needle (skipn n hay) = true ->
                contains needle hay = true.
Proof.
  induction hay as [|c hay IH]; intros n H.
  - destruct n; simpl in *; rewrite H; reflexivity.
  - destruct n as [|n]; simpl in H.
    + cbn [contains]. rewrite H. reflexivity.
    + cbn [contains]. rewrite (IH n H). apply orb_true_r.
Qed.

Lemma lit_lower (c x : ascii) :
  isupper c = false -> isupper x = false -> lit_matches IM c x = true -> x = c.
Proof.
  unfold lit_matches, lower_char. cbn [ignorecase IM].
  intros -> -> E. apply Ascii.eqb_eq in E. congruence.
Qed.

Lemma honorific_compiled :
  compile "mr\.|ms\.|miss\s+([a-zA-Z\s\.]+)" = honorific_ast.
Proof. reflexivity. Qed.

(** A match of the third name pattern without its group starts at "mr." or
    at "ms.". *)
Lemma honorific_without_group (cu : cursor) (o : outcome) :
  no_upper (rest cu) ->
  match_at IM honorific_ast cu = Some o -> cap 1 (snd o) = None ->
  starts_with (txt "mr.") (rest cu) = true
  \/ starts_with (txt "ms.") (rest cu) = true.
Proof.
  intros U M G. unfold match_at, honorific_ast in M.
  set (miss := Seq (Lit "m") (Seq (Lit "i") _)) in M.
  cbn [exec] in M.
  assert (Three : forall a b c,
             isupper a = false -> isupper b = false -> isupper c = false ->
             one (lit_matches IM a)
               (fun cu' cs' =>
                  one (lit_matches IM b)
                    (fun cu'' cs'' => one (lit_matches IM c) accept cu'' cs'')
                    cu' cs') cu [] <> None ->
             starts_with [a; b; c] (rest cu) = true).
  { intros a b c Ha Hb Hc. unfold one. cbn [rest step].
    destruct (rest cu) as [|x [|y [|z tl]]] eqn:R; try congruence;
      inversion U as [|? ? Ux U1]; subst.
    - destruct (lit_matches IM a x); congruence.
    - inversion U1 as [|? ? Uy U2]; subst.
      destruct (lit_matches IM a x); [|congruence].
      destruct (lit_matches IM b y); congruence.
    - inversion U1 as [|? ? Uy U2]; subst. inversion U2 as [|? ? Uz U3]; subst.
      destruct (lit_matches IM a x) eqn:A; [|congruence].
      destruct (lit_matches IM b y) eqn:B; [|congruence].
      destruct (lit_matches IM c z) eqn:C; [|congruence].
      intros _. apply lit_lower in A, B, C; auto. subst.
      simpl. rewrite !Ascii.eqb_refl. reflexivity. }
  destruct (one (lit_matches IM "m") _ cu []) as [o1|] eqn:A.
  - left. apply (Three "m" "r" ".")%char; auto. rewrite A. discriminate.
  - destruct (one (lit_matches IM "m") _ cu []) as [o2|] eqn:B in M.
    + right. apply (Three "m" "s" ".")%char; auto. rewrite B. discriminate.
    + exfalso.
      assert (S1 : gives_group 1 any_caps (exec IM miss accept)).
      { apply exec_sets; [reflexivity|].
        intros cu' cs' o' H E. inversion E; subst. exact H. }
      apply (S1 cu [] o Logic.I M G).
Qed.

(** *** What a group holds *)

Lemma in_all_chars (x : ascii) : In x all_chars.
Proof.
  unfold all_chars. apply in_map_iff. exists (nat_of_ascii x). split.
  - apply ascii_nat_embedding.
  - apply in_seq. pose proof (nat_ascii_bounded x). lia.
Qed.

Lemma forall_chars (p : ascii -> bool) (x : ascii) :
  forallb p all_chars = true -> p x = true.
Proof. intros H. rewrite forallb_forall in H. apply H, in_all_chars. Qed.

Lemma cursor_forward (s : str) (n : nat) (cu : cursor) :
  cursor_of s cu -> n <= List.length (rest cu) -> cursor_of s (forward n cu).
Proof.
  unfold cursor_of. intros C H.
  rewrite forward_rest, forward_pos_exact by exact H.
  rewrite C, skipn_skipn, Nat.add_comm. reflexivity.
Qed.

Section Inversion.
Variables (fl : flags) (s : str) (g : nat) (ok : ascii -> bool).

Lemma went_one (p : ascii -> bool) (takes : bool) (k : cont) (cu : cursor)
    (cs : caps) (o : outcome) :
  (takes = true -> forall x, p x = true -> ok x = true) ->
  one p k cu cs = Some o -> went_through s g ok takes true k cu cs o.
Proof.
  intros T. unfold one. destruct (rest cu) as [|x xs] eqn:R; [discriminate|].
  destruct (p x) eqn:X; [|discriminate]. intros H.
  exists 1, cs. simpl. rewrite R.
  repeat split; auto; simpl; lia.
Qed.

Lemma rep_loop_inversion (r : regex) (gr : bool) (lo : nat) (hi : option nat)
    (k : cont) :
  (forall k' cu cs o,
     cursor_of s cu -> exec fl r k' cu cs = Some o ->
     went_through s g ok (takes_only fl ok r) (group_takes_only fl g ok r)
       k' cu cs o) ->
  forall fuel cnt cu cs o,
    cursor_of s cu ->
    rep_loop (exec fl r) gr lo hi k fuel cnt cu cs = Some o ->
    went_through s g ok (takes_only fl ok r) (group_takes_only fl g ok r)
      k cu cs o.
Proof.
  intros Hr.
  assert (Stop : forall cnt cu cs o,
             (if lo <=? cnt then k cu cs else None) = Some o ->
             went_through s g ok (takes_only fl ok r)
               (group_takes_only fl g ok r) k cu cs o).
  { intros cnt cu cs o H. destruct (lo <=? cnt); [|discriminate H].
    exists 0, cs. simpl. repeat split; auto. lia. }
  induction fuel as [|f IH]; intros cnt cu cs o C H.
  - simpl in H. apply (Stop cnt), H.
  - rewrite rep_loop_S in H.
    assert (Again : forall o',
               (if below cnt hi
                then exec fl r
                       (fun cu' cs' =>
                          if pos cu <? pos cu'
                          then rep_loop (exec fl r) gr lo hi k f (S cnt) cu' cs'
                          else None) cu cs
                else None) = Some o' ->
               went_through s g ok (takes_only fl ok r)
                 (group_takes_only fl g ok r) k cu cs o').
    { intros o' A. destruct (below cnt hi); [|discriminate A].
      apply Hr in A; [|exact C].
      destruct A as (n1 & cs1 & Hn1 & K1 & T1 & G1).
      destruct (pos cu <? pos (forward n1 cu)); [|discriminate K1].
      apply IH in K1; [|apply cursor_forward; assumption].
      destruct K1 as (n2 & cs2 & Hn2 & K2 & T2 & G2).
      rewrite forward_length in Hn2 by exact Hn1.
      exists (n1 + n2), cs2. repeat split.
      - lia.
      - rewrite <- forward_forward by exact Hn1. exact K2.
      - intros T. rewrite firstn_add. apply Forall_app. split; auto.
        rewrite <- forward_rest by exact Hn1. auto.
      - auto. }
    destruct gr.
    + destruct (if below cnt hi then _ else None) as [o'|] eqn:A.
      * inversion H; subst. apply Again. reflexivity.
      * apply (Stop cnt), H.
    + destruct (if lo <=? cnt then k cu cs else None) as [o'|] eqn:S0.
      * inversion H; subst. apply (Stop cnt), S0.
      * apply Again, H.
Qed.

(** A run of [exec] that succeeds, read backwards. *)
Lemma exec_inversion (r : regex) :
  forall k cu cs o,
    cursor_of s cu -> exec fl r k cu cs = Some o ->
    went_through s g ok (takes_only fl ok r) (group_takes_only fl g ok r)
      k cu cs o.
Proof.
  induction r as [|c| |neg items| | |r1 IH1 r2 IH2|r1 IH1 r2 IH2
                  |gr lo hi r1 IH1|m r1 IH1];
    intros k cu cs o C H; cbn [exec] in H;
    cbn [takes_only group_takes_only].
  - exists 0, cs. simpl. repeat split; auto. lia.
  - apply (@went_one (lit_matches fl c) _ k cu cs o); auto.
    intros T x X. apply (forall_chars _ x) in T. cbv beta in T.
    rewrite X in T. exact T.
  - apply (@went_one (fun x => negb (Ascii.eqb x newline)) _ k cu cs o); auto.
    intros T x X. apply (forall_chars _ x) in T. cbv beta in T.
    rewrite X in T. exact T.
  - apply (@went_one (cls_matches fl neg items) _ k cu cs o); auto.
    intros T x X. apply (forall_chars _ x) in T. cbv beta in T.
    rewrite X in T. exact T.
  - destruct (at_bol fl cu); [|discriminate H].
    exists 0, cs. simpl. repeat split; auto. lia.
  - destruct (at_eol fl cu); [|discriminate H].
    exists 0, cs. simpl. repeat split; auto. lia.
  - apply IH1 in H; [|exact C].
    destruct H as (n1 & cs1 & Hn1 & K1 & T1 & G1).
    apply IH2 in K1; [|apply cursor_forward; assumption].
    destruct K1 as (n2 & cs2 & Hn2 & K2 & T2 & G2).
    rewrite forward_length in Hn2 by exact Hn1.
    exists (n1 + n2), cs2. repeat split.
    + lia.
    + rewrite <- forward_forward by exact Hn1. exact K2.
    + intros T. apply andb_prop in T. destruct T as [Ta Tb].
      rewrite firstn_add. apply Forall_app. split; auto.
      rewrite <- forward_rest by exact Hn1. auto.
    + intros G. apply andb_prop in G. destruct G as [Ga Gb]. auto.
  - destruct (exec fl r1 k cu cs) as [o'|] eqn:A.
    + inversion H; subst. apply IH1 in A; [|exact C].
      destruct A as (n & cs' & Hn & K & T & G). exists n, cs'.
      repeat split; auto.
      * intros X. apply andb_prop in X. tauto.
      * intros X. apply andb_prop in X. tauto.
    + apply IH2 in H; [|exact C].
      destruct H as (n & cs' & Hn & K & T & G). exists n, cs'.
      repeat split; auto.
      * intros X. apply andb_prop in X. tauto.
      * intros X. apply andb_prop in X. tauto.
  - eapply rep_loop_inversion; eauto.
  - apply IH1 in H; [|exact C].
    destruct H as (n & cs' & Hn & K & T & G).
    exists n, ((m, (pos cu, pos (forward n cu))) :: cs').
    repeat split; auto.
    intros X Gc a b. cbn [cap].
    destruct (m =? g) eqn:E.
    + intros Sp. inversion Sp; subst a b.
      rewrite forward_pos_exact by exact Hn.
      unfold slice. replace (pos cu + n - pos cu) with n by lia.
      rewrite <- C. apply T, X.
    + apply G; assumption.
Qed.

End Inversion.

(** The first group of a match holds characters the expression lets it
    take. *)
Lemma group_chars (pattern : string) (s : str) (fl : flags) (ok : ascii -> bool)
    (m : match_obj) (v : str) :
  group_takes_only fl 1 ok (compile pattern) = true ->
  search pattern s fl = Some m -> group m 1 = Some v ->
  Forall (fun c => ok c = true) v.
Proof.
  intros G Sr V. unfold search, search_re in Sr.
  assert (Sc : forall xs p pv,
             xs = skipn p s ->
             scan fl (compile pattern) s p pv xs = Some m ->
             span_ok s 1 ok (m_caps m) /\ m_string m = s).
  { induction xs as [|x xs IH]; intros p pv E; simpl;
      destruct (match_at fl (compile pattern) _) as [[e cs]|] eqn:M; intros H;
      try discriminate H.
    - inversion H; subst m. cbn [m_caps m_string]. split; [|reflexivity].
      apply (@exec_inversion fl s 1 ok) in M; [|exact E].
      destruct M as (n & cs' & _ & K & _ & Gk). inversion K; subst.
      apply Gk; [exact G|]. intros a b Z. discriminate Z.
    - inversion H; subst m. cbn [m_caps m_string]. split; [|reflexivity].
      apply (@exec_inversion fl s 1 ok) in M; [|exact E].
      destruct M as (n & cs' & _ & K & _ & Gk). inversion K; subst.
      apply Gk; [exact G|]. intros a b Z. discriminate Z.
    - apply (IH (S p) (Some x)); [|exact H].
      symmetry. apply skipn_cons_S with (x := x). symmetry. exact E. }
  destruct (Sc s 0 None eq_refl Sr) as [Sp Ms].
  unfold group in V. destruct (cap 1 (m_caps m)) as [[a b]|] eqn:Cp;
    [|discriminate V].
  inversion V; subst v. rewrite Ms. apply (Sp a b Cp).
Qed.

(** *** How many characters a group holds *)

Section Width.
Variables (fl : flags) (s : str) (g w : nat).

Lemma one_width (p : ascii -> bool) (k : cont) (cu : cursor) (cs : caps)
    (o : outcome) :
  one p k cu cs = Some o -> went_wide s g w (Some 1) true k cu cs o.
Proof.
  unfold one. destruct (rest cu) as [|x xs] eqn:R; [discriminate|].
  destruct (p x); [|discriminate]. intros H.
  exists 1, cs. simpl. rewrite R. repeat split; auto.
  - simpl. lia.
  - intros a E. inversion E. reflexivity.
Qed.

Lemma rep_loop_width (r : regex) (gr : bool) (lo : nat) (hi : option nat)
    (k : cont) :
  (forall k' cu cs o,
     cursor_of s cu -> exec fl r k' cu cs = Some o ->
     went_wide s g w (width r) (group_width g w r) k' cu cs o) ->
  forall fuel cnt cu cs o,
    cursor_of s cu ->
    rep_loop (exec fl r) gr lo hi k fuel cnt cu cs = Some o ->
    exists n cs',
      n <= List.length (rest cu)
      /\ k (forward n cu) cs' = Some o
      /\ (forall a, width r = Some a -> hi = Some lo -> cnt <= lo ->
                    n = a * (lo - cnt))
      /\ (group_width g w r = true -> span_wide s g w cs ->
          span_wide s g w cs').
Proof.
  intros Hr.
  assert (Stop : forall cnt cu cs o,
             (if lo <=? cnt then k cu cs else None) = Some o ->
             exists n cs',
               n <= List.length (rest cu)
               /\ k (forward n cu) cs' = Some o
               /\ (forall a, width r = Some a -> hi = Some lo -> cnt <= lo ->
                             n = a * (lo - cnt))
               /\ (group_width g w r = true -> span_wide s g w cs ->
                   span_wide s g w cs')).
  { intros cnt cu cs o H. destruct (lo <=? cnt) eqn:L; [|discriminate H].
    apply Nat.leb_le in L.
    exists 0, cs. simpl. repeat split; auto; [lia|].
    intros a _ _ Le. replace (lo - cnt) with 0 by lia. lia. }
  induction fuel as [|f IH]; intros cnt cu cs o C H.
  - simpl in H. apply (Stop cnt), H.
  - rewrite rep_loop_S in H.
    assert (Again : forall o',
               (if below cnt hi
                then exec fl r
                       (fun cu' cs' =>
                          if pos cu <? pos cu'
                          then rep_loop (exec fl r) gr lo hi k f (S cnt) cu' cs'
                          else None) cu cs
                else None) = Some o' ->
               exists n cs',
                 n <= List.length (rest cu)
                 /\ k (forward n cu) cs' = Some o'
                 /\ (forall a, width r = Some a -> hi = Some lo -> cnt <= lo ->
                               n = a * (lo - cnt))
                 /\ (group_width g w r = true -> span_wide s g w cs ->
                     span_wide s g w cs')).
    { intros o' A. destruct (below cnt hi) eqn:B; [|discriminate A].
      apply Hr in A; [|exact C].
      destruct A as (n1 & cs1 & Hn1 & K1 & W1 & G1).
      destruct (pos cu <? pos (forward n1 cu)); [|discriminate K1].
      apply IH in K1; [|apply cursor_forward; assumption].
      destruct K1 as (n2 & cs2 & Hn2 & K2 & W2 & G2).
      rewrite forward_length in Hn2 by exact Hn1.
      exists (n1 + n2), cs2. repeat split.
      - lia.
      - rewrite <- forward_forward by exact Hn1. exact K2.
      - intros a Wa Hh Le. subst hi. simpl in B. apply Nat.ltb_lt in B.
        rewrite (W1 a Wa), (W2 a Wa eq_refl) by lia.
        replace (lo - cnt) with (S (lo - S cnt)) by lia. lia.
      - auto. }
    destruct gr.
    + destruct (if below cnt hi then _ else None) as [o'|] eqn:A.
      * inversion H; subst. apply Again. reflexivity.
      * apply (Stop cnt), H.
    + destruct (if lo <=? cnt then k cu cs else None) as [o'|] eqn:S0.
      * inversion H; subst. apply (Stop cnt), S0.
      * apply Again, H.
Qed.

(** A run of [exec] that succeeds, read backwards for the count. *)
Lemma exec_width (r : regex) :
  forall k cu cs o,
    cursor_of s cu -> exec fl r k cu cs = Some o ->
    went_wide s g w (width r) (group_width g w r) k cu cs o.
Proof.
  induction r as [|c| |neg items| | |r1 IH1 r2 IH2|r1 IH1 r2 IH2
                  |gr lo hi r1 IH1|m r1 IH1];
    intros k cu cs o C H; cbn [exec] in H; cbn [width group_width].
  - exists 0, cs. simpl. repeat split; auto; try lia. intros a E. inversion E. reflexivity.
  - eapply one_width, H.
  - eapply one_width, H.
  - eapply one_width, H.
  - destruct (at_bol fl cu); [|discriminate H].
    exists 0, cs. simpl. repeat split; auto; try lia. intros a E. inversion E. reflexivity.
  - destruct (at_eol fl cu); [|discriminate H].
    exists 0, cs. simpl. repeat split; auto; try lia. intros a E. inversion E. reflexivity.
  - apply IH1 in H; [|exact C].
    destruct H as (n1 & cs1 & Hn1 & K1 & W1 & G1).
    apply IH2 in K1; [|apply cursor_forward; assumption].
    destruct K1 as (n2 & cs2 & Hn2 & K2 & W2 & G2).
    rewrite forward_length in Hn2 by exact Hn1.
    exists (n1 + n2), cs2. repeat split.
    + lia.
    + rewrite <- forward_forward by exact Hn1. exact K2.
    + intros a E. destruct (width r1) as [a1|]; [|discriminate E].
      destruct (width r2) as [a2|]; [|discriminate E].
      inversion E. rewrite (W1 a1 eq_refl), (W2 a2 eq_refl). reflexivity.
    + intros G. apply andb_prop in G. destruct G as [Ga Gb]. auto.
  - destruct (exec fl r1 k cu cs) as [o'|] eqn:A.
    + inversion H; subst. apply IH1 in A; [|exact C].
      destruct A as (n & cs' & Hn & K & W & G). exists n, cs'.
      repeat split; auto.
      * intros a E. destruct (width r1) as [a1|]; [|discriminate E].
        destruct (width r2) as [a2|]; [|discriminate E].
        destruct (a1 =? a2); [|discriminate E]. inversion E; subst. auto.
      * intros X. apply andb_prop in X. tauto.
    + apply IH2 in H; [|exact C].
      destruct H as (n & cs' & Hn & K & W & G). exists n, cs'.
      repeat split; auto.
      * intros a E. destruct (width r1) as [a1|]; [|discriminate E].
        destruct (width r2) as [a2|]; [|discriminate E].
        destruct (a1 =? a2) eqn:Q; [|discriminate E]. inversion E; subst.
        apply Nat.eqb_eq in Q. subst. auto.
      * intros X. apply andb_prop in X. tauto.
  - apply (@rep_loop_width r1 gr lo hi k IH1) in H; [|exact C].
    destruct H as (n & cs' & Hn & K & W & G). exists n, cs'.
    repeat split; auto.
    intros a E. destruct hi as [h|]; [|discriminate E].
    destruct (width r1) as [a1|]; [|discriminate E].
    destruct (lo =? h) eqn:Q; [|discriminate E]. inversion E; subst.
    apply Nat.eqb_eq in Q. subst h.
    rewrite (W a1 eq_refl eq_refl) by lia. rewrite Nat.sub_0_r. reflexivity.
  - apply IH1 in H; [|exact C].
    destruct H as (n & cs' & Hn & K & W & G).
    exists n, ((m, (pos cu, pos (forward n cu))) :: cs').
    repeat split; auto.
    intros X Gc a b. cbn [cap].
    destruct (m =? g) eqn:E.
    + intros Sp. inversion Sp; subst a b.
      rewrite forward_pos_exact by exact Hn.
      unfold slice. replace (pos cu + n - pos cu) with n by lia.
      rewrite <- C. rewrite length_firstn, Nat.min_l by exact Hn.
      destruct (width r1) as [a1|]; [|discriminate X].
      apply Nat.eqb_eq in X. rewrite (W a1 eq_refl). exact X.
    + apply G; assumption.
Qed.

End Width.

(** The first group of a match has the width the expression gives it. *)
Lemma group_length (pattern : string) (s : str) (fl : flags) (w : nat)
    (m : match_obj) (v : str) :
  group_width 1 w (compile pattern) = true ->
  search pattern s fl = Some m -> group m 1 = Some v ->
  List.length v = w.
Proof.
  intros G Sr V. unfold search, search_re in Sr.
  assert (Sc : forall xs p pv,
             xs = skipn p s ->
             scan fl (compile pattern) s p pv xs = Some m ->
             span_wide s 1 w (m_caps m) /\ m_string m = s).
  { induction xs as [|x xs IH]; intros p pv E; simpl;
      destruct (match_at fl (compile pattern) _) as [[e cs]|] eqn:M; intros H;
      try discriminate H.
    - inversion H; subst m. cbn [m_caps m_string]. split; [|reflexivity].
      apply (@exec_width fl s 1 w) in M; [|exact E].
      destruct M as (n & cs' & _ & K & _ & Gk). inversion K; subst.
      apply Gk; [exact G|]. intros a b Z. discriminate Z.
    - inversion H; subst m. cbn [m_caps m_string]. split; [|reflexivity].
      apply (@exec_width fl s 1 w) in M; [|exact E].
      destruct M as (n & cs' & _ & K & _ & Gk). inversion K; subst.
      apply Gk; [exact G|]. intros a b Z. discriminate Z.
    - apply (IH (S p) (Some x)); [|exact H].
      symmetry. apply skipn_cons_S with (x := x). symmetry. exact E. }
  destruct (Sc s 0 None eq_refl Sr) as [Sp Ms].
  unfold group in V. destruct (cap 1 (m_caps m)) as [[a b]|] eqn:Cp;
    [|discriminate V].
  inversion V; subst v. rewrite Ms. apply (Sp a b Cp).
Qed.

End MatcherFacts.

(** ** More facts about the parser *)

Module PostFacts.
Import Py Re OCRService Spec PyFacts ReFacts ParserFacts MatcherFacts.
Local Open Scope string_scope.

Lemma first_accepted_needs_letter (f : field) (t : str) (ps : list string) :
  Forall (fun p => demands_letter (compile p) = true) ps -> no_letter t ->
  first_accepted f t ps = Ok None.
Proof.
  intros D N. induction D as [|p ps Hp Hps IH]; simpl; auto.
  unfold try_pattern. rewrite (@search_needs_letter p t IM Hp N). simpl.
  exact IH.
Qed.

Lemma find_institution_needs_letter (ps : list string) (raw : str) :
  Forall (fun p => demands_letter (compile p) = true) ps -> no_letter raw ->
  find_institution ps raw = None.
Proof.
  intros D N. induction D as [|p ps Hp Hps IH]; simpl; auto.
  rewrite (@search_needs_letter p raw I Hp N). exact IH.
Qed.

Lemma lookup_dict (c : ExtractedCredential) (f : field) :
  lookup f (dict_exclude_none c) = c f.
Proof.
  unfold dict_exclude_none, model_fields. cbn [flat_map].
  destruct f;
    destruct (c name), (c roll_number), (c degree), (c issue_year),
      (c institution), (c grade), (c specialization), (c certificate_number);
    reflexivity.
Qed.

(** The slots other than the institution after the post-processing: they
    do not depend on the raw text. *)
Lemma post_process_split (c c' : ExtractedCredential) (raw : str) (f : field) :
  _post_process_fields c raw = Ok c' -> f <> institution ->
  c' f = split_degree c f.
Proof.
  unfold _post_process_fields, split_degree. intros H Nf.
  set (c1 := if falsy (c institution) then _ else c) in H.
  assert (E1 : forall g, g <> institution -> c1 g = c g).
  { intros g Ng. subst c1. destruct (falsy (c institution)); auto.
    destruct (find_institution _ _); auto. apply setattr_other, Ng. }
  rewrite <- !(E1 degree), <- !(E1 specialization), <- (E1 f) by
      (assumption || discriminate).
  clearbody c1.
  destruct (c1 degree) as [deg|]; [|inversion H; reflexivity].
  destruct (truthy deg && falsy (c1 specialization))%bool;
    [|inversion H; reflexivity].
  destruct (search _ deg I) as [m|]; [|inversion H; reflexivity].
  destruct (group m 1) as [g|]; [|discriminate H].
  inversion H; subst. unfold setattr.
  destruct (field_eqb f degree), (field_eqb f specialization); reflexivity.
Qed.

Lemma post_process_institution_slot (c c' : ExtractedCredential) (raw : str) :
  _post_process_fields c raw = Ok c' ->
  c' institution =
  if falsy (c institution) then
    match find_institution institution_indicators raw with
    | Some inst_name => Some inst_name
    | None => c institution
    end
  else c institution.
Proof.
  unfold _post_process_fields. intros H.
  set (c1 := if falsy (c institution) then _ else c) in H.
  assert (E1 : c' institution = c1 institution).
  { destruct (c1 degree) as [deg|]; [|inversion H; subst; reflexivity].
    destruct (truthy deg && falsy (c1 specialization))%bool;
      [|inversion H; subst; reflexivity].
    destruct (search _ deg I) as [m|]; [|inversion H; subst; reflexivity].
    destruct (group m 1) as [g|]; [|discriminate].
    inversion H; subst. rewrite !setattr_other; auto; discriminate. }
  rewrite E1. subst c1. destruct (falsy (c institution)); auto.
  destruct (find_institution _ _); auto.
Qed.

Lemma find_institution_long (ps : list string) (raw v : str) :
  find_institution ps raw = Some v -> (10 < List.length v)%nat.
Proof.
  induction ps as [|p ps IH]; simpl; [discriminate|].
  destruct (search p raw I) as [m|]; auto.
  destruct (10 <? _)%nat eqn:L; auto.
  intros H. inversion H; subst. apply Nat.ltb_lt in L. exact L.
Qed.

(** The pattern pass, once it has returned: what a slot holds is not
    empty. *)
Lemma pattern_pass_nonempty (t : str) (c : ExtractedCredential) (f : field)
    (v : str) :
  pattern_pass pattern_fields t new_credential = Ok c -> c f = Some v ->
  v <> [].
Proof.
  intros P V. pose proof (pattern_pass_result _ f P) as R. rewrite V in R.
  apply first_accepted_cleaned in R.
  destruct R as (_ & _ & _ & _ & _ & _ & _ & N). exact N.
Qed.

Lemma pattern_pass_no_specialization (t : str) (c : ExtractedCredential) :
  pattern_pass pattern_fields t new_credential = Ok c -> c specialization = None.
Proof.
  intros P. pose proof (pattern_pass_result _ specialization P) as R.
  simpl in R. inversion R. reflexivity.
Qed.

End PostFacts.

(** ** The rules of the pattern pass *)

Module ParserRules.
Import Py Re OCRService Spec PyFacts ReFacts ParserFacts ParserTheorems
  StringFacts MatcherFacts PostFacts.
Open Scope nat_scope.

(** C7: whenever the parser returns a field map for a text, the pattern
    pass has run on the lower-cased text and has returned a credential; a
    slot of that credential holds [v] exactly when some pattern of the field,
    every pattern declared before it being passed over (no match, or a
    candidate cleaned to the empty string), matches the lower-cased text with
    a first group whose stripped and cleaned value is [v], not empty; the
    patterns after the accepted one have no say, any other tail of the list
    gives the same value; and the field map returns these values: as they
    are for the name, the roll number, the issue year, the grade and the
    certificate number, as it is for an institution that was accepted, and
    for the degree and the specialization after the split of the degree. *)
Theorem first_match_wins (text : str) (d : list (field * str)) :
  _parse_credentials text = Ok d ->
  exists c,
    pattern_pass pattern_fields (lower text) new_credential = Ok c
    /\ (forall f, first_accepted f (lower text) (patterns f) = Ok (c f))
    /\ (forall f v, c f = Some v <-> first_accepted_with f (lower text) v)
    /\ (forall f before pattern after later v,
          Forall (passed_over f (lower text)) before ->
          accepted_with f (lower text) pattern v ->
          first_accepted f (lower text) (before ++ pattern :: after)
          = Ok (Some v)
          /\ first_accepted f (lower text) (before ++ pattern :: later)
             = Ok (Some v))
    /\ (forall f,
          In f [name; roll_number; issue_year; grade; certificate_number] ->
          lookup f d = c f)
    /\ (forall v, c institution = Some v -> lookup institution d = Some v)
    /\ (forall f, f <> institution -> lookup f d = split_degree c f).
Proof.
  intros H. apply parse_stages in H. destruct H as (c1 & c2 & P1 & P2 & ->).
  exists c1. split; [exact P1|].
  split; [intros f; apply pattern_pass_result, P1|].
  split.
  { intros f v. destruct (pattern_loop_first_match text f) as (R & S & _).
    rewrite <- (S v), (R c1 P1). split; congruence. }
  split.
  { intros f. destruct (pattern_loop_first_match text f) as (_ & _ & T).
    exact T. }
  split.
  { intros f Hf. rewrite lookup_dict.
    apply (post_process_keeps _ _ P2);
      simpl in Hf; intuition (subst; discriminate). }
  split.
  { intros v V. rewrite lookup_dict, (post_process_institution_slot _ _ P2), V.
    pose proof (pattern_pass_nonempty _ _ P1 V) as N.
    destruct v; [contradiction|reflexivity]. }
  intros f Nf. rewrite lookup_dict. apply (post_process_split _ _ P2 Nf).
Qed.

Lemma first_match_wins_witness :
  exists c,
    pattern_pass pattern_fields (lower (txt "Roll No: CS/2015/042"))
      new_credential = Ok c
    /\ (forall f,
          first_accepted f (lower (txt "Roll No: CS/2015/042")) (patterns f)
          = Ok (c f))
    /\ (forall f v,
          c f = Some v <->
          first_accepted_with f (lower (txt "Roll No: CS/2015/042")) v)
    /\ (forall f before pattern after later v,
          Forall (passed_over f (lower (txt "Roll No: CS/2015/042"))) before ->
          accepted_with f (lower (txt "Roll No: CS/2015/042")) pattern v ->
          first_accepted f (lower (txt "Roll No: CS/2015/042"))
            (before ++ pattern :: after) = Ok (Some v)
          /\ first_accepted f (lower (txt "Roll No: CS/2015/042"))
               (before ++ pattern :: later) = Ok (Some v))
    /\ (forall f,
          In f [name; roll_number; issue_year; grade; certificate_number] ->
          lookup f [(roll_number, txt "cs/2015/042")] = c f)
    /\ (forall v,
          c institution = Some v ->
          lookup institution [(roll_number, txt "cs/2015/042")] = Some v)
    /\ (forall f,
          f <> institution ->
          lookup f [(roll_number, txt "cs/2015/042")] = split_degree c f).
Proof.
  apply (@first_match_wins (txt "Roll No: CS/2015/042")
           [(roll_number, txt "cs/2015/042")]).
  vm_compute. reflexivity.
Defined.

(** C8: a candidate of the issue year is the first group of a match of one
    of the year patterns, stripped, and that is four digits, whatever the
    text; on four digits the year rule accepts exactly when the cleaned
    candidate contains a substring of four digits that starts with 19 or 20
    and has a value in [1950, 2030], and it then stores that substring,
    which is the decimal string of its value; "1899" is rejected and "2021"
    is stored as "2021". *)
Theorem issue_year_rule :
  (forall text pattern m g,
     In pattern (patterns issue_year) ->
     search pattern (lower text) IM = Some m -> group m 1 = Some g ->
     List.length (strip g) = 4 /\ Forall (fun c => isdigit c = true) (strip g))
  /\ (forall value,
        List.length value = 4 -> Forall (fun c => isdigit c = true) value ->
        (_clean_extracted_value value issue_year <> [] <->
         exists y,
           substring y (tidy value) /\ year_shaped y = true
           /\ (1950 <= int y <= 2030)%Z)
        /\ (forall y,
              substring y (tidy value) -> year_shaped y = true ->
              (1950 <= int y <= 2030)%Z ->
              _clean_extracted_value value issue_year = y
              /\ y = str_of_int (int y)))
  /\ _clean_extracted_value (txt "1899") issue_year = []
  /\ _clean_extracted_value (txt "2021") issue_year = txt "2021".
Proof.
  split; [|split; [|split; reflexivity]].
  - intros text pattern m g Hin Sr G.
    assert (D : Forall (fun c => isdigit c = true) g).
    { revert Sr G. apply group_chars.
      simpl in Hin.
      repeat (destruct Hin as [<-|Hin]; [vm_compute; reflexivity|]).
      contradiction. }
    rewrite (strip_digits D). split; [|exact D].
    revert Sr G. apply group_length.
    simpl in Hin.
    repeat (destruct Hin as [<-|Hin]; [vm_compute; reflexivity|]).
    contradiction.
  - intros value L D. split; [apply issue_year_four_digits; assumption|].
    intros y (pre & suf & E) Sh [R1 R2].
    split; [|symmetry; apply year_canonical, Sh].
    rewrite (tidy_digits D) in E.
    pose proof (year_shaped_length _ Sh) as Ly.
    assert (Lt : List.length (pre ++ y ++ suf) = 4) by (rewrite <- E; exact L).
    rewrite !length_app, Ly in Lt.
    destruct pre; [|simpl in Lt; lia]. destruct suf; [|simpl in Lt; lia].
    simpl in E. rewrite app_nil_r in E. subst y.
    rewrite clean_year, (tidy_digits D).
    destruct value as [|a [|b [|c [|d [|e tl]]]]]; try discriminate L.
    cbn [first_year year_at]. simpl in Sh. rewrite Sh.
    apply Z.leb_le in R1, R2. rewrite R1, R2. reflexivity.
Qed.

End ParserRules.

(** ** The field parser, on classes of texts *)

Module ParserProperties.
Import Py Re OCRService Spec PyFacts ReFacts ParserFacts StringFacts
  MatcherFacts PostFacts.
Local Open Scope string_scope.

(** X1: a text without a letter of [a-zA-Z] gives the empty field map,
    and the parser does not raise on it: every pattern of the service, and
    every indicator of an institution, needs a letter to match. *)
Theorem no_letters_no_fields (text : str) :
  no_letter text -> _parse_credentials text = Ok [].
Proof.
  intros N. unfold _parse_credentials. cbv zeta.
  pose proof (lower_no_letter N) as NL.
  assert (A : forall f,
             In f pattern_fields ->
             first_accepted f (lower text) (patterns f) = Ok None).
  { intros f Hf. apply first_accepted_needs_letter; [|exact NL].
    simpl in Hf.
    repeat (destruct Hf as [<-|Hf]; [repeat constructor|]). contradiction. }
  unfold pattern_fields in *. cbn [pattern_pass].
  rewrite !A by (simpl; auto 10). cbn [bind].
  unfold _post_process_fields. cbn [new_credential falsy].
  rewrite find_institution_needs_letter; [reflexivity| |exact N].
  repeat constructor.
Qed.

Lemma no_letters_no_fields_witness :
  _parse_credentials (txt "2015 / 042 - 17.5 %") = Ok [].
Proof.
  apply (@no_letters_no_fields (txt "2015 / 042 - 17.5 %")).
  repeat constructor.
Defined.

(** X2: two texts that differ in the case of their letters only are
    parsed alike: the parser raises on both or on neither, and the field
    maps hold the same values for every field but the institution, which
    the post-processing may take from the text as it is written. *)
Theorem parse_ignores_case (text text' : str) :
  lower text = lower text' ->
  (forall e,
     _parse_credentials text = Raise e <-> _parse_credentials text' = Raise e)
  /\ (forall d d' f,
        _parse_credentials text = Ok d -> _parse_credentials text' = Ok d' ->
        f <> institution -> lookup f d = lookup f d').
Proof.
  intros L. split.
  - intros e. unfold _parse_credentials. cbv zeta. rewrite L.
    destruct (pattern_pass pattern_fields (lower text') new_credential)
      as [c1|e0]; [|reflexivity].
    cbn [bind].
    destruct (post_process_returns c1 text) as (c2 & ->).
    destruct (post_process_returns c1 text') as (c2' & ->).
    cbn [bind]. split; discriminate.
  - intros d d' f H H' Nf.
    apply parse_stages in H, H'.
    destruct H as (c1 & c2 & P1 & P2 & ->).
    destruct H' as (c1' & c2' & P1' & P2' & ->).
    rewrite L, P1' in P1. inversion P1; subst c1'.
    rewrite !lookup_dict.
    rewrite (@post_process_split _ _ _ _ P2 Nf),
      (@post_process_split _ _ _ _ P2' Nf).
    reflexivity.
Qed.

Lemma parse_ignores_case_witness :
  (forall e,
     _parse_credentials (txt "Roll No: AB12") = Raise e <->
     _parse_credentials (txt "ROLL NO: ab12") = Raise e)
  /\ (forall d d' f,
        _parse_credentials (txt "Roll No: AB12") = Ok d ->
        _parse_credentials (txt "ROLL NO: ab12") = Ok d' ->
        f <> institution -> lookup f d = lookup f d').
Proof.
  apply (@parse_ignores_case (txt "Roll No: AB12") (txt "ROLL NO: ab12")).
  reflexivity.
Defined.

Lemma starts_with_three (a b c : ascii) (xs : str) :
  starts_with [a; b; c] xs = true -> exists tl, xs = a :: b :: c :: tl.
Proof.
  destruct xs as [|x [|y [|z tl]]]; simpl; intros H; try discriminate H;
    destruct (Ascii.eqb a x) eqn:A; try discriminate H;
    destruct (Ascii.eqb b y) eqn:B; try discriminate H;
    destruct (Ascii.eqb c z) eqn:C; try discriminate H.
  apply Ascii.eqb_eq in A, B, C. subst. eauto.
Qed.

(** Where "mr." or "ms." occurs, the expression [mr\.|ms\.] has a match. *)
Lemma honorific_found (s : str) :
  forall xs p pv,
    contains (txt "mr.") xs = true \/ contains (txt "ms.") xs = true ->
    scan IM (compile "mr\.|ms\.") s p pv xs <> None.
Proof.
  induction xs as [|x xs IH]; intros p pv H.
  - destruct H as [H|H]; discriminate H.
  - cbn [scan].
    destruct (match_at IM (compile "mr\.|ms\.") _) as [[e cs]|] eqn:M;
      [discriminate|].
    apply IH. cbn [contains] in H.
    destruct H as [H|H]; apply orb_prop in H; destruct H as [H|H]; auto;
      exfalso; apply starts_with_three in H; destruct H as (tl & E);
      rewrite E in M; vm_compute in M; discriminate M.
Qed.

(** A text of Latin-1 characters in which neither "mr." nor "ms." occurs,
    in whatever case of the letters, does not make the parser raise. *)
Lemma plain_text_no_error (text : str) :
  contains (txt "mr.") (lower text) = false ->
  contains (txt "ms.") (lower text) = false ->
  exists d, _parse_credentials text = Ok d.
Proof.
  intros Mr Ms. destruct (_parse_credentials text) as [d|e] eqn:P; [eauto|].
  exfalso. apply ParserTheorems.parse_raises_iff in P.
  destruct P as (_ & _ & _ & m & S & G).
  unfold search, search_re in S. rewrite honorific_compiled in S.
  apply scan_found in S. destruct S as (n & cu & R & M).
  unfold group in G.
  assert (C : cap 1 (m_caps m) = None).
  { destruct (cap 1 (m_caps m)) as [[a b]|]; [discriminate G|reflexivity]. }
  assert (U : no_upper (rest cu)).
  { rewrite R. apply Forall_skipn, lower_no_upper. }
  destruct (@honorific_without_group cu (m_end m, m_caps m) U M C) as [H|H];
    rewrite R in H; apply contains_skipn in H; congruence.
Qed.

(** X3: a text whose lower-case form has no match of the expression
    [mr\.|ms\.], searched as the parser searches, does not make the parser
    raise. *)
Theorem no_honorific_no_error (text : str) :
  search "mr\.|ms\." (lower text) IM = None ->
  exists d, _parse_credentials text = Ok d.
Proof.
  intros S. unfold search, search_re in S.
  apply plain_text_no_error.
  - destruct (contains (txt "mr.") (lower text)) eqn:C; [|reflexivity].
    exfalso. revert S. apply honorific_found. left. exact C.
  - destruct (contains (txt "ms.") (lower text)) eqn:C; [|reflexivity].
    exfalso. revert S. apply honorific_found. right. exact C.
Qed.

Lemma no_honorific_no_error_witness :
  exists d, _parse_credentials certificate_text = Ok d.
Proof.
  apply (@no_honorific_no_error certificate_text). vm_compute. reflexivity.
Defined.

(** X4: in the field map the parser returns, name, roll number, issue
    year, grade and certificate number are what the loop over the patterns
    of the field accepted in the lower-cased text, and absent when it
    accepted nothing: the post-processing does not touch them.  The
    institution is what its loop accepted and, when that is nothing, what
    the search for an indicator in the raw text gives. *)
Theorem fields_as_matched (text : str) (d : list (field * str)) :
  _parse_credentials text = Ok d ->
  (forall f,
     In f [name; roll_number; issue_year; grade; certificate_number] ->
     first_accepted f (lower text) (patterns f) = Ok (lookup f d))
  /\ exists r,
       first_accepted institution (lower text) (patterns institution) = Ok r
       /\ lookup institution d =
          match r with
          | Some v => Some v
          | None => find_institution institution_indicators text
          end.
Proof.
  intros H. apply parse_stages in H. destruct H as (c1 & c2 & P1 & P2 & ->).
  split.
  - intros f Hf. rewrite lookup_dict.
    rewrite (pattern_pass_result _ f P1). f_equal.
    assert (Nf : f <> institution /\ f <> specialization /\ f <> degree).
    { simpl in Hf. repeat (destruct Hf as [<-|Hf]); try contradiction;
        repeat split; discriminate. }
    destruct Nf as (Ni & Ns & Nd).
    symmetry. apply (post_process_keeps _ _ P2 Ni Ns Nd).
  - exists (c1 institution). split; [apply pattern_pass_result, P1|].
    rewrite lookup_dict, (@post_process_institution_slot _ _ _ P2).
    destruct (c1 institution) as [v|] eqn:V.
    + pose proof (@pattern_pass_nonempty _ _ _ _ P1 V) as N.
      destruct v; [contradiction|reflexivity].
    + cbn [falsy].
      destruct (find_institution institution_indicators text); reflexivity.
Qed.

Lemma fields_as_matched_witness :
  (forall f,
     In f [name; roll_number; issue_year; grade; certificate_number] ->
     first_accepted f (lower (txt "Roll No: CS/2015/042"))
       (patterns f)
     = Ok (lookup f [(roll_number, txt "cs/2015/042")]))
  /\ exists r,
       first_accepted institution (lower (txt "Roll No: CS/2015/042"))
         (patterns institution) = Ok r
       /\ lookup institution [(roll_number, txt "cs/2015/042")] =
          match r with
          | Some v => Some v
          | None =>
              find_institution institution_indicators
                (txt "Roll No: CS/2015/042")
          end.
Proof.
  apply (@fields_as_matched (txt "Roll No: CS/2015/042")
           [(roll_number, txt "cs/2015/042")]).
  vm_compute. reflexivity.
Defined.

(** X5: no value of the field map is the empty string, the degree and
    the specialization apart, and an institution that the pattern pass did
    not find has more than 10 characters.  The degree can be empty: it is
    what is left of the matched degree when the clause of the
    specialization is taken out of it. *)
Theorem stored_values_not_empty :
  (forall text d f v,
     _parse_credentials text = Ok d -> In (f, v) d ->
     f <> degree -> f <> specialization ->
     v <> []
     /\ (f = institution ->
         first_accepted institution (lower text) (patterns institution)
         = Ok None ->
         (10 < List.length v)%nat))
  /\ exists text d,
       _parse_credentials text = Ok d /\ In (degree, []) d.
Proof.
  split.
  - intros text d f v H Hin Nd Ns.
    apply parse_stages in H. destruct H as (c1 & c2 & P1 & P2 & ->).
    apply in_dict in Hin.
    destruct (field_eqb f institution) eqn:Fi.
    + apply field_eqb_eq in Fi. subst f.
      rewrite (@post_process_institution_slot _ _ _ P2) in Hin.
      destruct (c1 institution) as [w|] eqn:W.
      * pose proof (@pattern_pass_nonempty _ _ _ _ P1 W) as N.
        assert (E : v = w).
        { destruct w; [contradiction|]. cbn [falsy truthy negb] in Hin.
          congruence. }
        subst w. split; [exact N|].
        intros _ R. rewrite (pattern_pass_result _ institution P1), W in R.
        discriminate R.
      * cbn [falsy] in Hin.
        destruct (find_institution institution_indicators text) as [w|] eqn:F;
          [|discriminate Hin].
        inversion Hin; subst w. apply find_institution_long in F.
        split; [|intros _ _; exact F].
        intros ->. simpl in F. lia.
    + assert (Ni : f <> institution).
      { intros ->. discriminate Fi. }
      split; [|contradiction].
      rewrite (post_process_keeps _ _ P2 Ni Ns Nd) in Hin.
      apply (@pattern_pass_nonempty _ _ _ _ P1 Hin).
  - exists (txt "bachelor in in physics"),
      [(degree, []); (specialization, txt "physics")].
    split; [vm_compute; reflexivity | left; reflexivity].
Qed.

(** X6: a specialization is reported only when the pattern pass found a
    degree: it is a part of that degree, and the field map then holds a
    degree as well. *)
Theorem specialization_from_degree (text : str) (d : list (field * str))
    (s : str) :
  _parse_credentials text = Ok d -> lookup specialization d = Some s ->
  exists deg,
    first_accepted degree (lower text) (patterns degree) = Ok (Some deg)
    /\ substring s deg
    /\ lookup degree d <> None.
Proof.
  intros H S. apply parse_stages in H. destruct H as (c1 & c2 & P1 & P2 & ->).
  rewrite lookup_dict in *.
  assert (Ns : specialization <> institution) by discriminate.
  assert (Nd : degree <> institution) by discriminate.
  rewrite (@post_process_split _ _ _ _ P2 Ns) in S.
  rewrite (@post_process_split _ _ _ _ P2 Nd).
  pose proof (@pattern_pass_no_specialization _ _ P1) as S1.
  pose proof (pattern_pass_result _ degree P1) as D1.
  unfold split_degree in *. rewrite S1 in *.
  destruct (c1 degree) as [deg|]; [|discriminate S].
  exists deg. split; [exact D1|].
  destruct (truthy deg && falsy None)%bool; [|discriminate S].
  destruct (search _ deg I) as [m|] eqn:M; [|discriminate S].
  destruct (group m 1) as [g|] eqn:G; [|discriminate S].
  cbn [field_eqb] in *. inversion S; subst s. split; [|discriminate].
  destruct (group_slice _ _ _ _ M G) as (a & b & ->).
  eapply substring_trans; [apply strip_substring | apply slice_substring].
Qed.

Lemma specialization_from_degree_witness :
  exists deg,
    first_accepted degree (lower (txt "Bachelor of Science in Physics"))
      (patterns degree) = Ok (Some deg)
    /\ substring (txt "physics") deg
    /\ lookup degree [(degree, txt "science"); (specialization, txt "physics")]
       <> None.
Proof.
  apply (@specialization_from_degree (txt "Bachelor of Science in Physics")
           [(degree, txt "science"); (specialization, txt "physics")]
           (txt "physics")).
  - vm_compute. reflexivity.
  - reflexivity.
Defined.

(** X7: the rule of the roll number is exact.  A candidate is accepted
    exactly when, cleaned, it is 2 to 20 characters of [[a-zA-Z0-9/-]];
    what is stored is the cleaned candidate; and a candidate that has this
    form already is stored as it is. *)
Theorem roll_number_rule (value : str) :
  (_clean_extracted_value value roll_number <> [] <-> roll_valid (tidy value))
  /\ (_clean_extracted_value value roll_number <> [] ->
      _clean_extracted_value value roll_number = tidy value)
  /\ (roll_valid value -> _clean_extracted_value value roll_number = value).
Proof.
  assert (Acc : roll_valid (tidy value) ->
                _clean_extracted_value value roll_number = tidy value).
  { intros V. rewrite clean_unfold.
    destruct value as [|c value]; [reflexivity|]. cbn [truthy negb].
    destruct (roll_matches V) as (m & ->). reflexivity. }
  split; [|split].
  - split.
    + rewrite clean_unfold. destruct (negb (truthy value)); [congruence|].
      destruct (match_ _ _ _) as [m|] eqn:M; [|congruence].
      intros _. apply (@match_roll _ _ M).
      apply plain_spaces_no_newline, tidy_plain_spaces.
    + intros V. rewrite (Acc V). destruct V as [[L _] _].
      intros E. rewrite E in L. simpl in L. lia.
  - rewrite clean_unfold. destruct (negb (truthy value)); [congruence|].
    destruct (match_ _ _ _); congruence.
  - intros V.
    assert (T : tidy value = value).
    { apply tidy_plain. destruct V as [_ Hid].
      eapply Forall_impl; [|exact Hid]. exact id_char_plain. }
    rewrite <- T in V. rewrite (Acc V). exact T.
Qed.

(** X8: roll number, certificate number and issue year stand in the
    text as they stand in the field map: each is a part of the lower-cased
    text, character by character. *)
Theorem identifiers_literal (text : str) (d : list (field * str)) (f : field)
    (v : str) :
  _parse_credentials text = Ok d ->
  In f [roll_number; certificate_number; issue_year] ->
  lookup f d = Some v ->
  substring v (lower text).
Proof.
  intros H Hf V. apply parse_stages in H.
  destruct H as (c1 & c2 & P1 & P2 & ->).
  rewrite lookup_dict in V.
  assert (Nf : f <> institution /\ f <> specialization /\ f <> degree).
  { simpl in Hf. repeat (destruct Hf as [<-|Hf]); try contradiction;
      repeat split; discriminate. }
  destruct Nf as (Ni & Ns & Nd).
  rewrite (post_process_keeps _ _ P2 Ni Ns Nd) in V.
  pose proof (pattern_pass_result _ f P1) as R. rewrite V in R.
  apply first_accepted_cleaned in R.
  destruct R as (pattern & m & g & Ip & S & G & E & N).
  destruct (group_slice _ _ _ _ S G) as (a & b & Eg).
  assert (Sub : substring g (lower text)).
  { rewrite Eg. apply slice_substring. }
  assert (Ids : f <> issue_year -> Forall (fun c => id_char c = true) g).
  { intros Ny. apply (@group_chars pattern (lower text) IM id_char m g);
      auto.
    simpl in Hf. destruct Hf as [<-|[<-|[<-|[]]]]; try contradiction;
      simpl in Ip; repeat (destruct Ip as [<-|Ip]; [vm_compute; reflexivity|]);
      contradiction. }
  assert (Plain : f <> issue_year -> tidy (strip g) = g).
  { intros Ny. specialize (Ids Ny).
    assert (Pl : Forall (fun c => plain_char c = true) g).
    { eapply Forall_impl; [|exact Ids]. exact id_char_plain. }
    rewrite (strip_plain Pl). apply tidy_plain, Pl. }
  simpl in Hf. destruct Hf as [<-|[<-|[<-|[]]]].
  - rewrite clean_unfold in E.
    destruct (negb (truthy (strip g))); [congruence|].
    destruct (match_ _ _ _); [|congruence].
    rewrite Plain in E by discriminate. subst v. exact Sub.
  - rewrite clean_unfold in E.
    destruct (negb (truthy (strip g))); [congruence|].
    rewrite Plain in E by discriminate. subst v. exact Sub.
  - assert (Dg : Forall (fun c => isdigit c = true) g).
    { apply (@group_chars pattern (lower text) IM isdigit m g); auto.
      simpl in Ip. repeat (destruct Ip as [<-|Ip]; [vm_compute; reflexivity|]).
      contradiction. }
    rewrite (strip_digits Dg), clean_year, (tidy_digits Dg) in E.
    destruct (first_year g) as [y|] eqn:Fy; [|congruence].
    destruct (_ && _)%bool; [|congruence]. subst v.
    apply first_year_found in Fy. destruct Fy as (pre & suf & Ey & _).
    eapply substring_trans; [|exact Sub]. exists pre, suf. exact Ey.
Qed.

Lemma identifiers_literal_witness :
  substring (txt "cs/2015/042") (lower (txt "Roll No: CS/2015/042")).
Proof.
  apply (@identifiers_literal (txt "Roll No: CS/2015/042")
           [(roll_number, txt "cs/2015/042")] roll_number (txt "cs/2015/042")).
  - vm_compute. reflexivity.
  - left. reflexivity.
  - reflexivity.
Defined.

End ParserProperties.

(** ** Facts about the extraction of the text *)

Module ExtractionFacts.
Import Py Re OCRService Spec PyFacts StringFacts.
Local Open Scope string_scope.

Lemma path_eqb_eq (p q : path) : path_eqb p q = true <-> p = q.
Proof.
  unfold path_eqb. destruct p as [a b], q as [c d]. simpl.
  rewrite andb_true_iff, !String.eqb_eq. split.
  - intros [-> ->]. reflexivity.
  - intros H. inversion H. auto.
Qed.

Lemma path_eqb_refl (p : path) : path_eqb p p = true.
Proof. apply path_eqb_eq. reflexivity. Qed.

Lemma write_same (fs : files) (p : path) (data : bytes) :
  write fs p data p = Some data.
Proof. unfold write. rewrite path_eqb_refl. reflexivity. Qed.

Lemma write_other (fs : files) (p q : path) (data : bytes) :
  q <> p -> write fs p data q = fs q.
Proof.
  intros N. unfold write. destruct (path_eqb q p) eqn:E; auto.
  apply path_eqb_eq in E. contradiction.
Qed.

Lemma unlink_same (fs : files) (p : path) : unlink fs p p = None.
Proof. unfold unlink. rewrite path_eqb_refl. reflexivity. Qed.

Lemma unlink_other (fs : files) (p q : path) : q <> p -> unlink fs p q = fs q.
Proof.
  intros N. unfold unlink. destruct (path_eqb q p) eqn:E; auto.
  apply path_eqb_eq in E. contradiction.
Qed.

(** The pages of a document have their page images under different names. *)
Lemma temp_page_inj (file_path : path) (n m : nat) :
  temp_page file_path n = temp_page file_path m -> n = m.
Proof.
  unfold temp_page. intros E. inversion E as [E'].
  apply append_inv_tail in E'.
  apply (f_equal list_ascii_of_string) in E'.
  rewrite !list_ascii_of_string_of_list_ascii in E'.
  apply str_of_int_inj, E'.
Qed.

Lemma words_join (texts : list str) :
  strip (List.concat (map (fun t => t ++ [space]) texts))%list
  = strip (join [space] texts).
Proof.
  assert (E : forall t ts,
             List.concat (map (fun t => t ++ [space]) (t :: ts))%list
             = (join [space] (t :: ts) ++ [space])%list).
  { intros t ts. revert t. induction ts as [|t' ts IH]; intros t.
    - simpl. rewrite app_nil_r. reflexivity.
    - change (List.concat (map (fun t => t ++ [space]) (t :: t' :: ts)))%list
        with ((t ++ [space])
              ++ List.concat (map (fun t => t ++ [space]) (t' :: ts)))%list.
      rewrite IH. cbn [join]. rewrite <- !app_assoc. reflexivity. }
  destruct texts as [|t ts]; [reflexivity|].
  rewrite E. apply strip_app_space. reflexivity.
Qed.

(** *** Dicts *)

Lemma setitem_fresh (d : dict) (k : string) (v : value) :
  Forall (fun kv => fst kv <> k) d -> setitem d k v = (d ++ [(k, v)])%list.
Proof.
  induction 1 as [|[k' v'] d Hk Hd IH]; simpl; [reflexivity|].
  destruct (String.eqb k' k) eqn:E.
  - apply String.eqb_eq in E. contradiction.
  - rewrite IH. reflexivity.
Qed.

Lemma as_dict_keys (fields : list (field * str)) (k : string) :
  (forall f, field_name f <> k) ->
  Forall (fun kv : string * value => fst kv <> k) (as_dict fields).
Proof.
  intros N. unfold as_dict. induction fields as [|[f v] fields IH]; simpl;
    constructor; auto. apply N.
Qed.

Lemma getitem_after (d : dict) (k : string) (v : value) (rest : dict) :
  Forall (fun kv => fst kv <> k) d ->
  getitem (d ++ (k, v) :: rest)%list k = Some v.
Proof.
  induction 1 as [|[k' v'] d Hk Hd IH]; simpl.
  - rewrite String.eqb_refl. reflexivity.
  - destruct (String.eqb k' k) eqn:K; [|exact IH].
    apply String.eqb_eq in K. contradiction.
Qed.

Section Any.
Context {raster pil_image : Type} (lib : libraries raster pil_image).

(** *** Sums *)

Lemma collect_spec (results : list detection) :
  forall full_text total,
    collect lib results full_text total =
    ((full_text
      ++ List.concat (map (fun d => text_of d ++ [space]) results))%list,
     fold_left (float_add lib) (map confidence_of results) total).
Proof.
  induction results as [|[[bbox text] confidence] results IH];
    intros full_text total; simpl.
  - rewrite app_nil_r. reflexivity.
  - rewrite IH. unfold text_of at 2. simpl. rewrite <- !app_assoc. reflexivity.
Qed.

Section Rounding.
Variable bound : nat -> Q.
Hypothesis rounding : rounds_within lib bound.

Lemma sum_bounds (qs : list Q) :
  Forall unit_interval qs ->
  forall total count,
    (0 <= total)%Q -> (total <= bound count)%Q ->
    (0 <= fold_left (float_add lib) qs total)%Q
    /\ (fold_left (float_add lib) qs total
        <= bound (count + List.length qs))%Q.
Proof.
  destruct rounding as (_ & Add & _).
  induction 1 as [|q qs Hq Hqs IH]; intros total count T0 T1; simpl.
  - rewrite Nat.add_0_r. auto.
  - replace (count + S (List.length qs))%nat
      with (S count + List.length qs)%nat by lia.
    destruct (Add total q count T0 T1 Hq) as [A0 A1].
    apply IH; assumption.
Qed.

Lemma average_bounds (total : Q) (count : nat) :
  (0 <= total)%Q -> (total <= bound count)%Q ->
  unit_interval (average lib total count).
Proof.
  destruct rounding as (_ & _ & Div).
  intros T0 T1. unfold average.
  destruct count as [|n]; [split; discriminate|].
  cbn [Nat.ltb Nat.leb]. apply Div; assumption.
Qed.

End Rounding.

(** *** [_ocr_image] *)

(** The recognition reads the bytes of the file and nothing else. *)
Lemma preprocess_reads_file (fs fs' : files) (p p' : path) :
  fs p = fs' p' -> _preprocess_image lib fs p = _preprocess_image lib fs' p'.
Proof.
  intros E. unfold _preprocess_image, imread, open_image. rewrite E.
  reflexivity.
Qed.

Lemma ocr_reads_file (fs fs' : files) (p p' : path) :
  fs p = fs' p' -> _ocr_image lib fs p = _ocr_image lib fs' p'.
Proof.
  intros E. unfold _ocr_image. rewrite (@preprocess_reads_file _ _ _ _ E).
  reflexivity.
Qed.

Lemma ocr_image_unfold (fs : files) (p : path) (img : raster) :
  _preprocess_image lib fs p = Ok img ->
  _ocr_image lib fs p =
  match reader_readtext lib img with
  | Ok results =>
      Ok (strip (join [space] (map text_of results)),
          average lib
            (fold_left (float_add lib) (map confidence_of results) 0%Q)
            (List.length results))
  | Raise e => Raise e
  end.
Proof.
  intros P. unfold _ocr_image, try_except. rewrite P. cbn [bind].
  destruct (reader_readtext lib img) as [results|e]; [|reflexivity].
  cbn [bind]. rewrite collect_spec. cbn [app].
  rewrite <- words_join, map_map. reflexivity.
Qed.

Lemma ocr_image_raises (fs : files) (p : path) (e : exn) :
  _preprocess_image lib fs p = Raise e -> _ocr_image lib fs p = Raise e.
Proof.
  intros P. unfold _ocr_image, try_except. rewrite P. reflexivity.
Qed.

(** What [_ocr_image] returns, when it returns. *)
Lemma ocr_image_returned (fs : files) (p : path) (t : str) (c : Q) :
  _ocr_image lib fs p = Ok (t, c) ->
  exists img results,
    _preprocess_image lib fs p = Ok img
    /\ reader_readtext lib img = Ok results
    /\ t = strip (join [space] (map text_of results))
    /\ c = average lib
             (fold_left (float_add lib) (map confidence_of results) 0%Q)
             (List.length results).
Proof.
  destruct (_preprocess_image lib fs p) as [img|e] eqn:P.
  - rewrite (@ocr_image_unfold fs p img P).
    destruct (reader_readtext lib img) as [results|] eqn:R; [|discriminate].
    intros H. inversion H. exists img, results. auto.
  - rewrite (@ocr_image_raises fs p e P). discriminate.
Qed.

Lemma ocr_image_stripped (fs : files) (p : path) (t : str) (c : Q) :
  _ocr_image lib fs p = Ok (t, c) -> strip t = t.
Proof.
  intros H. apply ocr_image_returned in H.
  destruct H as (img & results & _ & _ & -> & _). apply strip_idem.
Qed.

(** *** The loop over the pages *)

Lemma pages_loop_outcomes (file_path : path) :
  forall outcomes pages page_num full_text total count fs,
    map (page_outcome lib) pages = map Ok outcomes ->
    exists fs',
      pages_loop lib file_path page_num pages full_text total count fs =
      (Ok ((full_text ++ page_lines (map fst outcomes))%list,
           fold_left (float_add lib) (map snd outcomes) total,
           (count + List.length outcomes)%nat), fs').
Proof.
  induction outcomes as [|[t c] outcomes IH];
    intros pages page_num full_text total count fs E.
  - destruct pages; [|discriminate E]. exists fs. simpl.
    rewrite app_nil_r, Nat.add_0_r. reflexivity.
  - destruct pages as [|page pages]; [discriminate E|].
    cbn [map] in E. inversion E as [[Ep Er]]. clear E.
    unfold page_outcome in Ep. cbn [pages_loop].
    destruct (get_text page) as [text|]; [|discriminate Ep]. cbn [bind] in Ep.
    assert (Go : forall fs1,
               exists fs',
                 pages_loop lib file_path (S page_num) pages
                   (full_text ++ t ++ [newline])%list
                   (float_add lib total c) (S count) fs1
                 = (Ok ((full_text
                         ++ page_lines (map fst ((t, c) :: outcomes)))%list,
                        fold_left (float_add lib)
                          (map snd ((t, c) :: outcomes)) total,
                        (count + List.length ((t, c) :: outcomes))%nat), fs')).
    { intros fs1. destruct (IH pages (S page_num)
                              (full_text ++ t ++ [newline])%list
                              (float_add lib total c)
                              (S count) fs1 Er) as (fs' & ->).
      exists fs'. unfold page_lines.
      cbn [map List.concat fst snd fold_left List.length].
      rewrite <- !app_assoc.
      replace (count + S (List.length outcomes))%nat
        with (S count + List.length outcomes)%nat by lia.
      reflexivity. }
    destruct (truthy (strip text)).
    + inversion Ep; subst. apply Go.
    + destruct (get_pixmap_png page) as [png|]; [|discriminate Ep].
      cbn [bind] in Ep.
      rewrite (@ocr_reads_file
                 (write fs (temp_page file_path page_num) png) (disk photo png)
                 (temp_page file_path page_num) photo)
        by (rewrite write_same; reflexivity).
      rewrite Ep. apply Go.
Qed.

Lemma pages_loop_frame (file_path : path) (q : path) :
  forall pages page_num full_text total count fs,
    (forall i page text,
       nth_error pages i = Some page -> get_text page = Ok text ->
       truthy (strip text) = false ->
       q <> temp_page file_path (page_num + i)) ->
    snd (pages_loop lib file_path page_num pages full_text total count fs) q
    = fs q.
Proof.
  induction pages as [|page pages IH];
    intros page_num full_text total count fs N; [reflexivity|].
  assert (N' : forall i page' text,
             nth_error pages i = Some page' -> get_text page' = Ok text ->
             truthy (strip text) = false ->
             q <> temp_page file_path (S page_num + i)).
  { intros i page' text Hn Ht Hb.
    replace (S page_num + i)%nat with (page_num + S i)%nat by lia.
    apply (N (S i) page' text); assumption. }
  cbn [pages_loop].
  destruct (get_text page) as [text|] eqn:T; [|reflexivity].
  destruct (truthy (strip text)) eqn:B.
  - apply IH, N'.
  - assert (Nq : q <> temp_page file_path page_num).
    { rewrite <- (Nat.add_0_r page_num). apply (N 0%nat page text); auto. }
    destruct (get_pixmap_png page) as [png|]; [|reflexivity].
    destruct (_ocr_image lib _ _) as [[page_text page_confidence]|].
    + rewrite IH by exact N'.
      rewrite unlink_other, write_other by exact Nq. reflexivity.
    + cbn [snd]. apply write_other, Nq.
Qed.

Lemma pages_loop_cleanup (file_path : path) :
  forall pages page_num full_text total count fs r fs',
    pages_loop lib file_path page_num pages full_text total count fs
    = (Ok r, fs') ->
    forall i page text,
      nth_error pages i = Some page -> get_text page = Ok text ->
      truthy (strip text) = false ->
      fs' (temp_page file_path (page_num + i)) = None.
Proof.
  induction pages as [|page pages IH];
    intros page_num full_text total count fs r fs' L i page' text Hn Ht Hb.
  - destruct i; discriminate Hn.
  - cbn [pages_loop] in L. destruct i as [|i].
    + simpl in Hn. inversion Hn; subst page'. rewrite Ht, Hb in L.
      destruct (get_pixmap_png page) as [png|]; [|discriminate L].
      destruct (_ocr_image lib _ _) as [[page_text page_confidence]|];
        [|discriminate L].
      rewrite Nat.add_0_r.
      pose proof (@pages_loop_frame file_path (temp_page file_path page_num)
                    pages (S page_num)
                    (full_text ++ page_text ++ [newline])%list
                    (float_add lib total page_confidence) (S count)
                    (unlink (write fs (temp_page file_path page_num) png)
                       (temp_page file_path page_num))) as Fr.
      rewrite L in Fr. cbn [snd] in Fr. rewrite Fr; [apply unlink_same|].
      intros j pj tj _ _ _ E. apply temp_page_inj in E. lia.
    + simpl in Hn.
      replace (page_num + S i)%nat with (S page_num + i)%nat by lia.
      destruct (get_text page) as [text0|]; [|discriminate L].
      destruct (truthy (strip text0)).
      * eapply IH; eauto.
      * destruct (get_pixmap_png page) as [png|]; [|discriminate L].
        destruct (_ocr_image lib _ _) as [[page_text page_confidence]|];
          [|discriminate L].
        eapply IH; eauto.
Qed.

(** *** [_extract_from_pdf] and [extract_credentials] *)

Lemma pdf_frame (file_path : path) (fs : files) (q : path) :
  (forall page_num, q <> temp_page file_path page_num) ->
  snd (_extract_from_pdf lib file_path fs) q = fs q.
Proof.
  intros N.
  assert (E : snd (_extract_from_pdf lib file_path fs)
              = snd (pdf_with_fitz lib file_path fs)).
  { unfold _extract_from_pdf.
    destruct (pdf_with_fitz lib file_path fs) as [[r|e] fs']; reflexivity. }
  rewrite E. unfold pdf_with_fitz.
  destruct (fs file_path) as [data|]; [|reflexivity].
  destruct (fitz_open lib data) as [doc|]; [|reflexivity].
  pose proof (@pages_loop_frame file_path q doc 0%nat [] 0%Q 0%nat fs) as Fr.
  destruct (pages_loop lib file_path 0 doc [] 0%Q 0 fs) as [[[[t c] n]|e] fs'];
    cbn [snd] in *; apply Fr; intros; apply N.
Qed.

Lemma pdf_stripped (file_path : path) (fs fs' : files) (t : str) (c : Q) :
  _extract_from_pdf lib file_path fs = (Ok (t, c), fs') -> strip t = t.
Proof.
  unfold _extract_from_pdf, pdf_with_fitz.
  assert (Fb : forall fs1 fs2,
             (_extract_from_pdf_fallback lib file_path fs1, fs2)
             = (Ok (t, c), fs') -> strip t = t).
  { intros fs1 fs2. unfold _extract_from_pdf_fallback, try_except.
    destruct (fs1 file_path) as [data|]; [|discriminate].
    destruct (PdfReader lib data) as [pages|]; [|discriminate]. cbn [bind].
    destruct (fallback_loop pages []) as [full|]; [|discriminate]. cbn [bind].
    intros H. inversion H. apply strip_idem. }
  destruct (fs file_path) as [data|]; [|apply Fb].
  destruct (fitz_open lib data) as [doc|]; [|apply Fb].
  destruct (pages_loop lib file_path 0 doc [] 0%Q 0 fs)
    as [[[[full total] count]|e] fs1]; [|apply Fb].
  intros H. inversion H. apply strip_idem.
Qed.

Lemma extracted_stripped (file_path : path) (fs : files) (t : str) (c : Q) :
  extracted lib file_path fs = Ok (t, c) -> strip t = t.
Proof.
  unfold extracted. destruct (is_pdf file_path).
  - destruct (_extract_from_pdf lib file_path fs) as [r fs'] eqn:E.
    cbn [fst]. intros ->. apply (@pdf_stripped _ _ _ _ _ E).
  - apply ocr_image_stripped.
Qed.

Lemma extract_credentials_unfold (file_path : path) (fs : files) :
  fst (extract_credentials lib file_path fs) =
  match extracted lib file_path fs with
  | Ok (raw_text, confidence) =>
      match _parse_credentials raw_text with
      | Ok fields =>
          Ok (as_dict fields
              ++ [("raw_text", Str raw_text);
                  ("confidence_score", Float confidence)])%list
      | Raise e => Raise e
      end
  | Raise e => Raise e
  end.
Proof.
  unfold extract_credentials, extracted, is_pdf, try_except. cbn [fst].
  assert (E : forall x : result (str * Q) * files,
             fst (if Pathlib.str_eqb (lower (suffix file_path)) (txt ".pdf")
                  then x
                  else (_extract_from_image lib fs file_path, fs))
             = if Pathlib.str_eqb (lower (suffix file_path)) (txt ".pdf")
               then fst x else _extract_from_image lib fs file_path).
  { intros x. destruct (Pathlib.str_eqb _ _); reflexivity. }
  unfold txt in *. rewrite E. clear E.
  destruct (if Pathlib.str_eqb _ _ then _ else _) as [[raw_text confidence]|e];
    [|reflexivity].
  cbn [bind fst snd].
  destruct (_parse_credentials raw_text) as [fields|e]; [|reflexivity].
  cbn [bind]. rewrite (@setitem_fresh (as_dict fields) "raw_text").
  - rewrite setitem_fresh; [rewrite <- app_assoc; reflexivity|].
    apply Forall_app. split.
    + apply as_dict_keys. intros f. destruct f; discriminate.
    + repeat constructor. discriminate.
  - apply as_dict_keys. intros f. destruct f; discriminate.
Qed.

Lemma extract_credentials_frame (file_path : path) (fs : files) :
  (is_pdf file_path = false -> snd (extract_credentials lib file_path fs) = fs)
  /\ (forall q,
        (forall page_num, q <> temp_page file_path page_num) ->
        snd (extract_credentials lib file_path fs) q = fs q).
Proof.
  unfold extract_credentials, is_pdf. cbn [snd]. unfold txt. split.
  - intros ->. reflexivity.
  - intros q N. destruct (Pathlib.str_eqb _ _); [|reflexivity].
    apply pdf_frame, N.
Qed.

(** *** The confidence *)

Section Bounded.
Variable bound : nat -> Q.
Hypothesis rounding : rounds_within lib bound.
Hypothesis reader_bounded :
  forall img results,
    reader_readtext lib img = Ok results ->
    Forall (fun d => unit_interval (confidence_of d)) results.

Lemma ocr_image_bounded (fs : files) (p : path) (t : str) (c : Q) :
  _ocr_image lib fs p = Ok (t, c) -> unit_interval c.
Proof.
  intros H. apply ocr_image_returned in H.
  destruct H as (img & results & _ & R & _ & ->).
  apply reader_bounded in R.
  assert (B : Forall unit_interval (map confidence_of results)).
  { apply Forall_map. exact R. }
  destruct rounding as (B0 & _).
  destruct (@sum_bounds bound rounding _ B 0%Q 0%nat (Qle_refl 0) B0)
    as [S0 S1].
  apply (@average_bounds bound rounding); [exact S0|].
  rewrite length_map in S1. exact S1.
Qed.

Lemma pages_loop_bounded (file_path : path) :
  forall pages page_num full_text total count fs t total' count' fs',
    (0 <= total)%Q -> (total <= bound count)%Q ->
    pages_loop lib file_path page_num pages full_text total count fs
    = (Ok (t, total', count'), fs') ->
    (0 <= total')%Q /\ (total' <= bound count')%Q.
Proof.
  destruct rounding as (_ & Add & _).
  induction pages as [|page pages IH];
    intros page_num full_text total count fs t total' count' fs' T0 T1 L.
  - simpl in L. inversion L; subst. auto.
  - cbn [pages_loop] in L.
    destruct (get_text page) as [text|]; [|discriminate L].
    destruct (truthy (strip text)).
    + destruct (Add total 0.95%Q count T0 T1) as [A0 A1].
      { split; discriminate. }
      apply (IH _ _ _ _ _ _ _ _ _ A0 A1 L).
    + destruct (get_pixmap_png page) as [png|]; [|discriminate L].
      destruct (_ocr_image lib _ _) as [[page_text page_confidence]|] eqn:O;
        [|discriminate L].
      destruct (Add total page_confidence count T0 T1) as [A0 A1].
      { apply (@ocr_image_bounded _ _ _ _ O). }
      apply (IH _ _ _ _ _ _ _ _ _ A0 A1 L).
Qed.

Lemma pdf_bounded (file_path : path) (fs fs' : files) (t : str) (c : Q) :
  _extract_from_pdf lib file_path fs = (Ok (t, c), fs') -> unit_interval c.
Proof.
  unfold _extract_from_pdf, pdf_with_fitz.
  assert (Fb : forall fs1 fs2,
             (_extract_from_pdf_fallback lib file_path fs1, fs2)
             = (Ok (t, c), fs') -> unit_interval c).
  { intros fs1 fs2. unfold _extract_from_pdf_fallback, try_except.
    destruct (fs1 file_path) as [data|]; [|discriminate].
    destruct (PdfReader lib data) as [pages|]; [|discriminate]. cbn [bind].
    destruct (fallback_loop pages []) as [full|]; [|discriminate]. cbn [bind].
    intros H. inversion H. split; discriminate. }
  destruct (fs file_path) as [data|]; [|apply Fb].
  destruct (fitz_open lib data) as [doc|]; [|apply Fb].
  destruct (pages_loop lib file_path 0 doc [] 0%Q 0 fs)
    as [[[[full total] count]|e] fs1] eqn:L; [|apply Fb].
  intros H. inversion H; subst.
  destruct rounding as (B0 & _).
  destruct (@pages_loop_bounded file_path doc 0%nat [] 0%Q 0%nat fs _ _ _ _
              (Qle_refl 0) B0 L) as [T0 T1].
  apply (@average_bounds bound rounding); assumption.
Qed.

Lemma extracted_bounded (file_path : path) (fs : files) (t : str) (c : Q) :
  extracted lib file_path fs = Ok (t, c) -> unit_interval c.
Proof.
  unfold extracted. destruct (is_pdf file_path).
  - destruct (_extract_from_pdf lib file_path fs) as [r fs'] eqn:E.
    cbn [fst]. intros ->. apply (@pdf_bounded _ _ _ _ _ E).
  - apply ocr_image_bounded.
Qed.

End Bounded.
End Any.

(** Arithmetic that does not round keeps the bounds. *)
Lemma exact_rounds_within {raster pil_image : Type}
    (lib : libraries raster pil_image) :
  float_add lib = Qplus -> float_div lib = exact_div ->
  rounds_within lib (fun k => inject_Z (Z.of_nat k)).
Proof.
  intros A D. unfold rounds_within. rewrite A, D.
  split; [apply Qle_refl|]. split.
  - intros total c k T0 T1 [C0 C1]. split.
    + rewrite <- (Qplus_0_l 0). apply Qplus_le_compat; assumption.
    + rewrite Nat2Z.inj_succ, <- Z.add_1_r, inject_Z_plus.
      apply Qplus_le_compat; assumption.
  - intros total k T0 T1. unfold exact_div, unit_interval.
    assert (P : (0 < inject_Z (Z.of_nat (S k)))%Q).
    { unfold Qlt. simpl. lia. }
    split.
    + apply Qle_shift_div_l; [exact P|]. rewrite Qmult_0_l. exact T0.
    + apply Qle_shift_div_r; [exact P|]. rewrite Qmult_1_l. exact T1.
Qed.

End ExtractionFacts.

(** ** The extraction of the text, and [extract_credentials] *)

Module ExtractionProperties.
Import Py Re OCRService Spec PyFacts StringFacts ExtractionFacts.
Local Open Scope string_scope.

Section Any.
Context {raster pil_image : Type} (lib : libraries raster pil_image).

(** X9: [_ocr_image] raises what [cv2.imread] raises, which the
    preprocessing lets through, and what the reader raises on the picture
    the preprocessing returns; otherwise it returns the texts the reader
    found, joined by single spaces and stripped, and as confidence the
    confidences added up in their order and divided by their number,
    whatever that rounds to: the empty text and 0 when the reader found
    nothing. *)
Theorem ocr_image_result (fs : files) (file_path : path) :
  (forall e,
     imread lib fs file_path = Raise e ->
     _ocr_image lib fs file_path = Raise e)
  /\ (forall found,
        imread lib fs file_path = Ok found ->
        exists img,
          _preprocess_image lib fs file_path = Ok img
          /\ (forall e,
                reader_readtext lib img = Raise e ->
                _ocr_image lib fs file_path = Raise e)
          /\ (forall results,
                reader_readtext lib img = Ok results ->
                _ocr_image lib fs file_path
                = Ok (strip (join [space] (map text_of results)),
                      average lib
                        (fold_left (float_add lib)
                           (map confidence_of results) 0%Q)
                        (List.length results)))
          /\ (reader_readtext lib img = Ok [] ->
              _ocr_image lib fs file_path = Ok ([], 0%Q))).
Proof.
  split.
  - intros e R. apply ocr_image_raises.
    apply ExtractionTheorems.preprocess_raises, R.
  - intros found R.
    destruct (ExtractionTheorems.preprocess_returns lib fs file_path R)
      as (img & P).
    exists img. split; [exact P|].
    rewrite (@ocr_image_unfold _ _ lib fs file_path img P).
    split; [|split].
    + intros e ->. reflexivity.
    + intros results ->. reflexivity.
    + intros ->. reflexivity.
Qed.

(** X10: for a document that opens and whose every page gives an
    outcome (its text layer with confidence 0.95 or, when that is blank,
    what the recognition makes of its picture), [_extract_from_pdf] returns
    the texts of the pages, each followed by a newline, in the order of the
    pages and stripped, and as confidence the confidences of the pages
    added up in that order and divided by the number of pages, whatever
    that rounds to. *)
Theorem pdf_pages (file_path : path) (fs : files) (data : bytes)
    (doc : list fitz_page) (outcomes : list (str * Q)) :
  fs file_path = Some data ->
  fitz_open lib data = Ok doc ->
  map (page_outcome lib) doc = map Ok outcomes ->
  exists fs',
    _extract_from_pdf lib file_path fs
    = (Ok (strip (page_lines (map fst outcomes)),
           average lib
             (fold_left (float_add lib) (map snd outcomes) 0%Q)
             (List.length outcomes)), fs').
Proof.
  intros F O E. unfold _extract_from_pdf, pdf_with_fitz. rewrite F, O.
  destruct (@pages_loop_outcomes _ _ lib file_path outcomes doc 0%nat [] 0%Q
              0%nat fs E) as (fs' & ->).
  cbn [app Nat.add]. exists fs'. reflexivity.
Qed.

(** X11: when the pass with PyMuPDF returns, the page image of every
    scanned page is gone, also a file that was there before under that
    name, and every other file is as it was. *)
Theorem pdf_success_cleans_up (file_path : path) (fs fs' : files)
    (data : bytes) (doc : list fitz_page) (r : str * Q) :
  fs file_path = Some data ->
  fitz_open lib data = Ok doc ->
  pdf_with_fitz lib file_path fs = (Ok r, fs') ->
  (forall page_num page text,
     nth_error doc page_num = Some page -> get_text page = Ok text ->
     truthy (strip text) = false ->
     fs' (temp_page file_path page_num) = None)
  /\ (forall q,
        (forall page_num page text,
           nth_error doc page_num = Some page -> get_text page = Ok text ->
           truthy (strip text) = false -> q <> temp_page file_path page_num) ->
        fs' q = fs q).
Proof.
  intros F O. unfold pdf_with_fitz. rewrite F, O.
  destruct (pages_loop lib file_path 0 doc [] 0%Q 0 fs)
    as [[[[t c] n]|e] fs1] eqn:L; [|discriminate].
  intros H. inversion H; subst fs1. split.
  - intros page_num page text Hn Ht Hb.
    apply (@pages_loop_cleanup _ _ lib file_path doc 0%nat [] 0%Q 0%nat fs _ _ L
             page_num page text Hn Ht Hb).
  - intros q N.
    pose proof (@pages_loop_frame _ _ lib file_path q doc 0%nat [] 0%Q 0%nat
                  fs N) as Fr.
    rewrite L in Fr. exact Fr.
Qed.

(** X12: a file that is not there.  The preprocessing returns the empty
    array, and that is what the reader is given; [_extract_from_pdf] raises
    [FileNotFoundError], out of the fallback, and writes nothing. *)
Theorem missing_file (file_path : path) (fs : files) :
  fs file_path = None ->
  _preprocess_image lib fs file_path = Ok (np_empty lib)
  /\ (forall e,
        reader_readtext lib (np_empty lib) = Raise e ->
        _extract_from_image lib fs file_path = Raise e)
  /\ (forall results,
        reader_readtext lib (np_empty lib) = Ok results ->
        exists r, _extract_from_image lib fs file_path = Ok r)
  /\ _extract_from_pdf lib file_path fs = (Raise FileNotFoundError, fs).
Proof.
  intros F.
  assert (P : _preprocess_image lib fs file_path = Ok (np_empty lib)).
  { unfold _preprocess_image, imread, open_image. rewrite F. reflexivity. }
  split; [exact P|]. split; [|split].
  - intros e R. unfold _extract_from_image.
    rewrite (@ocr_image_unfold _ _ lib fs file_path _ P), R. reflexivity.
  - intros results R. unfold _extract_from_image.
    rewrite (@ocr_image_unfold _ _ lib fs file_path _ P), R. eauto.
  - unfold _extract_from_pdf, pdf_with_fitz. rewrite F.
    unfold _extract_from_pdf_fallback. rewrite F. reflexivity.
Qed.

(** X13: what [extract_credentials] returns.  It raises what the
    extraction of the text raises and what the parser raises on that text;
    otherwise the dict holds the fields of the parser, in the order of
    their declaration, then [raw_text] and [confidence_score]; and the raw
    text has no white space at either end. *)
Theorem extract_credentials_result (file_path : path) (fs : files) :
  fst (extract_credentials lib file_path fs) =
  match extracted lib file_path fs with
  | Ok (raw_text, confidence) =>
      match _parse_credentials raw_text with
      | Ok fields =>
          Ok (as_dict fields
              ++ [("raw_text", Str raw_text);
                  ("confidence_score", Float confidence)])%list
      | Raise e => Raise e
      end
  | Raise e => Raise e
  end
  /\ forall d raw_text,
       fst (extract_credentials lib file_path fs) = Ok d ->
       getitem d "raw_text" = Some (Str raw_text) ->
       strip raw_text = raw_text.
Proof.
  split; [apply extract_credentials_unfold|].
  intros d raw_text. rewrite extract_credentials_unfold.
  destruct (extracted lib file_path fs) as [[t c]|] eqn:E; [|discriminate].
  destruct (_parse_credentials t) as [fields|]; [|discriminate].
  intros H. inversion H; subst d. clear H.
  rewrite getitem_after.
  - intros R. inversion R; subst. apply (@extracted_stripped _ _ lib _ _ _ _ E).
  - apply as_dict_keys. intros f. destruct f; discriminate.
Qed.

(** X14: [extract_credentials] writes and removes no file for a path
    whose suffix is not [.pdf], in whatever case of its letters, and for a
    document no file but the page images [temp_page_<n>.png] next to it,
    whether it returns or raises. *)
Theorem extract_credentials_files (file_path : path) (fs : files) :
  (is_pdf file_path = false -> snd (extract_credentials lib file_path fs) = fs)
  /\ (forall q,
        (forall page_num, q <> temp_page file_path page_num) ->
        snd (extract_credentials lib file_path fs) q = fs q).
Proof.
  split.
  - apply (proj1 (extract_credentials_frame lib file_path fs)).
  - intros q N. apply (proj2 (extract_credentials_frame lib file_path fs)), N.
Qed.

(** X15: with a reader whose confidences lie between 0 and 1, so does
    the confidence score of every result, as long as the rounding of the
    arithmetic keeps a sum of [k] such numbers between 0 and the float
    [bound k] that [k] is, and its quotient by [k] between 0 and 1; exact
    arithmetic does ([ExtractionFacts.exact_rounds_within]). *)
Theorem confidence_score_bounded (bound : nat -> Q) (file_path : path)
    (fs : files) (d : dict) (c : Q) :
  rounds_within lib bound ->
  (forall img results,
     reader_readtext lib img = Ok results ->
     Forall (fun d => unit_interval (confidence_of d)) results) ->
  fst (extract_credentials lib file_path fs) = Ok d ->
  getitem d "confidence_score" = Some (Float c) ->
  unit_interval c.
Proof.
  intros Rd B. rewrite extract_credentials_unfold.
  destruct (extracted lib file_path fs) as [[t c0]|] eqn:E; [|discriminate].
  destruct (_parse_credentials t) as [fields|]; [|discriminate].
  intros H. inversion H; subst d. clear H.
  change (as_dict fields
          ++ [("raw_text", Str t); ("confidence_score", Float c0)])%list
    with (as_dict fields
          ++ [("raw_text", Str t)] ++ [("confidence_score", Float c0)])%list.
  rewrite app_assoc, getitem_after.
  - intros R. inversion R; subst.
    apply (@extracted_bounded _ _ lib bound Rd B _ _ _ _ E).
  - apply Forall_app. split.
    + apply as_dict_keys. intros f. destruct f; discriminate.
    + repeat constructor. discriminate.
Qed.

End Any.

Lemma pdf_pages_witness :
  exists fs',
    _extract_from_pdf mixed document (disk document (txt "pdf"))
    = (Ok (strip (page_lines
                    (map fst [(hello, 0.95%Q); (roll_text, roll_confidence)])),
           average mixed
             (fold_left (float_add mixed)
                (map snd [(hello, 0.95%Q); (roll_text, roll_confidence)]) 0%Q)
             (List.length [(hello, 0.95%Q); (roll_text, roll_confidence)])),
       fs').
Proof.
  apply (@pdf_pages nat nat mixed document (disk document (txt "pdf"))
           (txt "pdf") [text_page hello; scanned_page (txt "png")]
           [(hello, 0.95%Q); (roll_text, roll_confidence)]).
  - reflexivity.
  - reflexivity.
  - vm_compute. reflexivity.
Defined.

Lemma pdf_success_cleans_up_witness :
  (forall page_num page text,
     nth_error [text_page hello; scanned_page (txt "png")] page_num = Some page ->
     get_text page = Ok text -> truthy (strip text) = false ->
     unlink (write with_old_page (temp_page document 1) (txt "png"))
       (temp_page document 1) (temp_page document page_num) = None)
  /\ (forall q,
        (forall page_num page text,
           nth_error [text_page hello; scanned_page (txt "png")] page_num
           = Some page ->
           get_text page = Ok text -> truthy (strip text) = false ->
           q <> temp_page document page_num) ->
        unlink (write with_old_page (temp_page document 1) (txt "png"))
          (temp_page document 1) q = with_old_page q).
Proof.
  apply (@pdf_success_cleans_up nat nat mixed document with_old_page
           (unlink (write with_old_page (temp_page document 1) (txt "png"))
              (temp_page document 1))
           (txt "pdf") [text_page hello; scanned_page (txt "png")]
           (strip (page_lines [hello; roll_text]),
            average mixed
              (float_add mixed (float_add mixed 0 0.95) roll_confidence)%Q 2)).
  - reflexivity.
  - reflexivity.
  - reflexivity.
Defined.

Lemma missing_file_witness :
  _preprocess_image born_digital (disk document []) photo
  = Ok (np_empty born_digital)
  /\ (forall e,
        reader_readtext born_digital (np_empty born_digital) = Raise e ->
        _extract_from_image born_digital (disk document []) photo = Raise e)
  /\ (forall results,
        reader_readtext born_digital (np_empty born_digital) = Ok results ->
        exists r, _extract_from_image born_digital (disk document []) photo
                  = Ok r)
  /\ _extract_from_pdf born_digital photo (disk document [])
     = (Raise FileNotFoundError, disk document []).
Proof.
  apply (@missing_file nat nat born_digital photo (disk document [])).
  reflexivity.
Defined.

Lemma confidence_score_bounded_witness : unit_interval roll_confidence.
Proof.
  apply (@confidence_score_bounded nat nat mixed
           (fun k => inject_Z (Z.of_nat k)) photo (disk photo (txt "jpg"))
           roll_data roll_confidence).
  - apply exact_rounds_within; reflexivity.
  - intros img results H. inversion H; subst.
    repeat constructor; discriminate.
  - vm_compute. reflexivity.
  - reflexivity.
Defined.

End ExtractionProperties.

(** ** Facts about the table *)

Module DatabaseFacts.
Import Py Database Spec.
Import Permutation Sorted.

Lemma has_file_id_true (file_id : string) (row : Row.t) :
  has_file_id file_id row = true <-> Row.file_id row = file_id.
Proof. unfold has_file_id. apply String.eqb_eq. Qed.

Lemma has_file_id_false (file_id : string) (row : Row.t) :
  has_file_id file_id row = false <-> Row.file_id row <> file_id.
Proof. unfold has_file_id. apply String.eqb_neq. Qed.

Lemma fresh_iff (file_id : string) (rows : list Row.t) :
  existsb (has_file_id file_id) rows = false <->
  ~ In file_id (map Row.file_id rows).
Proof.
  induction rows as [|r rows IH]; simpl.
  - split; auto.
  - rewrite orb_false_iff, IH, has_file_id_false. tauto.
Qed.

Lemma find_none_iff (file_id : string) (rows : list Row.t) :
  find (has_file_id file_id) rows = None <->
  ~ In file_id (map Row.file_id rows).
Proof.
  induction rows as [|r rows IH]; simpl.
  - split; auto.
  - destruct (has_file_id file_id r) eqn:E.
    + apply has_file_id_true in E. split; [discriminate|]. intros N.
      exfalso. apply N. left. exact E.
    + apply has_file_id_false in E. rewrite IH. tauto.
Qed.

Lemma find_app_other (file_id other : string) (rows : list Row.t) (row : Row.t) :
  Row.file_id row <> other ->
  find (has_file_id other) (rows ++ [row]) = find (has_file_id other) rows.
Proof.
  intros N. induction rows as [|r rows IH]; simpl.
  - apply has_file_id_false in N. rewrite N. reflexivity.
  - destruct (has_file_id other r); auto.
Qed.

Lemma find_app_new (file_id : string) (rows : list Row.t) (row : Row.t) :
  existsb (has_file_id file_id) rows = false -> Row.file_id row = file_id ->
  find (has_file_id file_id) (rows ++ [row]) = Some row.
Proof.
  intros F E. induction rows as [|r rows IH]; simpl in *.
  - apply has_file_id_true in E. rewrite E. reflexivity.
  - destruct (has_file_id file_id r); simpl in F; [discriminate|]. auto.
Qed.

Lemma find_filter_same (file_id : string) (rows : list Row.t) :
  find (has_file_id file_id)
    (filter (fun row => negb (has_file_id file_id row)) rows) = None.
Proof.
  induction rows as [|r rows IH]; simpl; auto.
  destruct (has_file_id file_id r) eqn:E; simpl; auto. rewrite E. exact IH.
Qed.

Lemma find_filter_other (file_id other : string) (rows : list Row.t) :
  other <> file_id ->
  find (has_file_id other)
    (filter (fun row => negb (has_file_id file_id row)) rows)
  = find (has_file_id other) rows.
Proof.
  intros N. induction rows as [|r rows IH]; simpl; auto.
  destruct (has_file_id file_id r) eqn:E; simpl.
  - apply has_file_id_true in E.
    assert (O : has_file_id other r = false).
    { apply has_file_id_false. congruence. }
    rewrite O. exact IH.
  - destruct (has_file_id other r); auto.
Qed.

(** *** Saving *)

(** A row under a new identifier is found again. *)
Lemma save_fresh_found (js : json) (rows : list Row.t)
    (extraction : Models.CredentialExtraction) :
  ~ In (Models.file_id extraction) (map Row.file_id rows) ->
  loads js (dumps js (Models.extracted_data extraction))
  = Ok (Models.extracted_data extraction) ->
  get_extraction js (snd (save_extraction js (Some rows) extraction))
    (Models.file_id extraction)
  = Ok (Some (entry_of extraction)).
Proof.
  intros F L. apply fresh_iff in F. unfold save_extraction. rewrite F.
  cbn [snd]. unfold get_extraction.
  rewrite find_app_new with (file_id := Models.file_id extraction);
    [|exact F|reflexivity].
  unfold to_entry. cbn [Row.extracted_data_json]. rewrite L. reflexivity.
Qed.

(** Without a table, and under an identifier that is taken, nothing is
    saved. *)
Lemma save_refused (js : json) (db : database)
    (extraction : Models.CredentialExtraction) :
  db = None
  \/ (exists rows,
        db = Some rows
        /\ In (Models.file_id extraction) (map Row.file_id rows)) ->
  save_extraction js db extraction = (false, db).
Proof.
  intros [->|(rows & -> & I)]; [reflexivity|].
  unfold save_extraction.
  destruct (existsb _ rows) eqn:E; [reflexivity|].
  apply fresh_iff in E. contradiction.
Qed.

(** *** The order of the texts *)

Lemma text_ltb_asym (s t : str) : text_ltb s t = true -> text_ltb t s = false.
Proof.
  revert t. induction s as [|a s IH]; intros [|b t]; simpl; auto;
    try discriminate.
  intros H. apply orb_prop in H. apply orb_false_iff.
  destruct H as [H|H].
  - apply Nat.ltb_lt in H. split.
    + apply Nat.ltb_ge. lia.
    + apply andb_false_iff. left. apply Nat.eqb_neq. lia.
  - apply andb_prop in H. destruct H as [E L]. apply Nat.eqb_eq in E.
    split.
    + apply Nat.ltb_ge. lia.
    + apply andb_false_iff. right. apply IH, L.
Qed.

Lemma insert_desc_perm (row : Row.t) (sorted : list Row.t) :
  Permutation (insert_desc row sorted) (row :: sorted).
Proof.
  induction sorted as [|r sorted IH]; simpl; auto.
  destruct (text_ltb _ _); auto.
  rewrite IH. apply perm_swap.
Qed.

Lemma order_perm (rows : list Row.t) :
  Permutation (order_by_timestamp_desc rows) rows.
Proof.
  unfold order_by_timestamp_desc.
  assert (G : forall acc, Permutation
                            (fold_left (fun sorted row => insert_desc row sorted)
                               rows acc) (rows ++ acc)).
  { induction rows as [|r rows IH]; intros acc; simpl; auto.
    rewrite IH, insert_desc_perm. symmetry. apply Permutation_middle. }
  rewrite G, app_nil_r. reflexivity.
Qed.

Lemma insert_desc_sorted (row : Row.t) (sorted : list Row.t) :
  Sorted row_not_before sorted -> Sorted row_not_before (insert_desc row sorted).
Proof.
  induction 1 as [|r sorted Hs IH Hd]; simpl.
  - constructor; constructor.
  - destruct (text_ltb (Row.extraction_timestamp r) (Row.extraction_timestamp row))
      eqn:L.
    + constructor; [constructor; assumption|].
      constructor. apply text_ltb_asym, L.
    + constructor; [exact IH|].
      destruct sorted as [|r' sorted]; simpl.
      * constructor. exact L.
      * destruct (text_ltb (Row.extraction_timestamp r')
                    (Row.extraction_timestamp row)).
        -- constructor. exact L.
        -- inversion Hd; subst. constructor. assumption.
Qed.

Lemma order_sorted (rows : list Row.t) :
  Sorted row_not_before (order_by_timestamp_desc rows).
Proof.
  unfold order_by_timestamp_desc.
  assert (G : forall acc, Sorted row_not_before acc ->
                          Sorted row_not_before
                            (fold_left (fun sorted row => insert_desc row sorted)
                               rows acc)).
  { induction rows as [|r rows IH]; intros acc H; simpl; auto.
    apply IH, insert_desc_sorted, H. }
  apply G. constructor.
Qed.

Lemma entries_spec (js : json) (rows : list Row.t) (es : list Entry.t) :
  entries js rows = Ok es ->
  Forall2 (fun row e => to_entry js row = Ok e) rows es.
Proof.
  revert es. induction rows as [|r rows IH]; intros es; simpl.
  - intros H. inversion H. constructor.
  - destruct (to_entry js r) as [e|] eqn:T; [|discriminate]. cbn [bind].
    destruct (entries js rows) as [rest|]; [|discriminate]. cbn [bind].
    intros H. inversion H; subst. constructor; auto.
Qed.

Lemma to_entry_fields (js : json) (row : Row.t) (e : Entry.t) :
  to_entry js row = Ok e ->
  Entry.file_id e = Row.file_id row
  /\ Entry.extraction_timestamp e = Row.extraction_timestamp row.
Proof.
  unfold to_entry. destruct (loads js _); [|discriminate]. cbn [bind].
  intros H. inversion H. auto.
Qed.

End DatabaseFacts.

(** ** The table of the extractions *)

Module DatabaseProperties.
Import Py Database Spec DatabaseFacts.
Import Permutation Sorted.
Local Open Scope string_scope.

Section Json.
Variable js : json.

(** X16: an extraction saved under an identifier the table does not
    hold can be read back.  [save_extraction] returns [True], and
    [get_extraction] then returns its fields, with the time stamp as text
    and, when [json] reads its own output back, its data; what the other
    identifiers give is as before. *)
Theorem save_then_get (rows : list Row.t)
    (extraction : Models.CredentialExtraction) :
  ~ In (Models.file_id extraction) (map Row.file_id rows) ->
  loads js (dumps js (Models.extracted_data extraction))
  = Ok (Models.extracted_data extraction) ->
  fst (save_extraction js (Some rows) extraction) = true
  /\ get_extraction js (snd (save_extraction js (Some rows) extraction))
       (Models.file_id extraction)
     = Ok (Some (entry_of extraction))
  /\ forall other,
       other <> Models.file_id extraction ->
       get_extraction js (snd (save_extraction js (Some rows) extraction)) other
       = get_extraction js (Some rows) other.
Proof.
  intros F L. split; [|split].
  - apply fresh_iff in F. unfold save_extraction. rewrite F. reflexivity.
  - apply save_fresh_found; assumption.
  - intros other N. apply fresh_iff in F. unfold save_extraction. rewrite F.
    cbn [snd]. unfold get_extraction.
    rewrite (@find_app_other (Models.file_id extraction) other); auto.
Qed.

(** X17: [file_id] is a key.  An extraction whose identifier the table
    holds already is not saved: [save_extraction] returns [False] and the
    table is as it was, and so it is without a table.  No operation leads
    to two rows with one identifier. *)
Theorem file_id_is_key (db : database)
    (extraction : Models.CredentialExtraction) (file_id : string) :
  ((db = None
    \/ exists rows,
         db = Some rows /\ In (Models.file_id extraction) (map Row.file_id rows)) ->
   save_extraction js db extraction = (false, db))
  /\ (unique_ids db ->
      unique_ids (initialize db)
      /\ unique_ids (snd (save_extraction js db extraction))
      /\ unique_ids (snd (delete_extraction db file_id))).
Proof.
  split; [apply save_refused|].
  destruct db as [rows|]; cbn [unique_ids initialize]; intros U.
  - split; [exact U|]. split.
    + unfold save_extraction.
      destruct (existsb _ rows) eqn:E; [exact U|]. cbn [snd unique_ids].
      apply fresh_iff in E.
      rewrite map_app. cbn [map Row.file_id].
      apply NoDup_rev in U. rewrite <- (rev_involutive (_ ++ _)).
      apply NoDup_rev. rewrite rev_app_distr. cbn [rev app].
      constructor; [|exact U]. rewrite <- in_rev. exact E.
    + cbn [delete_extraction snd unique_ids].
      clear -U. induction rows as [|r rows IH]; simpl; [constructor|].
      inversion U as [|? ? Nr U']; subst.
      destruct (has_file_id file_id r); simpl; auto.
      constructor; auto.
      intros I. apply Nr. apply in_map_iff in I.
      destruct I as (x & Ex & Ix). apply filter_In in Ix.
      apply in_map_iff. exists x. tauto.
  - repeat split; constructor.
Qed.

(** X18: [delete_extraction] on a table returns [True], whether or not
    a row has the identifier; afterwards [get_extraction] finds nothing
    under it and, under the other identifiers, what it found before.
    Without a table it returns [False]. *)
Theorem delete_then_get (rows : list Row.t) (file_id : string) :
  fst (delete_extraction (Some rows) file_id) = true
  /\ get_extraction js (snd (delete_extraction (Some rows) file_id)) file_id
     = Ok None
  /\ (forall other,
        other <> file_id ->
        get_extraction js (snd (delete_extraction (Some rows) file_id)) other
        = get_extraction js (Some rows) other)
  /\ (~ In file_id (map Row.file_id rows) ->
      delete_extraction (Some rows) file_id = (true, Some rows))
  /\ delete_extraction None file_id = (false, None).
Proof.
  cbn [delete_extraction fst snd]. split; [reflexivity|].
  split; [|split; [|split]].
  - unfold get_extraction. rewrite find_filter_same. reflexivity.
  - intros other N. unfold get_extraction.
    rewrite (@find_filter_other file_id other rows N). reflexivity.
  - intros F. f_equal. f_equal.
    induction rows as [|r rows IH]; simpl; auto.
    simpl in F.
    assert (E : has_file_id file_id r = false).
    { apply has_file_id_false. tauto. }
    rewrite E. simpl. rewrite IH; tauto.
  - reflexivity.
Qed.

(** X19: [get_all_extractions], when it returns, returns one entry for
    each row, those with the greater time stamp, as text, first. *)
Theorem get_all_newest_first (rows : list Row.t) (es : list Entry.t) :
  get_all_extractions js (Some rows) = Ok es ->
  Permutation (map Entry.file_id es) (map Row.file_id rows)
  /\ Sorted not_before es.
Proof.
  unfold get_all_extractions. intros H. apply entries_spec in H.
  pose proof (order_perm rows) as P. pose proof (order_sorted rows) as S.
  set (sorted := order_by_timestamp_desc rows) in *. clearbody sorted.
  split.
  - rewrite <- (Permutation_map Row.file_id P).
    clear -H. induction H as [|r e rs es T Hs IH]; simpl; auto.
    destruct (to_entry_fields _ _ T) as [-> _]. constructor. exact IH.
  - clear P. revert S. induction H as [|r e rs es T Hs IH]; intros S.
    + constructor.
    + inversion S as [|? ? S' Hd]; subst. constructor; [apply IH, S'|].
      destruct Hs as [|r' e' rs' es' T' Hs']; constructor.
      inversion Hd; subst. unfold not_before.
      destruct (to_entry_fields _ _ T) as [_ ->].
      destruct (to_entry_fields _ _ T') as [_ ->]. assumption.
Qed.

End Json.

Lemma save_then_get_witness :
  fst (save_extraction plain_json (Some [second_row]) first_extraction) = true
  /\ get_extraction plain_json
       (snd (save_extraction plain_json (Some [second_row]) first_extraction))
       (Models.file_id first_extraction)
     = Ok (Some (entry_of first_extraction))
  /\ forall other,
       other <> Models.file_id first_extraction ->
       get_extraction plain_json
         (snd (save_extraction plain_json (Some [second_row]) first_extraction))
         other
       = get_extraction plain_json (Some [second_row]) other.
Proof.
  apply (@save_then_get plain_json [second_row] first_extraction).
  - simpl. intros [E|[]]. discriminate E.
  - vm_compute. reflexivity.
Defined.

Lemma get_all_newest_first_witness :
  Permutation
    (map Entry.file_id [entry_of second_extraction; entry_of first_extraction])
    (map Row.file_id [first_row; second_row])
  /\ Sorted not_before [entry_of second_extraction; entry_of first_extraction].
Proof.
  apply (@get_all_newest_first plain_json [first_row; second_row]).
  vm_compute. reflexivity.
Defined.

End DatabaseProperties.

(** ** Time stamps as text *)

Module TimeFacts.
Import Py Spec Database Datetime.

Lemma chars_cons (q : nat) (l : Decimal.uint) :
  q < 10 -> chars (digit_cons q l) = digit_char q :: chars l.
Proof.
  intros H. do 10 (destruct q as [|q]; [reflexivity|]). lia.
Qed.

Lemma code_digit (q : nat) : q < 10 -> code (digit_char q) = 48 + q.
Proof.
  intros H. unfold code, digit_char. apply nat_ascii_embedding. lia.
Qed.

Lemma pow10_pos (w : nat) : 0 < 10 ^ w.
Proof. induction w; simpl; lia. Qed.

Lemma split_digit (w n : nat) :
  n < 10 ^ S w ->
  exists q r,
    n / 10 ^ w = q /\ n mod 10 ^ w = r
    /\ n = 10 ^ w * q + r /\ q < 10 /\ r < 10 ^ w.
Proof.
  intros H. pose proof (pow10_pos w) as P.
  exists (n / 10 ^ w), (n mod 10 ^ w). repeat split.
  - apply Nat.div_mod_eq.
  - apply Nat.Div0.div_lt_upper_bound. simpl in H. lia.
  - apply Nat.mod_upper_bound. lia.
Qed.

Lemma fixed_chars (w : nat) :
  forall n, n < 10 ^ w -> chars (fixed_uint w n) = fixed_width w n.
Proof.
  induction w as [|w IH]; intros n H; [reflexivity|].
  destruct (split_digit w H) as (q & r & Eq & Er & _ & Q & R).
  cbn [fixed_uint fixed_width]. rewrite Eq, Er, (chars_cons _ Q), (IH _ R).
  reflexivity.
Qed.

Lemma fixed_length (w n : nat) : List.length (fixed_width w n) = w.
Proof. revert n. induction w; intros n; simpl; auto. Qed.

Lemma acc_cons (q : nat) (l : Decimal.uint) (acc : positive) :
  q < 10 ->
  exists acc',
    Pos.of_uint_acc (digit_cons q l) acc = Pos.of_uint_acc l acc'
    /\ N.pos acc' = (N.of_nat q + 10 * N.pos acc)%N.
Proof.
  intros H. do 10 (destruct q as [|q]; [eexists; split; [reflexivity|lia]|]).
  lia.
Qed.

Lemma acc_fixed (w : nat) :
  forall n acc,
    n < 10 ^ w ->
    N.pos (Pos.of_uint_acc (fixed_uint w n) acc)
    = (N.pos acc * N.of_nat (10 ^ w) + N.of_nat n)%N.
Proof.
  induction w as [|w IH]; intros n acc H.
  - assert (n = 0) by (simpl in H; lia). subst n.
    cbn [fixed_uint Pos.of_uint_acc Nat.pow]. lia.
  - destruct (split_digit w H) as (q & r & Eq & Er & E & Q & R).
    cbn [fixed_uint]. rewrite Eq, Er.
    destruct (acc_cons (fixed_uint w r) acc Q) as (acc' & -> & A).
    rewrite (IH _ acc' R), A, E. cbn [Nat.pow].
    rewrite Nnat.Nat2N.inj_add, !Nnat.Nat2N.inj_mul. lia.
Qed.

Lemma of_fixed (w : nat) :
  forall n, n < 10 ^ w -> N.of_uint (fixed_uint w n) = N.of_nat n.
Proof.
  unfold N.of_uint. induction w as [|w IH]; intros n H.
  - assert (n = 0) by (simpl in H; lia). subst n. reflexivity.
  - destruct (split_digit w H) as (q & r & Eq & Er & E & Q & R).
    cbn [fixed_uint]. rewrite Eq, Er.
    pose proof (fun acc => @acc_fixed w r acc R) as A.
    destruct q as [|q].
    + cbn [digit_cons Pos.of_uint]. rewrite (IH _ R). f_equal. lia.
    + rewrite E, Nnat.Nat2N.inj_add, Nnat.Nat2N.inj_mul.
      do 9 (destruct q as [|q];
            [cbn [digit_cons Pos.of_uint]; rewrite A; lia|]).
      lia.
Qed.

Lemma str_of_nat (w n : nat) :
  n < 10 ^ w -> str_of_int (Z.of_nat n) = chars (Decimal.unorm (fixed_uint w n)).
Proof.
  intros H. unfold str_of_int, chars.
  rewrite <- nat_N_Z, N2Z.id, <- (of_fixed w H), DecimalN.Unsigned.to_of.
  reflexivity.
Qed.

Lemma nzhead_length (d : Decimal.uint) :
  List.length (chars (Decimal.nzhead d)) <= List.length (chars d).
Proof. induction d; simpl; auto. Qed.

Lemma nzhead_zeros (d : Decimal.uint) :
  chars d
  = (repeat "0"%char
       (List.length (chars d) - List.length (chars (Decimal.nzhead d)))
     ++ chars (Decimal.nzhead d))%list.
Proof.
  induction d as [|d IHd|d IHd|d IHd|d IHd|d IHd|d IHd|d IHd|d IHd|d IHd|d IHd];
    try (simpl; rewrite ?Nat.sub_diag; reflexivity).
  pose proof (nzhead_length d) as L.
  change (chars (Decimal.D0 d)) with ("0"%char :: chars d).
  cbn [Decimal.nzhead List.length].
  replace (S (List.length (chars d))
           - List.length (chars (Decimal.nzhead d)))
    with (S (List.length (chars d) - List.length (chars (Decimal.nzhead d))))
    by lia.
  cbn [repeat app]. rewrite <- IHd. reflexivity.
Qed.

Lemma repeat_snoc (A : Type) (x : A) (n : nat) :
  (repeat x n ++ [x])%list = x :: repeat x n.
Proof. induction n; simpl; congruence. Qed.

Lemma unorm_zeros (d : Decimal.uint) :
  1 <= List.length (chars d) ->
  (repeat "0"%char
     (List.length (chars d) - List.length (chars (Decimal.unorm d)))
   ++ chars (Decimal.unorm d))%list = chars d.
Proof.
  intros L. pose proof (nzhead_zeros d) as Z. unfold Decimal.unorm.
  destruct (Decimal.nzhead d) eqn:E; try (symmetry; exact Z).
  change (chars Decimal.Nil) with (@nil ascii) in Z.
  rewrite app_nil_r in Z. cbn [List.length] in Z. rewrite Nat.sub_0_r in Z.
  change (chars (Decimal.D0 Decimal.Nil)) with ["0"%char].
  cbn [List.length]. set (k := List.length (chars d)) in *.
  rewrite Z. destruct k as [|k]; [lia|].
  simpl. rewrite Nat.sub_0_r. apply repeat_snoc.
Qed.

(** [zfill] gives the digits of a number that fits the width. *)
Lemma zfill_fixed (w n : nat) :
  1 <= w -> n < 10 ^ w -> zfill w n = fixed_width w n.
Proof.
  intros W H. unfold zfill. cbv zeta. rewrite (str_of_nat w H).
  rewrite <- (fixed_chars w H).
  pose proof (fixed_length w n) as L. rewrite <- (fixed_chars w H) in L.
  rewrite <- L at 1. apply unorm_zeros. lia.
Qed.

(** Numbers of one width are in the order of their digits. *)
Lemma fixed_order (w : nat) :
  forall n m r r',
    n < 10 ^ w -> m < 10 ^ w ->
    text_ltb (fixed_width w n ++ r) (fixed_width w m ++ r')
    = (n <? m) || ((n =? m) && text_ltb r r').
Proof.
  induction w as [|w IH]; intros n m r r' Hn Hm.
  - simpl in Hn, Hm. assert (n = 0) by lia. assert (m = 0) by lia. subst.
    reflexivity.
  - destruct (split_digit w Hn) as (qn & rn & Eqn & Ern & En & Qn & Rn).
    destruct (split_digit w Hm) as (qm & rm & Eqm & Erm & Em & Qm & Rm).
    cbn [fixed_width app text_ltb]. rewrite Eqn, Ern, Eqm, Erm.
    rewrite (code_digit Qn), (code_digit Qm), (IH _ _ r r' Rn Rm).
    clear Eqn Ern Eqm Erm Hn Hm IH. subst n m.
    set (P := 10 ^ w) in *. clearbody P.
    destruct (text_ltb r r');
      destruct (48 + qn <? 48 + qm) eqn:A; destruct (48 + qn =? 48 + qm) eqn:B;
      destruct (rn <? rm) eqn:C; destruct (rn =? rm) eqn:D;
      destruct (P * qn + rn <? P * qm + rm) eqn:F;
      destruct (P * qn + rn =? P * qm + rm) eqn:G;
      try reflexivity; exfalso;
      rewrite ?Nat.ltb_lt, ?Nat.ltb_ge, ?Nat.eqb_eq, ?Nat.eqb_neq in *; nia.
Qed.

Lemma text_ltb_same (c : ascii) (r r' : str) :
  text_ltb (c :: r) (c :: r') = text_ltb r r'.
Proof. simpl. rewrite Nat.ltb_irrefl, Nat.eqb_refl. reflexivity. Qed.

Ltac fits := first [assumption | lia | cbn [Nat.pow]; lia].

End TimeFacts.

Module TimeProperties.
Import Py Spec Database Datetime TimeFacts.

(** X25: the text of a time stamp orders as the time does.  For two
    values of [datetime], the texts [isoformat] gives, compared as the
    table compares them, are in the order of the times; so the rows that
    [get_all_extractions] returns first are the latest. *)
Theorem timestamps_in_time_order (sep : ascii) (a b : datetime) :
  in_calendar a -> in_calendar b ->
  text_ltb (isoformat sep a) (isoformat sep b) = earlier a b.
Proof.
  intros (Ya & Ma & Da & Ha & Mi & Sa & Ua) (Yb & Mb & Db & Hb & Mj & Sb & Ub).
  unfold isoformat, earlier, fields_of. cbn [lex_ltb].
  rewrite !andb_false_r, !orb_false_r.
  rewrite (@zfill_fixed 4 (year a)), (@zfill_fixed 4 (year b)) by fits.
  rewrite (@zfill_fixed 2 (month a)), (@zfill_fixed 2 (month b)) by fits.
  rewrite (@zfill_fixed 2 (day a)), (@zfill_fixed 2 (day b)) by fits.
  rewrite (@zfill_fixed 2 (hour a)), (@zfill_fixed 2 (hour b)) by fits.
  rewrite (@zfill_fixed 2 (minute a)), (@zfill_fixed 2 (minute b)) by fits.
  rewrite (@zfill_fixed 2 (second a)), (@zfill_fixed 2 (second b)) by fits.
  repeat (rewrite fixed_order by fits; cbn [app]; rewrite ?text_ltb_same).
  repeat f_equal.
  destruct (microsecond a) as [|ua] eqn:Ea;
    destruct (microsecond b) as [|ub] eqn:Eb; try reflexivity.
  cbn [Nat.eqb]. rewrite text_ltb_same.
  rewrite <- (app_nil_r (zfill 6 (S ua))), <- (app_nil_r (zfill 6 (S ub))).
  rewrite (@zfill_fixed 6 (S ua)), (@zfill_fixed 6 (S ub)) by fits.
  rewrite fixed_order by fits. cbn [text_ltb].
  rewrite andb_false_r, orb_false_r. reflexivity.
Qed.

Lemma timestamps_in_time_order_witness :
  text_ltb (isoformat " " noon) (isoformat " " past_one) = earlier noon past_one.
Proof.
  apply (@timestamps_in_time_order " " noon past_one);
    unfold in_calendar; cbn [year month day hour minute second microsecond
                               noon past_one Nat.pow]; lia.
Defined.

End TimeProperties.

(** ** Facts about paths and names *)

Module PathFacts.
Import Py Pathlib Spec OCRService Main StringFacts.

Lemma str_eqb_eq (s t : str) : str_eqb s t = true <-> s = t.
Proof.
  revert t. induction s as [|a s IH]; intros [|b t]; simpl;
    try (split; [discriminate|discriminate]); try tauto.
  rewrite andb_true_iff, Ascii.eqb_eq, IH. split.
  - intros [-> ->]. reflexivity.
  - intros H. inversion H. auto.
Qed.

Lemma lower_char_dot (c : ascii) :
  Ascii.eqb (lower_char c) "." = Ascii.eqb c ".".
Proof. destruct c as [[] [] [] [] [] [] [] []]; reflexivity. Qed.

Lemma rfind_dot_lower (s : str) : rfind_dot (lower s) = rfind_dot s.
Proof.
  unfold lower. induction s as [|c s IH]; cbn [map rfind_dot]; auto.
  rewrite IH, lower_char_dot. reflexivity.
Qed.

Lemma rfind_dot_app (a b : str) (i : nat) :
  rfind_dot b = Some i -> rfind_dot (a ++ b) = Some (List.length a + i).
Proof.
  intros H. induction a as [|c a IH]; simpl; auto. rewrite IH. reflexivity.
Qed.

(** The suffix of a stem followed by an extension. *)
Lemma suffix_of_stem (stem e : str) :
  stem <> [] -> rfind_dot e = Some 0 -> 2 <= List.length e ->
  suffix_of (stem ++ e) = e.
Proof.
  intros N D L. unfold suffix_of. rewrite (@rfind_dot_app stem e 0 D).
  rewrite Nat.add_0_r, length_app.
  assert (P : 0 < List.length stem).
  { destruct stem; [contradiction|simpl; lia]. }
  rewrite (proj2 (Nat.ltb_lt _ _) P).
  rewrite (proj2 (Nat.ltb_lt (List.length stem) _)) by lia.
  cbn [andb]. rewrite skipn_app, skipn_all, Nat.sub_diag. reflexivity.
Qed.

(** A non-empty suffix splits the name in a stem and itself. *)
Lemma suffix_of_split (name : str) :
  suffix_of name <> [] ->
  exists stem, name = (stem ++ suffix_of name)%list /\ stem <> [].
Proof.
  unfold suffix_of. destruct (rfind_dot name) as [i|] eqn:R; [|contradiction].
  destruct ((0 <? i) && (i <? List.length name - 1)) eqn:C; [|contradiction].
  intros _. apply andb_prop in C. destruct C as [C1 C2].
  apply Nat.ltb_lt in C1, C2.
  exists (firstn i name). split; [symmetry; apply firstn_skipn|].
  intros E. apply (f_equal (@List.length _)) in E.
  rewrite length_firstn in E. simpl in E. lia.
Qed.

Lemma allowed_cases (ext : str) :
  allowed ext = true <-> In ext (map list_ascii_of_string allowed_extensions).
Proof.
  unfold allowed, allowed_extensions. cbn [existsb map].
  rewrite !orb_true_iff, !str_eqb_eq. simpl. intuition congruence.
Qed.

Lemma allowed_shape (ext : str) :
  allowed ext = true ->
  rfind_dot ext = Some 0 /\ 2 <= List.length ext /\ lower ext = ext.
Proof.
  intros H. apply allowed_cases in H. simpl in H.
  repeat (destruct H as [<-|H]; [repeat split; simpl; lia|]). contradiction.
Qed.

Lemma split_slash_plain (s : str) :
  ~ In "/"%char s ->
  forall cur, split_slash s cur = [(rev cur ++ s)%list].
Proof.
  induction s as [|c s IH]; intros N cur; simpl.
  - rewrite app_nil_r. reflexivity.
  - destruct (Ascii.eqb c "/") eqn:E.
    + apply Ascii.eqb_eq in E. subst c. exfalso. apply N. left. reflexivity.
    + rewrite IH by (intros I; apply N; right; exact I).
      simpl. rewrite <- app_assoc. reflexivity.
Qed.

(** The name of a path without a slash is the path, or empty for ".". *)
Lemma name_of_plain (s : str) :
  ~ In "/"%char s ->
  name_of s = if str_eqb s ["."%char] then [] else s.
Proof.
  intros N. unfold name_of, components.
  rewrite (@split_slash_plain s N []). cbn [rev app filter].
  destruct s as [|c s]; [reflexivity|].
  cbn [str_eqb orb]. destruct (Ascii.eqb c "." && str_eqb s [])%bool; reflexivity.
Qed.

Lemma list_of_string_app (a : string) (b : str) :
  list_ascii_of_string (a ++ string_of_list_ascii b)
  = (list_ascii_of_string a ++ b)%list.
Proof.
  rewrite list_of_append, list_ascii_of_string_of_list_ascii. reflexivity.
Qed.

Local Open Scope string_scope.

(** The suffix of the path of an upload is the extension it was accepted
    with. *)
Lemma upload_suffix (uuid4 file_name : string) :
  uuid4 <> EmptyString -> allowed (file_extension_of file_name) = true ->
  suffix (upload_path uuid4 file_name) = file_extension_of file_name.
Proof.
  intros N A. unfold suffix, upload_path. cbn [snd].
  rewrite list_of_string_app.
  destruct (@allowed_shape _ A) as (D & L & _).
  apply suffix_of_stem; auto.
  destruct uuid4; [contradiction|discriminate].
Qed.

(** A document is not one of its own page images. *)
Lemma pdf_not_temp_page (file_path : path) (page_num : nat) :
  is_pdf file_path = true -> file_path <> temp_page file_path page_num.
Proof.
  unfold is_pdf, suffix. intros P E. apply str_eqb_eq in P.
  assert (Ne : suffix_of (list_ascii_of_string (snd file_path)) <> []).
  { intros Z. rewrite Z in P. discriminate P. }
  destruct (@suffix_of_split _ Ne) as (stem & Sp & _).
  set (e := suffix_of _) in *.
  assert (L1 : lower_char (last (list_ascii_of_string (snd file_path)) " "%char)
               = "f"%char).
  { rewrite Sp, last_app_nonempty by exact Ne.
    rewrite <- last_lower, P. reflexivity. }
  rewrite E in L1. unfold temp_page in L1. cbn [snd] in L1.
  rewrite !list_of_append in L1.
  rewrite app_assoc, last_app_nonempty in L1 by discriminate.
  discriminate L1.
Qed.

End PathFacts.

(** ** The endpoints *)

Module MainProperties.
Import Py Re OCRService Spec ExtractionFacts DatabaseFacts PathFacts Main.
Local Open Scope string_scope.

(** X20: which file names [extract_text] accepts.  A name without a
    slash is accepted exactly when it is a stem that is not empty followed
    by one of the six extensions, in any case of its letters. *)
Theorem accepted_file_names (file_name : string) :
  ~ In "/"%char (list_ascii_of_string file_name) ->
  (allowed (file_extension_of file_name) = true <->
   exists stem e,
     list_ascii_of_string file_name = (stem ++ e)%list /\ stem <> []
     /\ In (lower e) (map list_ascii_of_string allowed_extensions)).
Proof.
  intros N. unfold file_extension_of. rewrite (@name_of_plain _ N). split.
  - intros A.
    destruct (Pathlib.str_eqb (list_ascii_of_string file_name) ["."%char]);
      [discriminate A|].
    assert (Ne : Pathlib.suffix_of (list_ascii_of_string file_name) <> []).
    { intros Z. rewrite Z in A. discriminate A. }
    destruct (@suffix_of_split _ Ne) as (stem & Sp & Ns).
    exists stem, (Pathlib.suffix_of (list_ascii_of_string file_name)).
    repeat split; auto. apply allowed_cases, A.
  - intros (stem & e & Sp & Ns & I).
    apply allowed_cases in I. destruct (@allowed_shape _ I) as (D & L & _).
    rewrite rfind_dot_lower in D. unfold lower in L. rewrite length_map in L.
    destruct (Pathlib.str_eqb (list_ascii_of_string file_name) ["."%char])
      eqn:Dot.
    + apply str_eqb_eq in Dot. rewrite Dot in Sp.
      apply (f_equal (@List.length _)) in Sp. rewrite length_app in Sp.
      simpl in Sp. lia.
    + rewrite Sp, (@suffix_of_stem _ _ Ns D L). exact I.
Qed.

Lemma accepted_file_names_witness :
  allowed (file_extension_of "Scan.JPG") = true <->
  exists stem e,
    list_ascii_of_string "Scan.JPG" = (stem ++ e)%list /\ stem <> []
    /\ In (lower e) (map list_ascii_of_string allowed_extensions).
Proof.
  apply (@accepted_file_names "Scan.JPG").
  simpl. intuition discriminate.
Defined.

Section Endpoints.
Context {raster pil_image : Type} (lib : libraries raster pil_image)
  (js : Database.json) (JSONResponse : content -> result unit).

Lemma extract_text_accepted (uuid4 : string) (now : Datetime.datetime)
    (file : UploadFile) (fs : files) (db : Database.database)
    (file_name : string) :
  filename file = Some file_name -> file_name <> EmptyString ->
  allowed (file_extension_of file_name) = true ->
  extract_text lib js JSONResponse uuid4 now file fs db =
  let file_path := upload_path uuid4 file_name in
  let handler (e : exn) (fs' : files) (db' : Database.database) :=
    (HTTPException 500 (OCR_extraction_failed e),
     match fs' file_path with
     | Some _ => unlink fs' file_path
     | None => fs'
     end,
     db') in
  match
    extract_credentials lib file_path (write fs file_path (Main.file file))
  with
  | (Ok extracted_data, fs') =>
      let db' :=
        snd (Database.save_extraction js db
               {| Models.file_id := uuid4;
                  Models.original_filename := file_name;
                  Models.file_path := str_of_path file_path;
                  Models.extracted_data := extracted_data;
                  Models.extraction_timestamp := now |}) in
      let body :=
        {| status := "success";
           file_id := uuid4;
           original_filename := file_name;
           extracted_data := extracted_data;
           timestamp := Datetime.isoformat "T" now |} in
      match JSONResponse body with
      | Ok _ => (Returns body, fs', db')
      | Raise e => handler e fs' db'
      end
  | (Raise e, fs') => handler e fs' db
  end.
Proof.
  intros F N A. unfold extract_text. rewrite F.
  destruct file_name as [|c file_name]; [contradiction|].
  rewrite A. reflexivity.
Qed.

(** X21: an upload whose extraction raises.  The answer is the error
    500 with that exception; the upload is not on disk afterwards, the
    database is as it was, and so is every file but the upload and the page
    images next to it. *)
Theorem failed_upload_removed (uuid4 : string) (now : Datetime.datetime)
    (file : UploadFile) (fs : files) (db : Database.database)
    (file_name : string) (e : exn) :
  filename file = Some file_name -> file_name <> EmptyString ->
  allowed (file_extension_of file_name) = true ->
  fst (extract_credentials lib (upload_path uuid4 file_name)
         (write fs (upload_path uuid4 file_name) (Main.file file)))
  = Raise e ->
  exists fs',
    extract_text lib js JSONResponse uuid4 now file fs db
    = (HTTPException 500 (OCR_extraction_failed e), fs', db)
    /\ fs' (upload_path uuid4 file_name) = None
    /\ forall q,
         q <> upload_path uuid4 file_name ->
         (forall page_num, q <> temp_page (upload_path uuid4 file_name) page_num) ->
         fs' q = fs q.
Proof.
  intros F N A R. rewrite (@extract_text_accepted uuid4 now file fs db file_name F N A).
  cbv zeta. set (p := upload_path uuid4 file_name) in *.
  pose proof (proj2 (@extract_credentials_frame _ _ lib p
                       (write fs p (Main.file file)))) as Fr.
  destruct (extract_credentials lib p (write fs p (Main.file file)))
    as [[d|e'] fs1]; cbn [fst snd] in *; [discriminate R|].
  inversion R; subst e'. eexists. split; [reflexivity|]. split.
  - destruct (fs1 p) eqn:E; [apply unlink_same | exact E].
  - intros q Nq Nt.
    assert (E1 : fs1 q = fs q).
    { rewrite (Fr q Nt). apply write_other, Nq. }
    destruct (fs1 p); [rewrite unlink_other by exact Nq|]; exact E1.
Qed.

(** X22: an upload whose extraction returns and whose answer
    [JSONResponse] can render, with a table that does not hold the
    identifier drawn.  The answer is "success" with the data; the upload
    stays on disk under the identifier and its extension; and the
    extraction can be read back from the database under the identifier,
    when [json] reads its own output back. *)
Theorem upload_stored (uuid4 : string) (now : Datetime.datetime)
    (file : UploadFile) (fs : files) (rows : list Database.Row.t)
    (file_name : string) (data : dict) :
  filename file = Some file_name -> file_name <> EmptyString ->
  allowed (file_extension_of file_name) = true ->
  fst (extract_credentials lib (upload_path uuid4 file_name)
         (write fs (upload_path uuid4 file_name) (Main.file file)))
  = Ok data ->
  ~ In uuid4 (map Database.Row.file_id rows) ->
  Database.loads js (Database.dumps js data) = Ok data ->
  JSONResponse
    {| status := "success";
       file_id := uuid4;
       original_filename := file_name;
       extracted_data := data;
       timestamp := Datetime.isoformat "T" now |} = Ok tt ->
  exists fs' db',
    extract_text lib js JSONResponse uuid4 now file fs (Some rows)
    = (Returns
         {| status := "success";
            file_id := uuid4;
            original_filename := file_name;
            extracted_data := data;
            timestamp := Datetime.isoformat "T" now |},
       fs', db')
    /\ fs' (upload_path uuid4 file_name) = Some (Main.file file)
    /\ get_extraction js db' uuid4
       = Ok (Returns
               {| Database.Entry.file_id := uuid4;
                  Database.Entry.original_filename := file_name;
                  Database.Entry.file_path :=
                    str_of_path (upload_path uuid4 file_name);
                  Database.Entry.extracted_data := data;
                  Database.Entry.extraction_timestamp :=
                    Datetime.isoformat " " now |}).
Proof.
  intros F N A R Fresh L J.
  rewrite (@extract_text_accepted uuid4 now file fs (Some rows) file_name F N A).
  cbv zeta. set (p := upload_path uuid4 file_name) in *.
  destruct (@extract_credentials_frame _ _ lib p (write fs p (Main.file file)))
    as [Fi Fp].
  destruct (extract_credentials lib p (write fs p (Main.file file)))
    as [[d|e'] fs1]; cbn [fst snd] in *; [|discriminate R].
  inversion R; subst d. rewrite J.
  eexists. eexists. split; [reflexivity|]. split.
  - destruct (is_pdf p) eqn:P.
    + rewrite Fp; [apply write_same|].
      intros page_num. apply pdf_not_temp_page, P.
    + rewrite Fi by reflexivity. apply write_same.
  - unfold get_extraction.
    set (x := {| Models.file_id := uuid4 |}).
    pose proof (@save_fresh_found js rows x Fresh L) as G.
    cbn [Models.file_id x] in G. rewrite G. reflexivity.
Qed.

(** X23: the answer of [extract_text] does not tell whether the row was
    saved.  When the extraction returns, [JSONResponse] can render the
    answer and the row cannot be saved, for want of a table or because the
    identifier is taken, the answer is "success" all the same and the
    database is as it was. *)
Theorem unsaved_upload_unreported (uuid4 : string) (now : Datetime.datetime)
    (file : UploadFile) (fs : files) (db : Database.database)
    (file_name : string) (data : dict) :
  filename file = Some file_name -> file_name <> EmptyString ->
  allowed (file_extension_of file_name) = true ->
  fst (extract_credentials lib (upload_path uuid4 file_name)
         (write fs (upload_path uuid4 file_name) (Main.file file)))
  = Ok data ->
  (db = None
   \/ exists rows,
        db = Some rows /\ In uuid4 (map Database.Row.file_id rows)) ->
  JSONResponse
    {| status := "success";
       file_id := uuid4;
       original_filename := file_name;
       extracted_data := data;
       timestamp := Datetime.isoformat "T" now |} = Ok tt ->
  exists fs',
    extract_text lib js JSONResponse uuid4 now file fs db
    = (Returns
         {| status := "success";
            file_id := uuid4;
            original_filename := file_name;
            extracted_data := data;
            timestamp := Datetime.isoformat "T" now |},
       fs', db).
Proof.
  intros F N A R D J.
  rewrite (@extract_text_accepted uuid4 now file fs db file_name F N A).
  cbv zeta. set (p := upload_path uuid4 file_name) in *.
  destruct (extract_credentials lib p (write fs p (Main.file file)))
    as [[d|e'] fs1]; cbn [fst snd] in *; [|discriminate R].
  inversion R; subst d. rewrite J. exists fs1.
  set (x := {| Models.file_id := uuid4 |}).
  rewrite (@save_refused js db x); [reflexivity|exact D].
Qed.


(** X24: [get_extraction] answers 404 exactly when the table has no
    row with the identifier, as it has none right after [startup]; without
    a table the exception of the query is not handled. *)
Theorem get_extraction_not_found (db : Database.database) (file_id : string) :
  (forall rows,
     db = Some rows ->
     (get_extraction js db file_id = Ok (HTTPException 404 Extraction_not_found)
      <-> ~ In file_id (map Database.Row.file_id rows)))
  /\ (db = None ->
      get_extraction js db file_id = Raise Database.no_such_table
      /\ get_extraction js (startup db) file_id
         = Ok (HTTPException 404 Extraction_not_found)).
Proof.
  split.
  - intros rows ->. rewrite <- find_none_iff.
    unfold get_extraction, Database.get_extraction.
    destruct (find _ rows) as [row|]; cbn [bind].
    + destruct (Database.to_entry js row); cbn [bind];
        split; discriminate.
    + split; reflexivity.
  - intros ->. split; reflexivity.
Qed.

End Endpoints.

Lemma failed_upload_removed_witness :
  exists fs',
    extract_text ocr_fails plain_json renders "id-1" noon scan_jpg empty_disk
      (Some [])
    = (HTTPException 500 (OCR_extraction_failed (LibraryError 4)), fs', Some [])
    /\ fs' (upload_path "id-1" "Scan.JPG") = None
    /\ forall q,
         q <> upload_path "id-1" "Scan.JPG" ->
         (forall page_num,
            q <> temp_page (upload_path "id-1" "Scan.JPG") page_num) ->
         fs' q = empty_disk q.
Proof.
  apply (@failed_upload_removed nat nat ocr_fails plain_json renders "id-1" noon
           scan_jpg empty_disk (Some []) "Scan.JPG" (LibraryError 4)).
  - reflexivity.
  - discriminate.
  - reflexivity.
  - vm_compute. reflexivity.
Defined.

Lemma upload_stored_witness :
  exists fs' db',
    extract_text mixed plain_json renders "id-1" noon scan_jpg empty_disk
      (Some [second_row])
    = (Returns
         {| status := "success";
            file_id := "id-1";
            original_filename := "Scan.JPG";
            extracted_data := roll_data;
            timestamp := Datetime.isoformat "T" noon |},
       fs', db')
    /\ fs' (upload_path "id-1" "Scan.JPG") = Some (Main.file scan_jpg)
    /\ get_extraction plain_json db' "id-1"
       = Ok (Returns
               {| Database.Entry.file_id := "id-1";
                  Database.Entry.original_filename := "Scan.JPG";
                  Database.Entry.file_path :=
                    str_of_path (upload_path "id-1" "Scan.JPG");
                  Database.Entry.extracted_data := roll_data;
                  Database.Entry.extraction_timestamp :=
                    Datetime.isoformat " " noon |}).
Proof.
  apply (@upload_stored nat nat mixed plain_json renders "id-1" noon scan_jpg
           empty_disk [second_row] "Scan.JPG" roll_data).
  - reflexivity.
  - discriminate.
  - reflexivity.
  - vm_compute. reflexivity.
  - simpl. intros [E|[]]. discriminate E.
  - vm_compute. reflexivity.
  - reflexivity.
Defined.

Lemma unsaved_upload_unreported_witness :
  exists fs',
    extract_text mixed plain_json renders "id-1" noon scan_jpg empty_disk
      (Some [first_row])
    = (Returns
         {| status := "success";
            file_id := "id-1";
            original_filename := "Scan.JPG";
            extracted_data := roll_data;
            timestamp := Datetime.isoformat "T" noon |},
       fs', Some [first_row]).
Proof.
  apply (@unsaved_upload_unreported nat nat mixed plain_json renders "id-1"
           noon scan_jpg empty_disk (Some [first_row]) "Scan.JPG" roll_data).
  - reflexivity.
  - discriminate.
  - reflexivity.
  - vm_compute. reflexivity.
  - right. exists [first_row]. split; [reflexivity|]. left. reflexivity.
  - reflexivity.
Defined.


End MainProperties.
